(** * wsterm: a ray caster for the terminal

    A shallow embedding of [main.cpp] and [math.hpp]: the maze and its wall
    test, the DDA ray caster ([initialize_dda_direction], [cast_ray],
    [compute_wall_hit]), the column renderer ([fractional_block],
    [draw_column]), the [player] class, and [draw_scene], [draw_map], [render]
    and the table of events of [main].

    Numbers.  A value of the C++ type [float] is modelled by the type [float]
    below: a rational number, or one of the IEEE special values (plus and minus
    infinity, not-a-number).  Arithmetic follows IEEE 754 on the special
    values, so that [1.0f / 0.0f] is infinity, and every operation on finite
    values rounds its exact result with the rounding of a [format]:

    - [binary32] is the arithmetic of the program: single precision, each
      operation rounded once to the nearest value, to the even one from half
      way, with gradual underflow and overflow to infinity; the one literal of
      type [double], [0.9], is rounded to double precision;
    - [exact_format] rounds nothing: the arithmetic of the rationals, which
      properties stated over exact or real arithmetic are about.

    The two zeros of IEEE are one value.  A C++ [int] is a [Z]; the conversion
    [static_cast<int>] is undefined outside the range of a 32-bit integer and
    returns [None] there.  Code whose behaviour is undefined (an array read out
    of bounds, a conversion out of range) returns [None]. *)

From Stdlib Require Import ZArith QArith Qround Qabs Qpower Lia Lqa Bool List String Ascii.
From Stdlib Require Import Morphisms Setoid.
From Stdlib Require Import Floats.SpecFloat.
From Stdlib Require Import Reals.
From Stdlib Require Import Permutation FinFun.
Import ListNotations.

Local Open Scope Z_scope.

(** ** The option monad, for code that may hit undefined behaviour *)

Definition bind {A B : Type} (m : option A) (f : A -> option B) : option B :=
  match m with
  | Some a => f a
  | None => None
  end.

Notation "x <- m ;; k" := (bind m (fun x => k))
  (at level 61, m at next level, right associativity).
Notation "' pat <- m ;; k" := (bind m (fun x => match x with pat => k end))
  (at level 61, pat pattern, m at next level, right associativity).

(** ** Floating-point values *)

Inductive float : Type :=
| Fin (q : Q)
| PInf
| NInf
| NaN.

(** ** Rounding to a binary format *)

Module Binary.

(* the exponent of the binade of a rational that is not 0: the largest [e]
   with [2 ^ e <= |q|] *)
Definition Qlog2 (q : Q) : Z :=
  let e := Z.log2 (Z.abs (Qnum q)) - Z.log2 (Zpos (Qden q)) in
  if Qle_bool (2 ^ e) (Qabs q) then e else e - 1.

(* rounding to the nearest integer, to the even one from half way *)
Definition round_half_even (x : Q) : Z :=
  let f := Qfloor x in
  match (x - inject_Z f ?= 1 # 2)%Q with
  | Lt => f
  | Gt => f + 1
  | Eq => if Z.even f then f else f + 1
  end.

(* The exponent of the unit in the last place at [q], for a format with
   [prec] bits of precision and exponents below [emax]: the values near [q]
   are the multiples of [2 ^ ulp_exponent].  Below the smallest normal number
   the unit stays that of the subnormal numbers. *)
Definition ulp_exponent (prec emax : Z) (q : Q) : Z :=
  Z.max (Qlog2 q + 1 - prec) (3 - emax - prec).

(* the value of the format nearest to [a], for [a] above 0 *)
Definition round_magnitude (prec emax : Z) (a : Q) : Q :=
  let u := ulp_exponent prec emax a in
  Qred (inject_Z (round_half_even (a / 2 ^ u)) * 2 ^ u).

(* round to nearest, ties to even; a result of magnitude [2 ^ emax] or more
   is an infinity *)
Definition round (prec emax : Z) (q : Q) : float :=
  match (q ?= 0)%Q with
  | Eq => Fin 0
  | Gt =>
      let v := round_magnitude prec emax q in
      if Qle_bool (2 ^ emax) v then PInf else Fin v
  | Lt =>
      let v := round_magnitude prec emax (- q) in
      if Qle_bool (2 ^ emax) v then NInf else Fin (- v)
  end.

End Binary.

(** ** Number formats *)

(* how the exact result of an operation on [float] is rounded, and how a
   literal of type [double] is *)
Class format : Type := {
  round : Q -> float;
  round_double : Q -> float
}.

(* IEEE 754 single precision for [float], double precision for [double] *)
Definition binary32 : format :=
  {| round := Binary.round 24 128;
     round_double := Binary.round 53 1024 |}.

(* no rounding: the arithmetic of the rationals *)
Definition exact_format : format :=
  {| round := Fin;
     round_double := Fin |}.

Module Float.

Section Arithmetic.

Context {fmt : format}.

Definition zero : float := Fin 0%Q.
Definition one : float := Fin 1%Q.

Definition Qsign_neg (q : Q) : bool := (Qnum q <? 0)%Z.
Definition Qis_zero (q : Q) : bool := (Qnum q =? 0)%Z.

Definition inf (negative : bool) : float := if negative then NInf else PInf.

Definition neg (a : float) : float :=
  match a with
  | Fin q => Fin (- q)%Q
  | PInf => NInf
  | NInf => PInf
  | NaN => NaN
  end.

Definition add (a b : float) : float :=
  match a, b with
  | Fin p, Fin q => round (p + q)%Q
  | Fin _, PInf | PInf, Fin _ | PInf, PInf => PInf
  | Fin _, NInf | NInf, Fin _ | NInf, NInf => NInf
  | _, _ => NaN
  end.

Definition sub (a b : float) : float :=
  match a, b with
  | Fin p, Fin q => round (p - q)%Q
  | _, _ => add a (neg b)
  end.

(* the sign of an infinite product: infinity times a finite value *)
Definition inf_times (negative : bool) (q : Q) : float :=
  if Qis_zero q then NaN else inf (xorb negative (Qsign_neg q)).

Definition mul (a b : float) : float :=
  match a, b with
  | Fin p, Fin q => round (p * q)%Q
  | PInf, Fin q | Fin q, PInf => inf_times false q
  | NInf, Fin q | Fin q, NInf => inf_times true q
  | PInf, PInf | NInf, NInf => PInf
  | PInf, NInf | NInf, PInf => NInf
  | _, _ => NaN
  end.

Definition div (a b : float) : float :=
  match a, b with
  | Fin p, Fin q =>
      if Qis_zero q
      then (if Qis_zero p then NaN else inf (Qsign_neg p))
      else round (p / q)%Q
  | Fin _, PInf | Fin _, NInf => zero
  | PInf, Fin q => inf (Qsign_neg q)
  | NInf, Fin q => inf (negb (Qsign_neg q))
  | _, _ => NaN
  end.

(* std::abs *)
Definition abs (a : float) : float :=
  match a with
  | Fin q => Fin (Qabs q)
  | PInf | NInf => PInf
  | NaN => NaN
  end.

(* operator< : false as soon as one side is not a number *)
Definition ltb (a b : float) : bool :=
  match a, b with
  | Fin p, Fin q => negb (Qle_bool q p)
  | Fin _, PInf | NInf, Fin _ | NInf, PInf => true
  | _, _ => false
  end.

(* std::floor *)
Definition floor (a : float) : float :=
  match a with
  | Fin q => Fin (inject_Z (Qfloor q))
  | _ => a
  end.

(* static_cast<float>(int) *)
Definition of_int (z : Z) : float := round (inject_Z z).

Definition int_min : Z := - 2 ^ 31.
Definition int_max : Z := 2 ^ 31 - 1.

(* truncation toward zero *)
Definition Qtrunc (q : Q) : Z := Z.quot (Qnum q) (Zpos (Qden q)).

(* static_cast<int>(float) *)
Definition to_int (a : float) : option Z :=
  match a with
  | Fin q =>
      let z := Qtrunc q in
      if (int_min <=? z) && (z <=? int_max) then Some z else None
  | _ => None
  end.

End Arithmetic.

End Float.

Declare Scope float_scope.
Delimit Scope float_scope with f.
Bind Scope float_scope with float.
Infix "+" := Float.add : float_scope.
Infix "-" := Float.sub : float_scope.
Infix "*" := Float.mul : float_scope.
Infix "/" := Float.div : float_scope.
Infix "<?" := Float.ltb : float_scope.
Notation "- x" := (Float.neg x) : float_scope.

(** ** math.hpp *)

Record vec2 (T : Type) : Type := mk_vec2 { vx : T; vy : T }.
Arguments mk_vec2 {T} _ _.
Arguments vx {T} _.
Arguments vy {T} _.

Definition vec2i := vec2 Z.
Definition vec2f := vec2 float.

Section Vectors.

Context {fmt : format}.

Definition vadd (v0 v1 : vec2f) : vec2f :=
  mk_vec2 (vx v0 + vx v1)%f (vy v0 + vy v1)%f.
Definition vsub (v0 v1 : vec2f) : vec2f :=
  mk_vec2 (vx v0 - vx v1)%f (vy v0 - vy v1)%f.
Definition vscale (v : vec2f) (x : float) : vec2f :=
  mk_vec2 (vx v * x)%f (vy v * x)%f.

End Vectors.

Definition to_vec2i (v : vec2f) : option vec2i :=
  x <- Float.to_int (vx v) ;;
  y <- Float.to_int (vy v) ;;
  Some (mk_vec2 x y).

(** ** main.cpp: the maze *)

Definition maze_height : Z := 20.

Definition maze : list string := [
  "+++++++++++++++++++++";
  "+                   +";
  "+              ++++ +";
  "+      +++++     ++ +";
  "+      +++++     +  +";
  "+      +++++   +++ ++";
  "+      +++++   +    +";
  "+      +++++   + ++++";
  "+              + ++++";
  "+                   +";
  "+                   +";
  "+++++ ++++++ ++++++ +";
  "+++++ ++++++ ++++++ +";
  "+                   +";
  "+               +   +";
  "+     +             +";
  "+  +           +    +";
  "+      +   +        +";
  "+                +  +";
  "+++++++++++++++++++++"
]%string.

(* [row[i]] for a row that is a C string literal: the characters, then the
   terminating NUL; anything else is out of bounds *)
Definition wchar_at (row : string) (i : Z) : option ascii :=
  if i <? 0 then None
  else match String.get (Z.to_nat i) row with
       | Some c => Some c
       | None => if i =? Z.of_nat (String.length row) then Some Ascii.zero else None
       end.

Section Caster.

Context {fmt : format}.

(* the array the wall test reads; [maze] in the program *)
Variable grid : list string.

(* [grid[y]] of a std::array *)
Definition row_at (y : Z) : option string :=
  if y <? 0 then None else nth_error grid (Z.to_nat y).

Definition is_wall_i (pos : vec2i) : option bool :=
  row <- row_at (vy pos) ;;
  c <- wchar_at row (vx pos) ;;
  Some (Ascii.eqb c "+"%char).

Definition is_wall (pos : vec2f) : option bool :=
  p <- to_vec2i pos ;;
  is_wall_i p.

(** *** The DDA ray caster *)

Record dda_coord : Type := mk_dda { on_grid : Z; distance : float }.

(* operator+= *)
Definition dda_add (a other : dda_coord) : dda_coord :=
  {| on_grid := on_grid a + on_grid other;
     distance := (distance a + distance other)%f |}.

(* The while loop of [cast_ray]; [fuel] bounds the number of tests of the loop
   condition, and [None] is returned when it runs out or when the wall test
   reads out of bounds. *)
Fixpoint cast_ray_loop (fuel : nat) (is_x_step : bool) (x y x_step y_step : dda_coord)
  : option (bool * float) :=
  match fuel with
  | O => None
  | S fuel' =>
      hit <- is_wall_i (mk_vec2 (on_grid x) (on_grid y)) ;;
      if hit : bool
      then Some (is_x_step, Float.of_int (if is_x_step then on_grid x else on_grid y))
      else
        let is_x_step := (distance x <? distance y)%f in
        if is_x_step
        then cast_ray_loop fuel' is_x_step (dda_add x x_step) y x_step y_step
        else cast_ray_loop fuel' is_x_step x (dda_add y y_step) x_step y_step
  end.

Definition cast_ray (fuel : nat) (x y x_step y_step : dda_coord) : option (bool * float) :=
  cast_ray_loop fuel false x y x_step y_step.

(* returns (start, step) *)
Definition initialize_dda_direction (pos dir : float) : option (dda_coord * dda_coord) :=
  grid_pos <- Float.to_int pos ;;
  let step := {| on_grid := if (dir <? Float.zero)%f then -1 else 1;
                 distance := Float.abs (Float.one / dir)%f |} in
  let aligned_edge_offset :=
    if (dir <? Float.zero)%f
    then (pos - Float.of_int grid_pos)%f
    else (Float.of_int grid_pos + Float.one - pos)%f in
  let start := {| on_grid := grid_pos;
                  distance := (distance step * aligned_edge_offset)%f |} in
  Some (start, step).

Record wall_hit : Type := mk_hit { hit_distance : float; tx : float }.

Definition compute_wall_hit (fuel : nat) (pos dir : vec2f) : option wall_hit :=
  '(x_start, x_step) <- initialize_dda_direction (vx pos) (vx dir) ;;
  '(y_start, y_step) <- initialize_dda_direction (vy pos) (vy dir) ;;
  '(is_x, hit_pos) <- cast_ray fuel x_start y_start x_step y_step ;;
  let dist :=
    if is_x : bool
    then ((hit_pos - vx pos + Float.of_int (Z.shiftr (1 - on_grid x_step) 1)) / vx dir)%f
    else ((hit_pos - vy pos + Float.of_int (Z.shiftr (1 - on_grid y_step) 1)) / vy dir)%f in
  let t := if is_x then (vy pos + dist * vy dir)%f else (vx pos + dist * vx dir)%f in
  Some {| hit_distance := dist; tx := (t - Float.floor t)%f |}.

End Caster.

(** ** The column renderer *)

(* one call of [term.print_char(x, y, c, is_reversed)] *)
Record cell_write : Type :=
  mk_write { w_col : Z; w_row : Z; w_glyph : string; w_inverted : bool }.

(* the table of [fractional_block]: a space, then U+2581 to U+2587 *)
Definition chars : list string :=
  [" "; "▁"; "▂"; "▃"; "▄"; "▅"; "▆"; "▇"]%string.

Section Renderer.

Context {fmt : format}.

(* the literal [1e-6f] *)
Definition block_epsilon : float := round (1 # 1000000).

(* the index [fractional_block] reads its table at *)
Definition fractional_index (x : float) : option Z :=
  Float.to_int (x * (Float.of_int (Z.of_nat (List.length chars)) - block_epsilon))%f.

(* [chars[index]]; [None] when the index is outside the table *)
Definition fractional_block (x : float) : option string :=
  index <- fractional_index x ;;
  if index <? 0 then None else nth_error chars (Z.to_nat index).

(* the integers from [lo] up to [hi], [hi] excluded: std::ranges::iota_view *)
Definition iota_view (lo hi : Z) : list Z :=
  List.map (fun i => lo + Z.of_nat i) (List.seq 0 (Z.to_nat (hi - lo))).

(* the lambda [block_between] of [draw_column] *)
Definition block_between (screen_height min max : Z) : list Z :=
  let min := Z.max 0 min in
  let max := Z.min screen_height max in
  iota_view (Z.min min max) max.

(* the lambda [print] of [draw_column], for column [x] *)
Definition print (x : Z) (c : string) (invert : bool) (y : Z) : cell_write :=
  {| w_col := x; w_row := y; w_glyph := c; w_inverted := invert |}.

(* the local constants of [draw_column] that place the wall in the column *)
Record column_layout : Type := mk_layout {
  exact_wall_height : float;
  truncated_wall_height : Z;
  num_whole_chars : Z;
  wall_top : Z;
  wall_bottom : Z;
  wall_start : Z;
  floor_start : Z
}.

Definition layout (screen_height : Z) (hit : wall_hit) (is_blocky : bool)
  : option column_layout :=
  let exact := (Float.of_int screen_height / hit_distance hit)%f in
  truncated <- Float.to_int exact ;;
  let num := truncated - (if is_blocky then 0 else Z.rem truncated 2) in
  let top := Z.quot (screen_height - num) 2 - 1 in
  let bottom := top + num + 2 in
  Some {| exact_wall_height := exact;
          truncated_wall_height := truncated;
          num_whole_chars := num;
          wall_top := top;
          wall_bottom := bottom;
          wall_start := top + (if is_blocky then 0 else 1);
          floor_start := bottom + (if is_blocky then 0 else 1) |}.

Definition edge_glyph : string := "│".
Definition space_glyph : string := " ".
Definition floor_glyph : string := ".".

(* [hit.tx < 0.1f] is a comparison of two [float]; in [hit.tx > 0.9] the
   literal is a [double] and [hit.tx] is compared with it as it is *)
Definition wall_char (hit : wall_hit) : string :=
  if (tx hit <? round (1 # 10))%f || (round_double (9 # 10) <? tx hit)%f
  then edge_glyph else space_glyph.

(* the fraction of a character left over above and below the whole characters *)
Definition cap_fraction (g : column_layout) : float :=
  (Fin (1 # 2) * (exact_wall_height g - Float.of_int (num_whole_chars g)))%f.

(* the ceiling, wall and floor rows, in the order they are printed *)
Definition draw_blocks (x screen_height : Z) (hit : wall_hit) (is_blocky : bool)
  (g : column_layout) : list cell_write :=
  List.map (print x space_glyph false) (block_between screen_height 0 (wall_top g))
  ++ List.map (print x (wall_char hit) true)
       (block_between screen_height (wall_start g) (wall_bottom g))
  ++ List.map (print x floor_glyph false)
       (block_between screen_height (floor_start g) screen_height).

(* the two fractional blocks, printed when the edges are smoothed *)
Definition draw_caps (x : Z) (is_blocky : bool) (g : column_layout)
  : option (list cell_write) :=
  if negb is_blocky && (0 <=? wall_top g)
  then
    let fraction := cap_fraction g in
    top_block <- fractional_block fraction ;;
    bottom_block <- fractional_block (Float.one - fraction)%f ;;
    Some [print x top_block false (wall_top g); print x bottom_block true (wall_bottom g)]
  else Some [].

(* the calls of [term.print_char] that [draw_column] makes, in order *)
Definition draw_column (x screen_height : Z) (hit : wall_hit) (is_blocky : bool)
  : option (list cell_write) :=
  g <- layout screen_height hit is_blocky ;;
  caps <- draw_caps x is_blocky g ;;
  Some (draw_blocks x screen_height hit is_blocky g ++ caps).

End Renderer.

(** ** The player *)

Section Player.

Context {fmt : format}.

Variable grid : list string.

(* [std::cos] and [std::sin] on finite arguments: the value that the library
   computes, rounded to a [float] *)
Variables cosq sinq : Q -> Q.

Definition fcos (a : float) : float :=
  match a with Fin q => round (cosq q) | _ => NaN end.
Definition fsin (a : float) : float :=
  match a with Fin q => round (sinq q) | _ => NaN end.

(* math.hpp *)
Definition rotate (v : vec2f) (radians : float) : vec2f :=
  let c := fcos radians in
  let s := fsin radians in
  mk_vec2 (vx v * c - vy v * s)%f (vx v * s + vy v * c)%f.

Record player : Type := mk_player { pos_ : vec2f; forward_ : vec2f; right_ : vec2f }.

Definition initial_player : player :=
  {| pos_ := mk_vec2 (Fin 5) (Fin 5);
     forward_ := mk_vec2 (Fin 0) (Fin 1);
     right_ := mk_vec2 (round (8 # 10)) (Fin 0) |}.

Definition run_speed : float := Fin (1 # 2).
Definition turn_speed : float := round (1 # 10).

Definition pos (p : player) : vec2f := pos_ p.

Definition line_of_sight (p : player) (normalized_screen_x : float) : vec2f :=
  let increment := (Fin 2 * normalized_screen_x - Float.one)%f in
  vadd (forward_ p) (vscale (right_ p) increment).

Definition move (p : player) (v : vec2f) : option player :=
  let p' := vadd (pos_ p) v in
  w <- is_wall grid p' ;;
  Some (if negb w
        then {| pos_ := p'; forward_ := forward_ p; right_ := right_ p |}
        else p).

Definition walk (factor : float) (p : player) : option player :=
  move p (vscale (vscale (forward_ p) factor) run_speed).

Definition strafe (factor : float) (p : player) : option player :=
  move p (vscale (vscale (right_ p) factor) run_speed).

Definition turn (factor : float) (p : player) : player :=
  {| pos_ := pos_ p;
     forward_ := rotate (forward_ p) (factor * turn_speed)%f;
     right_ := rotate (right_ p) (factor * turn_speed)%f |}.

(* the calls the event loop of [main] makes on the player *)
Inductive call : Type :=
| Walk (factor : float)
| Strafe (factor : float)
| Turn (factor : float).

Definition perform (p : player) (c : call) : option player :=
  match c with
  | Walk f => walk f p
  | Strafe f => strafe f p
  | Turn f => Some (turn f p)
  end.

Fixpoint perform_all (p : player) (cs : list call) : option player :=
  match cs with
  | [] => Some p
  | c :: cs' => p' <- perform p c ;; perform_all p' cs'
  end.

End Player.

(** ** What the claims of the specification are stated with *)

(* the glyphs of [chars] that fill part of a cell *)
Definition partial_block (g : string) : bool :=
  existsb (String.eqb g) (List.tl chars).

(* The wall height of the specification: the projected height truncated,
   "reduced by one if it is odd and smoothing is enabled". *)
Definition spec_whole_chars (projected_height : Q) (smoothing : bool) : Z :=
  let whole := Float.Qtrunc projected_height in
  if smoothing && Z.odd whole then whole - 1 else whole.

(* numeric equality of floats, as [operator==] has it *)
Definition feq (a b : float) : Prop :=
  match a, b with
  | Fin p, Fin q => p == q
  | PInf, PInf | NInf, NInf => True
  | _, _ => False
  end.

Definition veq (v w : vec2f) : Prop := feq (vx v) (vx w) /\ feq (vy v) (vy w).

(* [rotate] of math.hpp over the real numbers, with their cosine and sine *)
Definition rotate_real (v : vec2 R) (radians : R) : vec2 R :=
  let c := cos radians in
  let s := sin radians in
  mk_vec2 (vx v * c - vy v * s)%R (vx v * s + vy v * c)%R.

(* rational functions with the symmetries of cosine and sine and with
   cos^2 + sin^2 = 1: the point of the unit circle at parameter [a] *)
Definition circle_cos (a : Q) : Q := (1 - a * a) / (1 + a * a).
Definition circle_sin (a : Q) : Q := (2 * a) / (1 + a * a).

(* the cells of a map of [width] columns and [height] rows *)
Definition cells (width height : Z) : list vec2i :=
  flat_map (fun y => List.map (fun x => mk_vec2 x y) (iota_view 0 width))
    (iota_view 0 height).

Definition on_border (width height : Z) (c : vec2i) : bool :=
  (vx c =? 0) || (vx c =? width - 1) || (vy c =? 0) || (vy c =? height - 1).

(* a closed map: every cell can be read, and the cells of the border are walls *)
Definition closed_map (grid : list string) (width height : Z) : bool :=
  forallb (fun c => match is_wall_i grid c with
                    | Some wall => implb (on_border width height c) wall
                    | None => false
                    end)
    (cells width height).

(* the length of the rows of [maze] *)
Definition maze_width : Z := 21.

(* a position in the rows and columns inside the border *)
Definition inside (width height : Z) (px py : Q) : Prop :=
  (1 <= px)%Q /\ (px < inject_Z (width - 1))%Q /\
  (1 <= py)%Q /\ (py < inject_Z (height - 1))%Q.

(* a coordinate on a grid line *)
Definition on_grid_line (p : Q) : Prop := inject_Z (Qfloor p) == p.

(* the fractional part *)
Definition frac (p : Q) : Q := p - inject_Z (Qfloor p).

Inductive axis : Type := AxisX | AxisY.

(* the direction of length [s] along an axis *)
Definition along (a : axis) (s : Q) : vec2f :=
  match a with
  | AxisX => mk_vec2 (Fin s) (Fin 0)
  | AxisY => mk_vec2 (Fin 0) (Fin s)
  end.

(* the cell [n] cells further along an axis *)
Definition ahead (a : axis) (c : vec2i) (n : Z) : vec2i :=
  match a with
  | AxisX => mk_vec2 (vx c + n) (vy c)
  | AxisY => mk_vec2 (vx c) (vy c + n)
  end.

(* the coordinate along an axis, and across it *)
Definition coord {T : Type} (a : axis) (v : vec2 T) : T :=
  match a with AxisX => vx v | AxisY => vy v end.
Definition across {T : Type} (a : axis) (v : vec2 T) : T :=
  match a with AxisX => vy v | AxisY => vx v end.

(* what [initialize_dda_direction] computes for a direction [d] that is not 0:
   the way to the edge of the cell ahead, and the sign of the step *)
Definition edge_offset (p d : Q) (g : Z) : Q :=
  if Float.Qsign_neg d then p - inject_Z g else inject_Z g + 1 - p.

Definition step_sign (d : Q) : Z := if Float.Qsign_neg d then -1 else 1.

(* An axis of the traversal whose direction component is 0 stays at an
   infinite distance; one whose component is not 0 has finite distances. *)
Definition axis_state (still : bool) (c step : dda_coord) : Prop :=
  if still then distance c = PInf
  else (exists q, distance c = Fin q) /\ (exists q, distance step = Fin q).

(* the cells left to the border of the map in the direction of the steps *)
Definition cells_left (width height sx sy gx gy : Z) : Z :=
  (if sx =? 1 then width - 1 - gx else gx) +
  (if sy =? 1 then height - 1 - gy else gy).

(* The coordinate of the face that a ray along an axis, with direction
   component [s], meets on the cell [k] cells ahead of [c]: the near edge of
   that cell. *)
Definition wall_face (a : axis) (c : vec2i) (s : Q) (k : Z) : Z :=
  coord a (ahead a c (k * step_sign s)) + (if Float.Qsign_neg s then 1 else 0).

(* the rows of a list of writes *)
Definition rows (ws : list cell_write) : list Z := List.map w_row ws.

(** ** The scene, the map and the event loop *)

(* runs [f] on the elements in order and joins what it prints; undefined as
   soon as one run is *)
Fixpoint for_each {A B : Type} (f : A -> option (list B)) (l : list A)
  : option (list B) :=
  match l with
  | [] => Some []
  | a :: l' =>
      ws <- f a ;;
      ws' <- for_each f l' ;;
      Some (ws ++ ws')
  end.

(* one call of [term.print(x, y, s)] *)
Record text_write : Type := mk_text { t_col : Z; t_row : Z; t_text : string }.

(* the loop of [draw_map]: [for (auto i = maze_height; line : maze) print(0, --i, line)] *)
Fixpoint print_lines (i : Z) (lines : list string) : list text_write :=
  match lines with
  | [] => []
  | line :: rest =>
      {| t_col := 0; t_row := i - 1; t_text := line |} :: print_lines (i - 1) rest
  end.

(* std::numbers::pi_v<float>, the float 0x40490FDB *)
Definition pi : float := Fin (13176795 # 4194304).

Definition dir_chars : list string :=
  ["◀"; "◣"; "▼"; "◢"; "▶"; "◥"; "▲"; "◤"]%string.

Definition escape_key : Z := 27.

(* the code of a character, as [getch] returns it *)
Definition key_of (c : ascii) : Z := Z.of_nat (nat_of_ascii c).

Section Scene.

Context {fmt : format}.

Variable grid : list string.
Variables cosq sinq : Q -> Q.

(* [std::atan2] *)
Variable atan2f : float -> float -> float.

(* the body of the loop of [draw_scene], for the column [i] *)
Definition scene_column (fuel : nat) (screen_width screen_height : Z) (plyr : player)
  (is_blocky : bool) (i : Z) : option (list cell_write) :=
  let ray_dir :=
    line_of_sight plyr (Float.of_int i / Float.of_int (screen_width - 1))%f in
  hit <- compute_wall_hit grid fuel (pos plyr) ray_dir ;;
  draw_column i screen_height hit is_blocky.

Definition draw_scene (fuel : nat) (screen_width screen_height : Z) (plyr : player)
  (is_blocky : bool) : option (list cell_write) :=
  for_each (scene_column fuel screen_width screen_height plyr is_blocky)
    (iota_view 0 screen_width).

(* math.hpp *)
Definition to_radians (dir : vec2f) : float := (pi + atan2f (vy dir) (vx dir))%f.

(* the index of the arrow that [draw_map] prints for the player *)
Definition dir_index (plyr : player) : option Z :=
  let dir :=
    (pi / Fin 16 + to_radians (line_of_sight plyr (Fin (1 # 2))) / (pi * Fin 2))%f in
  whole <- Float.to_int (dir * Fin 8)%f ;;
  Some (Z.rem (7 + whole) 8).

(* the lines of the map, then the arrow of the player *)
Definition draw_map (plyr : player) : option (list text_write * cell_write) :=
  let lines := print_lines maze_height grid in
  c <- to_vec2i (pos plyr) ;;
  index <- dir_index plyr ;;
  arrow <- (if index <? 0 then None else nth_error dir_chars (Z.to_nat index)) ;;
  Some (lines, print (vx c) arrow false (maze_height - vy c - 1)).

(* what [render] prints: the scene, then the map when it is shown *)
Definition render (fuel : nat) (screen_width screen_height : Z) (plyr : player)
  (is_blocky is_draw_map : bool)
  : option (list cell_write * option (list text_write * cell_write)) :=
  scene <- draw_scene fuel screen_width screen_height plyr is_blocky ;;
  if is_draw_map
  then (map <- draw_map plyr ;; Some (scene, Some map))
  else Some (scene, None).

(* the variables of [main] that the events change *)
Record game : Type :=
  mk_game { plyr : player; is_blocky : bool; is_map_visible : bool }.

Inductive outcome : Type :=
| Running (g : game)
| Exited.

Definition with_player (g : game) (p : option player) : option outcome :=
  p' <- p ;;
  Some (Running {| plyr := p'; is_blocky := is_blocky g;
                   is_map_visible := is_map_visible g |}).

(* the table [events] of [main] *)
Definition events : list (Z * (game -> option outcome)) :=
  [ (key_of "a", fun g => with_player g (Some (turn cosq sinq (Fin 1) (plyr g))));
    (key_of "d", fun g => with_player g (Some (turn cosq sinq (Fin (-1)) (plyr g))));
    (key_of "w", fun g => with_player g (walk grid (Fin 1) (plyr g)));
    (key_of "s", fun g => with_player g (walk grid (Fin (-1)) (plyr g)));
    (key_of "m", fun g => with_player g (strafe grid (Fin 1) (plyr g)));
    (key_of "n", fun g => with_player g (strafe grid (Fin (-1)) (plyr g)));
    (key_of "h", fun g => Some (Running {| plyr := plyr g;
                                           is_blocky := negb (is_blocky g);
                                           is_map_visible := is_map_visible g |}));
    (key_of "p", fun g => Some (Running {| plyr := plyr g;
                                           is_blocky := is_blocky g;
                                           is_map_visible := negb (is_map_visible g) |}));
    (escape_key, fun _ => Some Exited) ].

(* [std::ranges::find(events, key, &event::first)], then the call of the
   function found, if one is *)
Definition on_key (key : Z) (g : game) : option outcome :=
  match List.find (fun e => fst e =? key) events with
  | Some e => snd e g
  | None => Some (Running g)
  end.

(* the events of the loop of [main], for the keys that [getch] returns *)
Fixpoint on_keys (keys : list Z) (g : game) : option outcome :=
  match keys with
  | [] => Some (Running g)
  | key :: keys' =>
      o <- on_key key g ;;
      match o with
      | Running g' => on_keys keys' g'
      | Exited => Some Exited
      end
  end.

Definition initial_game : game :=
  {| plyr := initial_player; is_blocky := false; is_map_visible := false |}.

End Scene.

(** ** What the further properties are stated with *)

(* the ray parameter at which a ray from [p] with direction component [d]
   crosses the grid line [k + 1] lines ahead: the distance that the traversal
   has accumulated on the axis after [k] steps *)
Definition crossing (p d : Q) (k : Z) : Q :=
  Qabs (1 / d) * (edge_offset p d (Float.Qtrunc p) + inject_Z k).

(* the coordinate of the point of the ray at the parameter [t] *)
Definition ray_at (p d t : Q) : Q := p + t * d.

(* a point of a cell, its edges included *)
Definition in_cell (c : vec2i) (qx qy : Q) : Prop :=
  (inject_Z (vx c) <= qx)%Q /\ (qx <= inject_Z (vx c) + 1)%Q /\
  (inject_Z (vy c) <= qy)%Q /\ (qy <= inject_Z (vy c) + 1)%Q.

(* every point of the ray before the parameter [e] is in an open cell *)
Definition open_before (grid : list string) (px py dx dy e : Q) : Prop :=
  forall t : Q, (0 <= t)%Q -> (t < e)%Q ->
    exists c : vec2i,
      is_wall_i grid c = Some false /\ in_cell c (ray_at px dx t) (ray_at py dy t).

(* the cell of the traversal after [kx] steps in x and [ky] steps in y *)
Definition cell_after (px py dx dy : Q) (kx ky : Z) : vec2i :=
  mk_vec2 (Float.Qtrunc px + kx * step_sign dx) (Float.Qtrunc py + ky * step_sign dy).

(* The state of the loop of [cast_ray] after [kx] and [ky] steps: the ray
   entered the cell at the parameter [e], between the last crossing and the
   next one on both axes, and was in open cells before. *)
Definition follows_ray (grid : list string) (px py dx dy : Q)
  (is_x_step : bool) (x y : dda_coord) (kx ky : Z) (e : Q) : Prop :=
  0 <= kx /\ 0 <= ky /\
  mk_vec2 (on_grid x) (on_grid y) = cell_after px py dx dy kx ky /\
  (exists qx, distance x = Fin qx /\ qx == crossing px dx kx) /\
  (exists qy, distance y = Fin qy /\ qy == crossing py dy ky) /\
  (0 <= e)%Q /\
  (crossing px dx (kx - 1) <= e)%Q /\ (e <= crossing px dx kx)%Q /\
  (crossing py dy (ky - 1) <= e)%Q /\ (e <= crossing py dy ky)%Q /\
  open_before grid px py dx dy e /\
  ((kx = 0 /\ ky = 0) \/
   (is_x_step = true /\ 1 <= kx /\ e == crossing px dx (kx - 1)) \/
   (is_x_step = false /\ 1 <= ky /\ e == crossing py dy (ky - 1))).

Definition dot (ax ay bx by_ : Q) : Q := ax * bx + ay * by_.

(* a player in an open cell inside the map, with a unit forward vector and a
   right vector of length 0.8 across it *)
Definition well_placed (grid : list string) (width height : Z) (p : player) : Prop :=
  exists px py fx fy rx ry : Q,
    pos_ p = mk_vec2 (Fin px) (Fin py) /\
    forward_ p = mk_vec2 (Fin fx) (Fin fy) /\
    right_ p = mk_vec2 (Fin rx) (Fin ry) /\
    inside width height px py /\
    is_wall grid (pos_ p) = Some false /\
    dot fx fy fx fy == 1 /\ dot rx ry rx ry == (16 # 25) /\ dot fx fy rx ry == 0.

(** ** What the properties of the formats are stated with *)

(* the order of the values that are numbers: *)
Definition fle (a b : float) : Prop :=
  match a, b with
  | Fin p, Fin q => (p <= q)%Q
  | NInf, Fin _ | NInf, NInf | NInf, PInf | Fin _, PInf | PInf, PInf => True
  | _, _ => False
  end.

(* What the properties that hold of every format need of its rounding: it
   keeps the order, and it keeps the multiples of one half up to 2 ^ 22, which
   are values of [float] in both formats. *)
Class Rounding (fmt : format) : Prop := {
  round_monotone : forall p q : Q, (p <= q)%Q -> fle (round p) (round q);
  round_half_integer :
    forall z : Z, Z.abs z <= 2 ^ 23 ->
      exists r : Q, round (inject_Z z / 2) = Fin r /\ r == inject_Z z / 2
}.

(* The value of a float of the specification of IEEE 754 in the Standard
   Library ([SpecFloat]), to compare its operations with those of [binary32]. *)
Definition of_spec (x : spec_float) : float :=
  match x with
  | S754_zero _ => Fin 0
  | S754_infinity negative => if negative then NInf else PInf
  | S754_nan => NaN
  | S754_finite negative m e =>
      Fin (Qred (inject_Z (if negative then Zneg m else Zpos m) * 2 ^ e))
  end.

Definition same_float (a b : float) : bool :=
  match a, b with
  | Fin p, Fin q => Qeq_bool p q
  | PInf, PInf | NInf, NInf | NaN, NaN => true
  | _, _ => false
  end.

(* the operations of [SpecFloat] in single precision give the values of
   [binary32] on two operands *)
Definition agrees_with_spec (x y : spec_float) : bool :=
  let fmt := binary32 in
  same_float (of_spec (SFadd 24 128 x y)) (of_spec x + of_spec y)%f &&
  same_float (of_spec (SFsub 24 128 x y)) (of_spec x - of_spec y)%f &&
  same_float (of_spec (SFmul 24 128 x y)) (of_spec x * of_spec y)%f &&
  same_float (of_spec (SFdiv 24 128 x y)) (of_spec x / of_spec y)%f.

(* the floats that the operations of [SpecFloat] are compared on *)
Definition spec_samples : list spec_float :=
  [ S754_zero false;
    S754_finite false 8388608 (-23);      (* 1 *)
    S754_finite false 13421773 (-27);     (* 0.1f *)
    S754_finite true 13421773 (-24);      (* -0.8f *)
    S754_finite false 13421773 (-23);     (* 1.6f *)
    S754_finite false 12582912 (-19);     (* 24 *)
    S754_finite false 16777215 (-23);     (* the float below 2 *)
    S754_finite false 16777215 104;       (* the largest float *)
    S754_finite false 1 (-149);           (* the smallest float above 0 *)
    S754_finite true 3 (-149);
    S754_finite false 8388608 (-149);     (* the smallest normal float *)
    S754_finite false 13176795 (-22);     (* pi *)
    S754_finite true 13631487 (-21);
    S754_infinity false;
    S754_infinity true;
    S754_nan ].

(** ** What the corrected claims and the further properties are stated with *)


(* a player in an open cell inside the map, whose vectors have components
   between -1 and 1 *)
Definition placed (grid : list string) (width height : Z) (p : player) : Prop :=
  exists px py fx fy rx ry : Q,
    pos_ p = mk_vec2 (Fin px) (Fin py) /\
    forward_ p = mk_vec2 (Fin fx) (Fin fy) /\
    right_ p = mk_vec2 (Fin rx) (Fin ry) /\
    inside width height px py /\
    is_wall grid (pos_ p) = Some false /\
    (Qabs fx <= 1)%Q /\ (Qabs fy <= 1)%Q /\ (Qabs rx <= 1)%Q /\ (Qabs ry <= 1)%Q.

(* the keys that turn the player *)
Definition turn_keys : list Z := [key_of "a"; key_of "d"].

(* The cosine and the sine as a library computes them near 0: the sums of
   their series up to the degrees 8 and 9, within 1e-15 of the functions on
   [-0.1, 0.1], the angles of [turn]. *)
Definition cos_series (x : Q) : Q :=
  1 - x ^ 2 / 2 + x ^ 4 / 24 - x ^ 6 / 720 + x ^ 8 / 40320.
Definition sin_series (x : Q) : Q :=
  x - x ^ 3 / 6 + x ^ 5 / 120 - x ^ 7 / 5040 + x ^ 9 / 362880.

(** * Properties *)

(** ** Truncation and comparison of rationals *)

Lemma Qtrunc_nonneg (q : Q) : (0 <= q)%Q -> Float.Qtrunc q = Qfloor q.
Proof.
  destruct q as [n d]; unfold Float.Qtrunc, Qfloor, Qle; simpl; intros H.
  apply Z.quot_div_nonneg; lia.
Qed.

Lemma Qtrunc_nonpos (q : Q) : (q <= 0)%Q -> Float.Qtrunc q = - Qfloor (- q).
Proof.
  intros H.
  rewrite <- (Qtrunc_nonneg (- q)) by lra.
  destruct q as [n d]; unfold Float.Qtrunc; simpl.
  rewrite Z.quot_opp_l by lia. lia.
Qed.

Lemma Qtrunc_comp (p q : Q) : p == q -> Float.Qtrunc p = Float.Qtrunc q.
Proof.
  intros E. destruct (Qlt_le_dec p 0) as [Hn | Hp].
  - rewrite !Qtrunc_nonpos by lra. f_equal. apply Qfloor_comp. lra.
  - rewrite !Qtrunc_nonneg by lra. now apply Qfloor_comp.
Qed.

Lemma Qtrunc_inject_Z (z : Z) : Float.Qtrunc (inject_Z z) = z.
Proof. unfold Float.Qtrunc; simpl. apply Z.quot_1_r. Qed.

(* the truncation of a value that is not negative lies just below it *)
Lemma Qtrunc_bounds (q : Q) :
  (0 <= q)%Q ->
  0 <= Float.Qtrunc q /\
  (inject_Z (Float.Qtrunc q) <= q)%Q /\ (q < inject_Z (Float.Qtrunc q + 1))%Q.
Proof.
  intros H. rewrite Qtrunc_nonneg by assumption. repeat split.
  - change 0 with (Qfloor 0). now apply Qfloor_resp_le.
  - apply Qfloor_le.
  - apply Qlt_floor.
Qed.

Lemma Qtrunc_lt_inject (q : Q) (n : Z) :
  (0 <= q)%Q -> (q < inject_Z n)%Q -> Float.Qtrunc q < n.
Proof.
  intros H0 H. destruct (Qtrunc_bounds q H0) as (_ & Hle & _).
  rewrite Zlt_Qlt. lra.
Qed.

Lemma ltb_Fin (p q : Q) : (Fin p <? Fin q)%f = true <-> (p < q)%Q.
Proof.
  simpl. rewrite negb_true_iff, <- not_true_iff_false, Qle_bool_iff. split.
  - apply Qnot_le_lt.
  - apply Qlt_not_le.
Qed.

Lemma ltb_Fin_false (p q : Q) : (Fin p <? Fin q)%f = false <-> (q <= p)%Q.
Proof.
  simpl. rewrite negb_false_iff. apply Qle_bool_iff.
Qed.

Lemma Qis_zero_true (q : Q) : Float.Qis_zero q = true <-> q == 0.
Proof.
  unfold Float.Qis_zero, Qeq. rewrite Z.eqb_eq. simpl. lia.
Qed.

Lemma Qis_zero_false (q : Q) : Float.Qis_zero q = false <-> ~ q == 0.
Proof.
  rewrite <- Qis_zero_true. destruct (Float.Qis_zero q); intuition congruence.
Qed.

Lemma Qsign_neg_true (q : Q) : Float.Qsign_neg q = true <-> (q < 0)%Q.
Proof.
  unfold Float.Qsign_neg, Qlt. rewrite Z.ltb_lt. simpl. lia.
Qed.

Lemma Qsign_neg_false (q : Q) : Float.Qsign_neg q = false <-> (0 <= q)%Q.
Proof.
  unfold Float.Qsign_neg, Qle. rewrite Z.ltb_ge. simpl. lia.
Qed.

Lemma to_int_Fin (q : Q) :
  Float.int_min <= Float.Qtrunc q <= Float.int_max ->
  Float.to_int (Fin q) = Some (Float.Qtrunc q).
Proof.
  intros [Hl Hu]. unfold Float.to_int.
  apply Z.leb_le in Hl, Hu. now rewrite Hl, Hu.
Qed.

Lemma to_int_Some (a : float) (z : Z) :
  Float.to_int a = Some z -> exists q, a = Fin q /\ Float.Qtrunc q = z.
Proof.
  destruct a as [q | | |]; simpl; try discriminate.
  destruct (_ && _); intros [= <-]. now exists q.
Qed.

Lemma rem_2_odd (t : Z) : 0 <= t -> Z.rem t 2 = if Z.odd t then 1 else 0.
Proof.
  intros H. rewrite Z.rem_mod_nonneg by lia. apply Zmod_odd.
Qed.

Lemma Qtrunc_succ_gt (p : Q) : (p < inject_Z (Float.Qtrunc p + 1))%Q.
Proof.
  destruct (Qlt_le_dec p 0) as [Hn | Hp].
  - rewrite Qtrunc_nonpos by lra.
    pose proof (Qfloor_le (- p)) as F.
    rewrite inject_Z_plus, inject_Z_opp. change (inject_Z 1) with 1%Q. lra.
  - rewrite Qtrunc_nonneg by assumption. apply Qlt_floor.
Qed.

Lemma ltb_zero (d : Q) : (Fin d <? Float.zero)%f = Float.Qsign_neg d.
Proof.
  destruct (Float.Qsign_neg d) eqn:E.
  - apply ltb_Fin. now apply Qsign_neg_true.
  - apply ltb_Fin_false. now apply Qsign_neg_false.
Qed.

Lemma to_vec2i_Some (px py : float) (c : vec2i) :
  to_vec2i (mk_vec2 px py) = Some c ->
  Float.to_int px = Some (vx c) /\ Float.to_int py = Some (vy c).
Proof.
  unfold to_vec2i. cbn [vx vy].
  destruct (Float.to_int px) as [gx |]; [| discriminate].
  destruct (Float.to_int py) as [gy |]; [| discriminate].
  cbn [bind]. intros [= <-]. auto.
Qed.

Lemma face_distance (p s d : Q) (g k : Z) :
  ~ s == 0 ->
  p + d * s == inject_Z (g + k * step_sign s + (if Float.Qsign_neg s then 1 else 0)) ->
  (inject_Z (g + k * step_sign s) - p + inject_Z (Z.shiftr (1 - step_sign s) 1)) / s == d.
Proof.
  intros Hs Hd. unfold step_sign in *.
  rewrite inject_Z_plus in Hd.
  destruct (Float.Qsign_neg s).
  - change (Z.shiftr (1 - -1) 1) with 1.
    setoid_replace (inject_Z (g + k * -1) - p + inject_Z 1)%Q with (d * s)%Q by lra.
    field. assumption.
  - change (Z.shiftr (1 - 1) 1) with 0.
    setoid_replace (inject_Z (g + k * 1) - p + inject_Z 0)%Q with (d * s)%Q by lra.
    field. assumption.
Qed.

(** ** Rounding to a binary format *)

Lemma two_pow_pos (e : Z) : (0 < 2 ^ e)%Q.
Proof. apply Qpower_0_lt. reflexivity. Qed.

Lemma two_pow_le (a b : Z) : a <= b -> (2 ^ a <= 2 ^ b)%Q.
Proof. intros H. apply Qpower_le_compat_l; [assumption | discriminate]. Qed.

Lemma two_pow_lt_inv (a b : Z) : (2 ^ a < 2 ^ b)%Q -> a < b.
Proof. intros H. apply (Qpower_lt_compat_l_inv 2); [assumption | reflexivity]. Qed.

Lemma two_pow_plus (a b : Z) : (2 ^ (a + b) == 2 ^ a * 2 ^ b)%Q.
Proof. apply Qpower_plus. discriminate. Qed.

Lemma two_pow_succ (a : Z) : (2 ^ (a + 1) == 2 * 2 ^ a)%Q.
Proof. rewrite two_pow_plus. change (2 ^ 1)%Q with 2%Q. ring. Qed.

Lemma two_pow_Z (e : Z) : 0 <= e -> (2 ^ e == inject_Z (2 ^ e))%Q.
Proof. intros H. symmetry. exact (Zpower_Qpower 2 e H). Qed.

(* a power of two is a multiple of every smaller one *)
Lemma two_pow_multiple (a b : Z) :
  a <= b -> (2 ^ b == inject_Z (2 ^ (b - a)) * 2 ^ a)%Q.
Proof.
  intros H. rewrite <- two_pow_Z by lia. rewrite <- two_pow_plus.
  replace (b - a + a) with b by lia. reflexivity.
Qed.

(** *** The binade of a rational *)

Lemma Qlog2_spec (q : Q) :
  ~ q == 0 ->
  (2 ^ Binary.Qlog2 q <= Qabs q)%Q /\ (Qabs q < 2 ^ (Binary.Qlog2 q + 1))%Q.
Proof.
  intros Hq. unfold Binary.Qlog2.
  set (n := Z.abs (Qnum q)). set (d := Zpos (Qden q)).
  assert (Hn : 0 < n).
  { unfold n. assert (Qnum q <> 0); [| lia].
    intros E. apply Hq. unfold Qeq. simpl. lia. }
  assert (Hd : 0 < d) by (unfold d; lia).
  destruct (Z.log2_spec n Hn) as (N1 & N2).
  destruct (Z.log2_spec d Hd) as (D1 & D2).
  pose proof (Z.log2_nonneg n) as Ln. pose proof (Z.log2_nonneg d) as Ld.
  set (ln := Z.log2 n) in *. set (ld := Z.log2 d) in *.
  assert (A : Qabs q == inject_Z n / inject_Z d).
  { destruct q as [a b]. unfold n, d. cbn [Qnum Qden].
    rewrite <- Zabs_Qabs. apply Qmake_Qdiv. }
  assert (Dq : (0 < inject_Z d)%Q)
    by (change 0%Q with (inject_Z 0); now rewrite <- Zlt_Qlt).
  assert (N1q : (2 ^ ln <= inject_Z n)%Q)
    by (rewrite two_pow_Z by lia; now rewrite <- Zle_Qle).
  assert (N2q : (inject_Z n < 2 * 2 ^ ln)%Q).
  { rewrite <- two_pow_succ, two_pow_Z by lia. now rewrite <- Zlt_Qlt. }
  assert (D1q : (2 ^ ld <= inject_Z d)%Q)
    by (rewrite two_pow_Z by lia; now rewrite <- Zle_Qle).
  assert (D2q : (inject_Z d < 2 * 2 ^ ld)%Q).
  { rewrite <- two_pow_succ, two_pow_Z by lia. now rewrite <- Zlt_Qlt. }
  assert (E : (2 ^ ln == 2 ^ (ln - ld) * 2 ^ ld)%Q).
  { rewrite <- two_pow_plus. replace (ln - ld + ld) with ln by lia. reflexivity. }
  pose proof (two_pow_pos (ln - ld)) as Pe. pose proof (two_pow_pos ld) as Pd.
  pose proof (two_pow_pos ln) as Pn.
  assert (Up : (inject_Z n / inject_Z d < 2 ^ (ln - ld + 1))%Q).
  { apply Qlt_shift_div_r; [assumption |]. rewrite two_pow_succ.
    set (X := (2 ^ (ln - ld))%Q) in *. set (Y := (2 ^ ld)%Q) in *.
    set (N := inject_Z n) in *. set (D := inject_Z d) in *. set (L := (2 ^ ln)%Q) in *.
    nra. }
  assert (Lo : (2 ^ (ln - ld - 1) <= inject_Z n / inject_Z d)%Q).
  { apply Qle_shift_div_l; [assumption |].
    pose proof (two_pow_succ (ln - ld - 1)) as S.
    replace (ln - ld - 1 + 1) with (ln - ld) in S by lia.
    pose proof (two_pow_pos (ln - ld - 1)) as Pm.
    set (X := (2 ^ (ln - ld))%Q) in *. set (Y := (2 ^ ld)%Q) in *.
    set (N := inject_Z n) in *. set (D := inject_Z d) in *. set (L := (2 ^ ln)%Q) in *.
    set (M := (2 ^ (ln - ld - 1))%Q) in *.
    nra. }
  destruct (Qle_bool (2 ^ (ln - ld)) (Qabs q)) eqn:T.
  - apply Qle_bool_iff in T. split; [exact T |]. rewrite A. exact Up.
  - assert (T' : (Qabs q < 2 ^ (ln - ld))%Q).
    { apply Qnot_le_lt. intros C. apply Qle_bool_iff in C. congruence. }
    replace (ln - ld - 1 + 1) with (ln - ld) by lia.
    split; [rewrite A; exact Lo | exact T'].
Qed.

(* the binade is determined by its bounds *)
Lemma Qlog2_unique (q : Q) (e : Z) :
  (2 ^ e <= Qabs q)%Q -> (Qabs q < 2 ^ (e + 1))%Q -> Binary.Qlog2 q = e.
Proof.
  intros Lo Hi.
  assert (Hq : ~ q == 0).
  { intros E. rewrite E in Lo. pose proof (two_pow_pos e).
    change (Qabs 0) with 0%Q in Lo. lra. }
  destruct (Qlog2_spec q Hq) as (Lo' & Hi').
  assert (Binary.Qlog2 q < e + 1) by (apply two_pow_lt_inv; lra).
  assert (e < Binary.Qlog2 q + 1) by (apply two_pow_lt_inv; lra).
  lia.
Qed.

Lemma Qlog2_comp (p q : Q) : ~ q == 0 -> p == q -> Binary.Qlog2 p = Binary.Qlog2 q.
Proof.
  intros NZ E. destruct (Qlog2_spec q NZ) as (Lo & Hi).
  apply Qlog2_unique; rewrite E; assumption.
Qed.

Lemma Qlog2_monotone (p q : Q) :
  (0 < p)%Q -> (p <= q)%Q -> Binary.Qlog2 p <= Binary.Qlog2 q.
Proof.
  intros Hp Le.
  destruct (Qlog2_spec p ltac:(lra)) as (Lo & _).
  destruct (Qlog2_spec q ltac:(lra)) as (_ & Hi).
  rewrite Qabs_pos in Lo, Hi by lra.
  assert (Binary.Qlog2 p < Binary.Qlog2 q + 1) by (apply two_pow_lt_inv; lra).
  lia.
Qed.

(** *** Rounding to the nearest integer *)

Lemma round_half_even_bounds (x : Q) :
  Qfloor x <= Binary.round_half_even x <= Qfloor x + 1.
Proof.
  unfold Binary.round_half_even.
  destruct (_ ?= _)%Q; [destruct (Z.even _) | |]; lia.
Qed.

Lemma round_half_even_comp (x y : Q) :
  x == y -> Binary.round_half_even x = Binary.round_half_even y.
Proof.
  intros E. unfold Binary.round_half_even. rewrite (Qfloor_comp x y E).
  assert (C : (x - inject_Z (Qfloor y) ?= 1 # 2)%Q = (y - inject_Z (Qfloor y) ?= 1 # 2)%Q)
    by (apply Qcompare_comp; [rewrite E |]; reflexivity).
  now rewrite C.
Qed.

Lemma round_half_even_Z (z : Z) : Binary.round_half_even (inject_Z z) = z.
Proof.
  unfold Binary.round_half_even. rewrite Qfloor_Z.
  assert (C : (inject_Z z - inject_Z z ?= 1 # 2)%Q = Lt).
  { apply Qlt_alt. setoid_replace (inject_Z z - inject_Z z)%Q with 0%Q by ring.
    reflexivity. }
  now rewrite C.
Qed.

Lemma round_half_even_monotone (x y : Q) :
  (x <= y)%Q -> Binary.round_half_even x <= Binary.round_half_even y.
Proof.
  intros Le. pose proof (Qfloor_resp_le x y Le) as F.
  pose proof (round_half_even_bounds x) as Bx.
  pose proof (round_half_even_bounds y) as By.
  destruct (Z.eq_dec (Qfloor x) (Qfloor y)) as [E | N]; [| lia].
  unfold Binary.round_half_even in *. rewrite E in *.
  destruct (Qcompare_spec (x - inject_Z (Qfloor y)) (1 # 2)) as [Cx | Cx | Cx];
    destruct (Qcompare_spec (y - inject_Z (Qfloor y)) (1 # 2)) as [Cy | Cy | Cy];
    first [lia | exfalso; lra | destruct (Z.even _); lia].
Qed.

Lemma round_half_even_nonneg (x : Q) : (0 <= x)%Q -> 0 <= Binary.round_half_even x.
Proof.
  intros H. change 0 with (Binary.round_half_even (inject_Z 0)).
  now apply round_half_even_monotone.
Qed.

(** *** Rounding to a format of [prec] bits *)

Section BinaryRounding.

Variables prec emax : Z.
Hypothesis prec_positive : 0 < prec.

Lemma round_magnitude_value (a : Q) :
  Binary.round_magnitude prec emax a ==
  inject_Z (Binary.round_half_even (a / 2 ^ Binary.ulp_exponent prec emax a))
  * 2 ^ Binary.ulp_exponent prec emax a.
Proof. unfold Binary.round_magnitude. apply Qred_correct. Qed.

Lemma round_magnitude_nonneg (a : Q) :
  (0 <= a)%Q -> (0 <= Binary.round_magnitude prec emax a)%Q.
Proof.
  intros H. rewrite round_magnitude_value.
  pose proof (two_pow_pos (Binary.ulp_exponent prec emax a)) as P.
  apply Qmult_le_0_compat; [| lra].
  change 0%Q with (inject_Z 0). rewrite <- Zle_Qle.
  apply round_half_even_nonneg. apply Qle_shift_div_l; [assumption | lra].
Qed.

Lemma round_magnitude_comp (a b : Q) :
  ~ b == 0 -> a == b ->
  Binary.round_magnitude prec emax a = Binary.round_magnitude prec emax b.
Proof.
  intros N E. unfold Binary.round_magnitude. apply Qred_complete.
  unfold Binary.ulp_exponent. rewrite (Qlog2_comp a b N E).
  set (u := Z.max (Binary.Qlog2 b + 1 - prec) (3 - emax - prec)).
  rewrite (round_half_even_comp (a / 2 ^ u) (b / 2 ^ u)) by (rewrite E; reflexivity).
  reflexivity.
Qed.

(* on the grid of one exponent the rounding keeps the order *)
Lemma round_grid_monotone (u : Z) (a b : Q) :
  (a <= b)%Q ->
  (inject_Z (Binary.round_half_even (a / 2 ^ u)) * 2 ^ u
   <= inject_Z (Binary.round_half_even (b / 2 ^ u)) * 2 ^ u)%Q.
Proof.
  intros Le. pose proof (two_pow_pos u) as P.
  apply Qmult_le_compat_r; [| lra].
  rewrite <- Zle_Qle. apply round_half_even_monotone.
  apply Qle_shift_div_l; [assumption |].
  setoid_replace (a / 2 ^ u * 2 ^ u)%Q with a by (field; lra). exact Le.
Qed.

(* and keeps the multiples of the unit of the grid *)
Lemma round_grid_multiple (u m : Z) :
  (inject_Z (Binary.round_half_even (inject_Z m * 2 ^ u / 2 ^ u)) * 2 ^ u
   == inject_Z m * 2 ^ u)%Q.
Proof.
  pose proof (two_pow_pos u) as P.
  rewrite (round_half_even_comp _ (inject_Z m)) by (field; lra).
  now rewrite round_half_even_Z.
Qed.

Lemma round_magnitude_monotone (a b : Q) :
  (0 < a)%Q -> (a <= b)%Q ->
  (Binary.round_magnitude prec emax a <= Binary.round_magnitude prec emax b)%Q.
Proof.
  intros Ha Le. rewrite !round_magnitude_value.
  pose proof (Qlog2_monotone a b Ha Le) as L.
  destruct (Qlog2_spec a ltac:(lra)) as (La1 & La2).
  destruct (Qlog2_spec b ltac:(lra)) as (Lb1 & Lb2).
  rewrite Qabs_pos in La1, La2, Lb1, Lb2 by lra.
  unfold Binary.ulp_exponent.
  set (la := Binary.Qlog2 a) in *. set (lb := Binary.Qlog2 b) in *.
  set (ua := Z.max (la + 1 - prec) (3 - emax - prec)).
  set (ub := Z.max (lb + 1 - prec) (3 - emax - prec)).
  destruct (Z.eq_dec ua ub) as [E | N].
  - rewrite E. now apply round_grid_monotone.
  - (* another binade: the power of two between the two values is on both grids *)
    assert (Lab : la + 1 <= lb) by lia.
    assert (Lua : ua <= lb) by lia.
    assert (Lub : ub <= lb) by lia.
    apply Qle_trans with (2 ^ lb)%Q.
    + rewrite (two_pow_multiple ua lb Lua).
      rewrite <- (round_grid_multiple ua (2 ^ (lb - ua))).
      apply round_grid_monotone.
      rewrite <- (two_pow_multiple ua lb Lua).
      pose proof (two_pow_le (la + 1) lb Lab). lra.
    + rewrite (two_pow_multiple ub lb Lub) at 1.
      rewrite <- (round_grid_multiple ub (2 ^ (lb - ub))).
      apply round_grid_monotone.
      rewrite <- (two_pow_multiple ub lb Lub). lra.
Qed.

(* a value [m * 2 ^ e] with [m] of at most [prec] bits is kept *)
Lemma round_magnitude_fix (a : Q) (m e : Z) :
  a == inject_Z m * 2 ^ e -> 0 < m < 2 ^ prec -> 3 - emax - prec <= e ->
  Binary.round_magnitude prec emax a == a.
Proof.
  intros E Hm He. rewrite round_magnitude_value.
  pose proof (two_pow_pos e) as Pe.
  assert (Pm : (0 < inject_Z m)%Q)
    by (change 0%Q with (inject_Z 0); rewrite <- Zlt_Qlt; lia).
  assert (Pa : (0 < a)%Q) by (rewrite E; nra).
  destruct (Qlog2_spec a ltac:(lra)) as (L1 & L2).
  rewrite (Qabs_pos a) in L1, L2 by lra.
  set (u := Binary.ulp_exponent prec emax a).
  assert (U : u <= e).
  { unfold u, Binary.ulp_exponent.
    assert (Binary.Qlog2 a < prec + e); [| lia].
    apply two_pow_lt_inv.
    assert (Hm' : (inject_Z m < 2 ^ prec)%Q).
    { rewrite two_pow_Z by lia. rewrite <- Zlt_Qlt. lia. }
    rewrite two_pow_plus.
    apply Qle_lt_trans with a; [exact L1 |].
    rewrite E. apply Qmult_lt_compat_r; assumption. }
  assert (M : a == inject_Z (m * 2 ^ (e - u)) * 2 ^ u).
  { rewrite E, inject_Z_mult, (two_pow_multiple u e U). ring. }
  rewrite (round_half_even_comp (a / 2 ^ u) (inject_Z (m * 2 ^ (e - u)) * 2 ^ u / 2 ^ u))
    by (rewrite M at 1; reflexivity).
  rewrite round_grid_multiple. symmetry. exact M.
Qed.

(* the three cases of the rounding *)
Lemma round_positive (q : Q) :
  (0 < q)%Q ->
  Binary.round prec emax q =
  if Qle_bool (2 ^ emax) (Binary.round_magnitude prec emax q) then PInf
  else Fin (Binary.round_magnitude prec emax q).
Proof.
  intros H. unfold Binary.round.
  assert (C : (q ?= 0)%Q = Gt) by now apply Qgt_alt.
  now rewrite C.
Qed.

Lemma round_negative (q : Q) :
  (q < 0)%Q ->
  Binary.round prec emax q =
  if Qle_bool (2 ^ emax) (Binary.round_magnitude prec emax (- q)) then NInf
  else Fin (- Binary.round_magnitude prec emax (- q)).
Proof.
  intros H. unfold Binary.round.
  assert (C : (q ?= 0)%Q = Lt) by now apply Qlt_alt.
  now rewrite C.
Qed.

Lemma round_null (q : Q) : q == 0 -> Binary.round prec emax q = Fin 0.
Proof.
  intros H. unfold Binary.round.
  assert (C : (q ?= 0)%Q = Eq) by now apply Qeq_alt.
  now rewrite C.
Qed.

(* the rounding keeps the order *)
Lemma binary_round_monotone (p q : Q) :
  (p <= q)%Q -> fle (Binary.round prec emax p) (Binary.round prec emax q).
Proof.
  intros Le.
  destruct (Qlt_le_dec 0 p) as [Pp | Np].
  - (* both above 0 *)
    rewrite (round_positive p Pp), (round_positive q) by lra.
    pose proof (round_magnitude_monotone p q Pp Le) as M.
    destruct (Qle_bool _ (Binary.round_magnitude prec emax p)) eqn:Op;
      destruct (Qle_bool _ (Binary.round_magnitude prec emax q)) eqn:Oq;
      cbn [fle]; auto.
    apply Qle_bool_iff in Op.
    assert (C : Qle_bool (2 ^ emax) (Binary.round_magnitude prec emax q) = true)
      by (apply Qle_bool_iff; lra).
    congruence.
  - destruct (Qlt_le_dec q 0) as [Nq | Pq].
    + (* both below 0 *)
      rewrite (round_negative p), (round_negative q Nq) by lra.
      pose proof (round_magnitude_monotone (- q) (- p) ltac:(lra) ltac:(lra)) as M.
      destruct (Qle_bool _ (Binary.round_magnitude prec emax (- p))) eqn:Op;
        destruct (Qle_bool _ (Binary.round_magnitude prec emax (- q))) eqn:Oq;
        cbn [fle]; auto.
      * apply Qle_bool_iff in Oq.
        assert (C : Qle_bool (2 ^ emax) (Binary.round_magnitude prec emax (- p)) = true)
          by (apply Qle_bool_iff; lra).
        congruence.
      * lra.
    + (* 0 between the two *)
      assert (Rp : fle (Binary.round prec emax p) (Fin 0)).
      { destruct (Qeq_dec p 0) as [Zp | Zp].
        - rewrite (round_null p Zp). cbn [fle]. lra.
        - rewrite (round_negative p) by lra.
          pose proof (round_magnitude_nonneg (- p) ltac:(lra)).
          destruct (Qle_bool _ _); cbn [fle]; [exact I | lra]. }
      assert (Rq : fle (Fin 0) (Binary.round prec emax q)).
      { destruct (Qeq_dec q 0) as [Zq | Zq].
        - rewrite (round_null q Zq). cbn [fle]. lra.
        - rewrite (round_positive q) by lra.
          pose proof (round_magnitude_nonneg q ltac:(lra)).
          destruct (Qle_bool _ _); cbn [fle]; [exact I | lra]. }
      destruct (Binary.round prec emax p) as [a | | |],
        (Binary.round prec emax q) as [b | | |];
        cbn [fle] in *; try contradiction; try exact I; lra.
Qed.

(* the values [m * 2 ^ e] of the format are kept *)
Lemma binary_round_fix (q : Q) (m e : Z) :
  q == inject_Z m * 2 ^ e -> Z.abs m < 2 ^ prec -> 3 - emax - prec <= e ->
  (Qabs q < 2 ^ emax)%Q ->
  exists r : Q, Binary.round prec emax q = Fin r /\ r == q.
Proof.
  intros E Hm He Hmax. pose proof (two_pow_pos e) as Pe.
  destruct (Z.lt_trichotomy m 0) as [Neg | [Zero | Pos]].
  - assert (Nm : (inject_Z m < 0)%Q)
      by (change 0%Q with (inject_Z 0); rewrite <- Zlt_Qlt; lia).
    assert (Nq : (q < 0)%Q) by (rewrite E; nra).
    rewrite (round_negative q Nq).
    assert (F : Binary.round_magnitude prec emax (- q) == - q).
    { apply (round_magnitude_fix (- q) (- m) e); [| lia | assumption].
      rewrite E, inject_Z_opp. ring. }
    rewrite (Qabs_neg q) in Hmax by lra.
    assert (O : Qle_bool (2 ^ emax) (Binary.round_magnitude prec emax (- q)) = false).
    { apply not_true_is_false. intros T. apply Qle_bool_iff in T. lra. }
    rewrite O. eexists. split; [reflexivity |]. rewrite F. ring.
  - subst m. assert (Zq : q == 0) by (rewrite E; ring).
    rewrite (round_null q Zq). exists 0%Q. split; [reflexivity | now symmetry].
  - assert (Pm : (0 < inject_Z m)%Q)
      by (change 0%Q with (inject_Z 0); rewrite <- Zlt_Qlt; lia).
    assert (Pq : (0 < q)%Q) by (rewrite E; nra).
    rewrite (round_positive q Pq).
    assert (F : Binary.round_magnitude prec emax q == q).
    { apply (round_magnitude_fix q m e); [assumption | lia | assumption]. }
    rewrite (Qabs_pos q) in Hmax by lra.
    assert (O : Qle_bool (2 ^ emax) (Binary.round_magnitude prec emax q) = false).
    { apply not_true_is_false. intros T. apply Qle_bool_iff in T. lra. }
    rewrite O. eexists. split; [reflexivity | exact F].
Qed.

End BinaryRounding.

(** *** The two formats *)

Lemma exact_rounding : Rounding exact_format.
Proof.
  split.
  - intros p q Le. exact Le.
  - intros z _. eexists. split; reflexivity.
Qed.

Lemma binary32_rounding : Rounding binary32.
Proof.
  split.
  - intros p q Le. apply binary_round_monotone; [lia | exact Le].
  - intros z Hz. apply (binary_round_fix 24 128 ltac:(lia) _ z (-1)).
    + change (2 ^ (-1))%Q with (1 # 2). field.
    + change (2 ^ 24) with 16777216. change (2 ^ 23) with 8388608 in Hz. lia.
    + lia.
    + apply Qabs_Qlt_condition.
      assert (B : (- inject_Z (2 ^ 23) <= inject_Z z)%Q /\ (inject_Z z <= inject_Z (2 ^ 23))%Q).
      { rewrite <- inject_Z_opp, <- !Zle_Qle. lia. }
      assert (P : (inject_Z (2 ^ 23) < 2 ^ 128)%Q) by reflexivity.
      destruct B. split.
      * apply Qlt_shift_div_l; lra.
      * apply Qlt_shift_div_r; lra.
Qed.

(** ** Closed maps *)

Lemma iota_view_In (lo hi r : Z) : lo <= r < hi -> In r (iota_view lo hi).
Proof.
  intros H. unfold iota_view. apply in_map_iff.
  exists (Z.to_nat (r - lo)). split; [lia |]. apply in_seq. lia.
Qed.

Lemma cells_In (width height x y : Z) :
  0 <= x < width -> 0 <= y < height -> In (mk_vec2 x y) (cells width height).
Proof.
  intros Hx Hy. unfold cells. apply in_flat_map.
  exists y. split; [now apply iota_view_In |].
  apply in_map_iff. exists x. split; [reflexivity | now apply iota_view_In].
Qed.

(* in a closed map a cell is a wall, or it is open and off the border *)
Lemma closed_map_cell (grid : list string) (width height x y : Z) :
  closed_map grid width height = true ->
  0 <= x < width -> 0 <= y < height ->
  is_wall_i grid (mk_vec2 x y) = Some true \/
  (is_wall_i grid (mk_vec2 x y) = Some false /\
   1 <= x <= width - 2 /\ 1 <= y <= height - 2).
Proof.
  intros C Hx Hy. unfold closed_map in C. rewrite forallb_forall in C.
  specialize (C _ (cells_In _ _ _ _ Hx Hy)).
  destruct (is_wall_i grid _) as [[|] |]; [now left | | discriminate].
  right. split; [reflexivity |].
  unfold on_border in C. cbn [vx vy] in C.
  destruct (Z.eqb_spec x 0), (Z.eqb_spec x (width - 1)),
    (Z.eqb_spec y 0), (Z.eqb_spec y (height - 1)); try discriminate C.
  lia.
Qed.

Lemma maze_closed : closed_map maze maze_width maze_height = true.
Proof. vm_compute. reflexivity. Qed.

Section CastRayTerminates.

Context {fmt : format}.

Variable grid : list string.
Variables width height : Z.
Hypothesis closed : closed_map grid width height = true.

Variables x_step y_step : dda_coord.
Hypothesis x_unit : on_grid x_step = 1 \/ on_grid x_step = -1.
Hypothesis y_unit : on_grid y_step = 1 \/ on_grid y_step = -1.

(* From a cell of a closed map the loop ends before its steps leave the map:
   each step brings the border one cell nearer. *)
Lemma cast_ray_loop_terminates :
  forall (fuel : nat) (is_x_step : bool) (x y : dda_coord),
    0 <= on_grid x < width -> 0 <= on_grid y < height ->
    cells_left width height (on_grid x_step) (on_grid y_step) (on_grid x) (on_grid y)
      < Z.of_nat fuel ->
    exists r, cast_ray_loop grid fuel is_x_step x y x_step y_step = Some r.
Proof.
  assert (E : forall gx gy,
             cells_left width height (on_grid x_step) (on_grid y_step) gx gy =
             (if on_grid x_step =? 1 then width - 1 - gx else gx) +
             (if on_grid y_step =? 1 then height - 1 - gy else gy))
    by reflexivity.
  induction fuel as [| fuel IH]; intros is_x_step x y Hx Hy Hfuel.
  - exfalso. rewrite E in Hfuel.
    destruct x_unit as [Ex | Ex], y_unit as [Ey | Ey];
      rewrite Ex, Ey in Hfuel; cbn in Hfuel; lia.
  - cbn [cast_ray_loop].
    destruct (closed_map_cell grid width height _ _ closed Hx Hy)
      as [W | (W & Ix & Iy)]; rewrite W; cbn [bind].
    + eexists; reflexivity.
    + destruct (distance x <? distance y)%f.
      * apply IH; cbn [dda_add on_grid].
        -- destruct x_unit; lia.
        -- lia.
        -- rewrite E in *.
           destruct x_unit as [Ex | Ex], y_unit as [Ey | Ey];
             rewrite Ex, Ey in *; cbn in *; lia.
      * apply IH; cbn [dda_add on_grid].
        -- lia.
        -- destruct y_unit; lia.
        -- rewrite E in *.
           destruct x_unit as [Ex | Ex], y_unit as [Ey | Ey];
             rewrite Ex, Ey in *; cbn in *; lia.
Qed.

End CastRayTerminates.

(** *** The cells that the loop has stepped over *)

Section CastRaySteps.

Context {fmt : format}.

Variable grid : list string.
Variables width height : Z.
Hypothesis closed : closed_map grid width height = true.

Variables x_step y_step : dda_coord.
Hypothesis x_unit : on_grid x_step = 1 \/ on_grid x_step = -1.
Hypothesis y_unit : on_grid y_step = 1 \/ on_grid y_step = -1.


End CastRaySteps.

(** *** The cast returns, in every format *)

Section CastReturns.

Context {fmt : format}.

Variable grid : list string.
Variables width height : Z.
Hypothesis closed : closed_map grid width height = true.

Lemma inside_cell (px py : Q) :
  inside width height px py ->
  is_wall grid (mk_vec2 (Fin px) (Fin py)) = Some false ->
  Float.to_int (Fin px) = Some (Float.Qtrunc px) /\
  Float.to_int (Fin py) = Some (Float.Qtrunc py) /\
  1 <= Float.Qtrunc px <= width - 2 /\ 1 <= Float.Qtrunc py <= height - 2 /\
  is_wall_i grid (mk_vec2 (Float.Qtrunc px) (Float.Qtrunc py)) = Some false.
Proof.
  intros (X1 & X2 & Y1 & Y2) W. unfold is_wall, to_vec2i in W. cbn [vx vy] in W.
  destruct (Float.to_int (Fin px)) as [gx |] eqn:Ex; [| discriminate W].
  destruct (Float.to_int (Fin py)) as [gy |] eqn:Ey; [| discriminate W].
  cbn [bind] in W.
  destruct (to_int_Some _ _ Ex) as (qx & [= <-] & <-).
  destruct (to_int_Some _ _ Ey) as (qy & [= <-] & <-).
  assert (Px : (0 <= px)%Q) by lra. assert (Py : (0 <= py)%Q) by lra.
  pose proof (Qtrunc_lt_inject px _ Px X2).
  pose proof (Qtrunc_lt_inject py _ Py Y2).
  assert (1 <= Float.Qtrunc px).
  { rewrite Qtrunc_nonneg by assumption. change 1 with (Qfloor 1).
    now apply Qfloor_resp_le. }
  assert (1 <= Float.Qtrunc py).
  { rewrite Qtrunc_nonneg by assumption. change 1 with (Qfloor 1).
    now apply Qfloor_resp_le. }
  repeat split; try assumption; lia.
Qed.



End CastReturns.

(* the cell of a position inside a map of [width] columns and [height] rows *)
Lemma is_wall_Fin (grid : list string) (width height : Z) :
  width <= Float.int_max -> height <= Float.int_max ->
  forall qx qy : Q,
    (0 <= qx)%Q -> (qx < inject_Z width)%Q ->
    (0 <= qy)%Q -> (qy < inject_Z height)%Q ->
    is_wall grid (mk_vec2 (Fin qx) (Fin qy))
    = is_wall_i grid (mk_vec2 (Float.Qtrunc qx) (Float.Qtrunc qy)).
Proof.
  intros width_int height_int qx qy X0 X1 Y0 Y1.
  destruct (Qtrunc_bounds qx X0) as (Gx & _ & _).
  destruct (Qtrunc_bounds qy Y0) as (Gy & _ & _).
  pose proof (Qtrunc_lt_inject qx width X0 X1) as Lx.
  pose proof (Qtrunc_lt_inject qy height Y0 Y1) as Ly.
  unfold is_wall, to_vec2i. cbn [vx vy].
  rewrite !to_int_Fin by (unfold Float.int_min; lia). reflexivity.
Qed.

(** * What holds in every format

    What follows holds of every format whose rounding keeps the order and the
    multiples of one half ([Rounding]): of [binary32], the arithmetic of the
    program, and of [exact_format]. *)

Section EveryFormat.

Context {fmt : format} {laws : Rounding fmt}.

Lemma fle_between (a b : Q) (x : float) :
  fle (Fin a) x -> fle x (Fin b) -> exists c : Q, x = Fin c /\ (a <= c)%Q /\ (c <= b)%Q.
Proof.
  destruct x as [c | | |]; cbn [fle]; intros A B; try contradiction.
  exists c. auto.
Qed.

(* what is between two multiples of one half is rounded between them *)
Lemma round_between (q : Q) (lo hi : Z) :
  Z.abs lo <= 2 ^ 23 -> Z.abs hi <= 2 ^ 23 ->
  (inject_Z lo / 2 <= q)%Q -> (q <= inject_Z hi / 2)%Q ->
  exists c : Q, round q = Fin c /\ (inject_Z lo / 2 <= c)%Q /\ (c <= inject_Z hi / 2)%Q.
Proof.
  intros Hlo Hhi L H.
  destruct (round_half_integer lo Hlo) as (a & Ra & Ea).
  destruct (round_half_integer hi Hhi) as (b & Rb & Eb).
  pose proof (round_monotone _ _ L) as M1. pose proof (round_monotone _ _ H) as M2.
  rewrite Ra in M1. rewrite Rb in M2.
  destruct (fle_between _ _ _ M1 M2) as (c & C & C1 & C2).
  exists c. split; [exact C |]. lra.
Qed.

(* what is not negative is not rounded below 0 *)
Lemma round_not_negative (q : Q) :
  (0 <= q)%Q -> round q = PInf \/ exists c : Q, round q = Fin c /\ (0 <= c)%Q.
Proof.
  intros H.
  destruct (round_half_integer 0 ltac:(cbn; lia)) as (a & Ra & Ea).
  assert (L : (inject_Z 0 / 2 <= q)%Q)
    by (apply Qle_trans with 0%Q; [discriminate | exact H]).
  pose proof (round_monotone _ _ L) as M. rewrite Ra in M.
  destruct (round q) as [c | | |]; cbn [fle] in M; try contradiction.
  - right. exists c. split; [reflexivity |].
    assert (Z0 : a == 0) by (rewrite Ea; reflexivity). lra.
  - now left.
Qed.

(* a multiple of one half is rounded to itself *)
Lemma round_half (q : Q) (z : Z) :
  Z.abs z <= 2 ^ 23 -> q == inject_Z z / 2 ->
  exists c : Q, round q = Fin c /\ c == q.
Proof.
  intros Hz E.
  destruct (round_between q z z Hz Hz) as (c & C & C1 & C2); [lra | lra |].
  exists c. split; [exact C | lra].
Qed.

(* the conversion of a small integer is exact *)
Lemma of_int_small (z : Z) :
  Z.abs z <= 2 ^ 22 -> exists c : Q, Float.of_int z = Fin c /\ c == inject_Z z.
Proof.
  intros Hz. unfold Float.of_int. apply (round_half _ (2 * z)); [lia |].
  rewrite inject_Z_mult. change (inject_Z 2) with 2%Q. field.
Qed.


(* the conversion of 0 is 0 *)
Lemma of_int_0 : exists c : Q, Float.of_int 0 = Fin c /\ c == 0.
Proof. apply (of_int_small 0). cbn. lia. Qed.

(** ** The sign of the distance of a hit *)


Section CastSign.

Variable grid : list string.
Variables width height : Z.
Hypothesis closed : closed_map grid width height = true.
Hypothesis width_small : width <= 2 ^ 22.
Hypothesis height_small : height <= 2 ^ 22.


End CastSign.

(** ** A ray along a grid axis, from a centre or a grid line *)

Section AlongAxisRounded.

Variable grid : list string.
Variables x_step y_step : dda_coord.

(* the x component of the direction is 0: every step is a step in y *)
Lemma cast_ray_loop_still_x_steps (k : nat) :
  forall (fuel : nat) (x y : dda_coord),
    distance x = PInf ->
    (forall j, 0 <= j < Z.of_nat k ->
       is_wall_i grid (mk_vec2 (on_grid x) (on_grid y + j * on_grid y_step)) = Some false) ->
    is_wall_i grid (mk_vec2 (on_grid x) (on_grid y + Z.of_nat k * on_grid y_step))
    = Some true ->
    (k < fuel)%nat ->
    cast_ray_loop grid fuel false x y x_step y_step =
    Some (false, Float.of_int (on_grid y + Z.of_nat k * on_grid y_step)).
Proof.
  induction k as [| k IH]; intros fuel x y Dx Open Wall Hfuel;
    (destruct fuel as [| fuel]; [lia |]); cbn [cast_ray_loop].
  - rewrite Z.mul_0_l, Z.add_0_r in Wall. rewrite Wall. cbn [bind].
    now rewrite Z.mul_0_l, Z.add_0_r.
  - pose proof (Open 0 ltac:(lia)) as W0.
    rewrite Z.mul_0_l, Z.add_0_r in W0. rewrite W0. cbn [bind].
    rewrite Dx. cbn [Float.ltb].
    rewrite (IH fuel x (dda_add y y_step) Dx); cbn [dda_add on_grid].
    + do 2 f_equal. f_equal. lia.
    + intros j Hj. rewrite <- (Open (j + 1)) by lia. do 2 f_equal. lia.
    + rewrite <- Wall. do 2 f_equal. lia.
    + lia.
Qed.

(* The y component of the direction is 0 and the distances along x are
   multiples of one half: the sums are exact and every step is a step in x. *)
Lemma cast_ray_loop_still_y_steps (k : nat) :
  forall (fuel : nat) (b : bool) (x y : dda_coord) (z : Z),
    distance y = PInf ->
    (exists q, distance x = Fin q /\ q == inject_Z z / 2) ->
    (exists q, distance x_step = Fin q /\ q == 1) ->
    0 <= z -> z + 2 * Z.of_nat k <= 2 ^ 23 ->
    (forall j, 0 <= j < Z.of_nat k ->
       is_wall_i grid (mk_vec2 (on_grid x + j * on_grid x_step) (on_grid y)) = Some false) ->
    is_wall_i grid (mk_vec2 (on_grid x + Z.of_nat k * on_grid x_step) (on_grid y))
    = Some true ->
    (k < fuel)%nat ->
    (k = 0%nat -> b = true) ->
    cast_ray_loop grid fuel b x y x_step y_step =
    Some (true, Float.of_int (on_grid x + Z.of_nat k * on_grid x_step)).
Proof.
  induction k as [| k IH]; intros fuel b x y z Dy (qx & Dx & Ex) (qs & Ds & Es) Z0 Zk
    Open Wall Hfuel Hb; (destruct fuel as [| fuel]; [lia |]); cbn [cast_ray_loop].
  - rewrite Z.mul_0_l, Z.add_0_r in Wall. rewrite Wall. cbn [bind].
    rewrite Z.mul_0_l, Z.add_0_r. now rewrite Hb.
  - pose proof (Open 0 ltac:(lia)) as W0.
    rewrite Z.mul_0_l, Z.add_0_r in W0. rewrite W0. cbn [bind].
    rewrite Dx, Dy. cbn [Float.ltb].
    rewrite (IH fuel true (dda_add x x_step) y (z + 2) Dy); cbn [dda_add on_grid distance].
    + do 2 f_equal. f_equal. lia.
    + rewrite Dx, Ds. cbn [Float.add].
      assert (E : qx + qs == inject_Z (z + 2) / 2).
      { rewrite Ex, Es, inject_Z_plus. change (inject_Z 2) with 2%Q. field. }
      destruct (round_half _ (z + 2) ltac:(lia) E) as (c & Rc & Ec).
      exists c. split; [exact Rc |]. now rewrite Ec.
    + now exists qs.
    + lia.
    + lia.
    + intros j Hj. rewrite <- (Open (j + 1)) by lia. do 2 f_equal. lia.
    + rewrite <- Wall. do 2 f_equal. lia.
    + lia.
    + reflexivity.
Qed.

End AlongAxisRounded.

(* a multiple of one half and its cell *)
Lemma half_integer_cell (z g : Z) :
  0 <= z -> Float.to_int (Fin (inject_Z z / 2)) = Some g -> 2 * g <= z <= 2 * g + 1.
Proof.
  intros Hz Hg. apply to_int_Some in Hg. destruct Hg as (q & [= <-] & Hq).
  assert (P : (0 <= inject_Z z / 2)%Q).
  { apply Qle_shift_div_l; [reflexivity |]. rewrite Qmult_0_l.
    change 0%Q with (inject_Z 0). now rewrite <- Zle_Qle. }
  destruct (Qtrunc_bounds _ P) as (_ & Lo & Hi). rewrite Hq in Lo, Hi.
  assert (E : inject_Z z == inject_Z z / 2 * 2) by field.
  rewrite inject_Z_plus in Hi. change (inject_Z 1) with 1%Q in Hi.
  set (h := (inject_Z z / 2)%Q) in *.
  assert (L2 : (inject_Z (2 * g) <= inject_Z z)%Q).
  { rewrite inject_Z_mult. change (inject_Z 2) with 2%Q. lra. }
  assert (H2 : (inject_Z z < inject_Z (2 * g + 2))%Q).
  { rewrite inject_Z_plus, inject_Z_mult. change (inject_Z 2) with 2%Q. lra. }
  rewrite <- Zle_Qle in L2. rewrite <- Zlt_Qlt in H2. lia.
Qed.

(* start and step of an axis, for a position that is a multiple of one half
   and a direction component 1 or -1: the distances are exact *)
Lemma initialize_dda_direction_unit (z g : Z) (s : Q) :
  0 <= z <= 2 ^ 22 ->
  Float.to_int (Fin (inject_Z z / 2)) = Some g ->
  s == 1 \/ s == - (1) ->
  exists (q0 q1 : Q) (z0 : Z),
    initialize_dda_direction (Fin (inject_Z z / 2)) (Fin s) =
    Some ({| on_grid := g; distance := Fin q0 |},
          {| on_grid := step_sign s; distance := Fin q1 |}) /\
    q1 == 1 /\ q0 == inject_Z z0 / 2 /\ 0 <= z0 <= 2.
Proof.
  intros Hz Hg Hs. pose proof (half_integer_cell z g ltac:(lia) Hg) as Hc.
  unfold initialize_dda_direction. rewrite Hg. cbn [bind].
  rewrite ltb_zero. unfold step_sign.
  assert (Ns : Float.Qis_zero s = false).
  { apply Qis_zero_false. intros E0. destruct Hs as [E | E]; rewrite E in E0; discriminate E0. }
  assert (Cs : (Float.Qsign_neg s = true /\ 1 / s == inject_Z (-2) / 2) \/
               (Float.Qsign_neg s = false /\ 1 / s == inject_Z 2 / 2)).
  { destruct Hs as [E | E].
    - right. split; [apply Qsign_neg_false; rewrite E; discriminate | rewrite E; reflexivity].
    - left. split; [apply Qsign_neg_true; rewrite E; reflexivity | rewrite E; reflexivity]. }
  destruct (of_int_small g ltac:(lia)) as (g' & Rg & Eg).
  destruct Cs as [(S & E1) | (S & E1)]; rewrite S.
  - destruct (round_half (1 / s) (-2) ltac:(cbn; lia) E1) as (c & Rc & Ec).
    assert (D : (Float.one / Fin s)%f = Fin c)
      by (unfold Float.one; cbn [Float.div]; rewrite Ns; exact Rc).
    assert (Ac : Qabs c == 1) by (rewrite Ec, E1; reflexivity).
    rewrite D. cbn [Float.abs distance]. rewrite Rg. cbn [Float.sub].
    assert (Eo' : inject_Z z / 2 - g' == inject_Z (z - 2 * g) / 2).
    { rewrite Eg. unfold Zminus. rewrite inject_Z_plus, inject_Z_opp, inject_Z_mult.
      change (inject_Z 2) with 2%Q. field. }
    destruct (round_half _ (z - 2 * g) ltac:(lia) Eo') as (o & -> & Eo).
    cbn [Float.mul].
    assert (E0' : Qabs c * o == inject_Z (z - 2 * g) / 2).
    { rewrite Ac, Eo, Eo'. ring. }
    destruct (round_half _ (z - 2 * g) ltac:(lia) E0') as (q0 & -> & E0).
    exists q0, (Qabs c), (z - 2 * g). split; [reflexivity |].
    split; [exact Ac |]. split; [| lia]. now rewrite E0.
  - destruct (round_half (1 / s) 2 ltac:(cbn; lia) E1) as (c & Rc & Ec).
    assert (D : (Float.one / Fin s)%f = Fin c)
      by (unfold Float.one; cbn [Float.div]; rewrite Ns; exact Rc).
    assert (Ac : Qabs c == 1) by (rewrite Ec, E1; reflexivity).
    rewrite D. cbn [Float.abs distance]. rewrite Rg. unfold Float.one. cbn [Float.add].
    assert (Ea' : g' + 1 == inject_Z (2 * g + 2) / 2).
    { rewrite Eg, inject_Z_plus, inject_Z_mult. change (inject_Z 2) with 2%Q. field. }
    destruct (round_half _ (2 * g + 2) ltac:(lia) Ea') as (a & -> & Ea).
    cbn [Float.sub].
    assert (Eo' : a - inject_Z z / 2 == inject_Z (2 * g + 2 - z) / 2).
    { rewrite Ea, Ea'. unfold Zminus. rewrite (inject_Z_plus _ (- z)), inject_Z_opp.
      field. }
    destruct (round_half _ (2 * g + 2 - z) ltac:(lia) Eo') as (o & -> & Eo).
    cbn [Float.mul].
    assert (E0' : Qabs c * o == inject_Z (2 * g + 2 - z) / 2).
    { rewrite Ac, Eo, Eo'. ring. }
    destruct (round_half _ (2 * g + 2 - z) ltac:(lia) E0') as (q0 & -> & E0).
    exists q0, (Qabs c), (2 * g + 2 - z). split; [reflexivity |].
    split; [exact Ac |]. split; [| lia]. now rewrite E0.
Qed.

(* start and step of an axis whose direction component is 0 *)
Lemma initialize_dda_direction_still (z g : Z) :
  0 <= z <= 2 ^ 22 ->
  Float.to_int (Fin (inject_Z z / 2)) = Some g ->
  initialize_dda_direction (Fin (inject_Z z / 2)) (Fin 0) =
  Some ({| on_grid := g; distance := PInf |}, {| on_grid := 1; distance := PInf |}).
Proof.
  intros Hz Hg. pose proof (half_integer_cell z g ltac:(lia) Hg) as Hc.
  unfold initialize_dda_direction. rewrite Hg. cbn [bind].
  change (Fin 0 <? Float.zero)%f with false.
  change (Float.abs (Float.one / Fin 0))%f with PInf. cbn [distance].
  destruct (of_int_small g ltac:(lia)) as (g' & -> & Eg).
  unfold Float.one. cbn [Float.add].
  assert (Ea' : g' + 1 == inject_Z (2 * g + 2) / 2).
  { rewrite Eg, inject_Z_plus, inject_Z_mult. change (inject_Z 2) with 2%Q. field. }
  destruct (round_half _ (2 * g + 2) ltac:(lia) Ea') as (a & -> & Ea).
  cbn [Float.sub].
  assert (Eo' : a - inject_Z z / 2 == inject_Z (2 * g + 2 - z) / 2).
  { rewrite Ea, Ea'. unfold Zminus. rewrite (inject_Z_plus _ (- z)), inject_Z_opp.
    field. }
  destruct (round_half _ (2 * g + 2 - z) ltac:(lia) Eo') as (o & -> & Eo).
  assert (Po : (0 < o)%Q).
  { rewrite Eo, Eo'.
    assert (L : (0 < inject_Z (2 * g + 2 - z))%Q)
      by (change 0%Q with (inject_Z 0); rewrite <- Zlt_Qlt; lia).
    apply Qlt_shift_div_l; [reflexivity | lra]. }
  cbn [Float.mul]. unfold Float.inf_times.
  assert (Z0 : Float.Qis_zero o = false) by (apply Qis_zero_false; lra).
  assert (S0 : Float.Qsign_neg o = false) by (apply Qsign_neg_false; lra).
  rewrite Z0, S0. reflexivity.
Qed.

(* the distance and the surface offset of a hit [k] cells ahead along an
   axis, from a position whose coordinates are multiples of one half: the
   operations are exact *)
Lemma axis_hit_exact (zp zo g k : Z) (s d : Q) :
  0 <= zp <= 2 ^ 22 -> 0 <= zo <= 2 ^ 22 ->
  Float.to_int (Fin (inject_Z zp / 2)) = Some g ->
  s == 1 \/ s == - (1) ->
  1 <= k <= 2 ^ 21 ->
  inject_Z zp / 2 + d * s
  == inject_Z (g + k * step_sign s + (if Float.Qsign_neg s then 1 else 0)) ->
  exists dist offset : Q,
    ((Float.of_int (g + k * step_sign s) - Fin (inject_Z zp / 2)
      + Float.of_int (Z.shiftr (1 - step_sign s) 1)) / Fin s)%f = Fin dist /\
    dist == d /\
    (Fin (inject_Z zo / 2) + Fin dist * Fin 0
     - Float.floor (Fin (inject_Z zo / 2) + Fin dist * Fin 0))%f = Fin offset /\
    offset == frac (inject_Z zo / 2).
Proof.
  intros Hp Ho Hg Hs Hk Hd.
  pose proof (half_integer_cell zp g ltac:(lia) Hg) as Hc.
  assert (Ns : ~ s == 0).
  { intros E0. destruct Hs as [E | E]; rewrite E in E0; discriminate E0. }
  pose proof (face_distance _ s d g k Ns Hd) as Fd.
  assert (Us : step_sign s = 1 \/ step_sign s = -1)
    by (unfold step_sign; destruct (Float.Qsign_neg s); auto).
  set (h := g + k * step_sign s) in *.
  set (e := Z.shiftr (1 - step_sign s) 1) in *.
  assert (He : 0 <= e <= 1) by (unfold e; destruct Us as [-> | ->]; cbn; lia).
  assert (Hh : Z.abs h <= 2 ^ 22) by (unfold h; destruct Us as [-> | ->]; lia).
  destruct (of_int_small h Hh) as (h' & -> & Eh).
  destruct (of_int_small e ltac:(lia)) as (e' & -> & Ee).
  cbn [Float.sub].
  assert (Ea' : h' - inject_Z zp / 2 == inject_Z (2 * h - zp) / 2).
  { rewrite Eh. unfold Zminus. rewrite inject_Z_plus, inject_Z_opp, inject_Z_mult.
    change (inject_Z 2) with 2%Q. field. }
  destruct (round_half _ (2 * h - zp) ltac:(lia) Ea') as (a & -> & Ea).
  cbn [Float.add].
  assert (Eb' : a + e' == inject_Z (2 * h - zp + 2 * e) / 2).
  { rewrite Ea, Ea', Ee. rewrite (inject_Z_plus _ (2 * e)), inject_Z_mult.
    change (inject_Z 2) with 2%Q. field. }
  destruct (round_half _ (2 * h - zp + 2 * e) ltac:(lia) Eb') as (b & -> & Eb).
  assert (Zs : Float.Qis_zero s = false) by (now apply Qis_zero_false).
  cbn [Float.div]. rewrite Zs.
  assert (Ec' : exists z : Z, Z.abs z <= 2 ^ 23 /\ b / s == inject_Z z / 2).
  { destruct Hs as [E | E].
    - exists (2 * h - zp + 2 * e). split; [lia |]. rewrite E, Eb, Eb'. field.
    - exists (- (2 * h - zp + 2 * e)). split; [lia |].
      rewrite E, Eb, Eb', inject_Z_opp. field. }
  destruct Ec' as (z & Hz & Ez).
  destruct (round_half _ z Hz Ez) as (dist & Rd & Ed).
  assert (Dd : dist == d).
  { rewrite Ed, <- Fd, Eb, Eb'.
    rewrite (inject_Z_plus _ (2 * e)), inject_Z_mult. unfold Zminus.
    rewrite inject_Z_plus, inject_Z_opp, inject_Z_mult.
    change (inject_Z 2) with 2%Q. field. exact Ns. }
  rewrite Rd.
  assert (T : exists offset : Q,
             (Fin (inject_Z zo / 2) + Fin dist * Fin 0
              - Float.floor (Fin (inject_Z zo / 2) + Fin dist * Fin 0))%f = Fin offset /\
             offset == frac (inject_Z zo / 2));
    [| destruct T as (offset & To & Eo); exists dist, offset; auto].
  cbn [Float.mul].
  assert (Em' : dist * 0 == inject_Z 0 / 2) by (rewrite Qmult_0_r; reflexivity).
  destruct (round_half _ 0 ltac:(cbn; lia) Em') as (m & -> & Em).
  cbn [Float.add].
  assert (Et' : inject_Z zo / 2 + m == inject_Z zo / 2)
    by (rewrite Em, Qmult_0_r; ring).
  destruct (round_half _ zo ltac:(lia) Et') as (t & -> & Et).
  cbn [Float.floor Float.sub].
  assert (Ft : Qfloor t = Qfloor (inject_Z zo / 2))
    by (apply Qfloor_comp; rewrite Et, Et'; reflexivity).
  pose proof (Qfloor_le (inject_Z zo / 2)) as F1.
  pose proof (Qlt_floor (inject_Z zo / 2)) as F2.
  rewrite inject_Z_plus in F2. change (inject_Z 1) with 1%Q in F2.
  set (f := Qfloor (inject_Z zo / 2)) in *.
  assert (Bf : 2 * f <= zo <= 2 * f + 1).
  { assert (E : inject_Z zo == inject_Z zo / 2 * 2) by field.
    set (u := (inject_Z zo / 2)%Q) in *.
    assert (L2 : (inject_Z (2 * f) <= inject_Z zo)%Q).
    { rewrite inject_Z_mult. change (inject_Z 2) with 2%Q. lra. }
    assert (H2 : (inject_Z zo < inject_Z (2 * f + 2))%Q).
    { rewrite inject_Z_plus, inject_Z_mult. change (inject_Z 2) with 2%Q. lra. }
    rewrite <- Zle_Qle in L2. rewrite <- Zlt_Qlt in H2. lia. }
  assert (Eo' : t - inject_Z (Qfloor t) == inject_Z (zo - 2 * f) / 2).
  { rewrite Ft, Et, Et'. unfold Zminus.
    rewrite inject_Z_plus, inject_Z_opp, inject_Z_mult.
    change (inject_Z 2) with 2%Q. field. }
  destruct (round_half _ (zo - 2 * f) ltac:(lia) Eo') as (offset & -> & Eo).
  exists offset. split; [reflexivity |].
  rewrite Eo, Eo'. unfold frac. fold f. unfold Zminus.
  rewrite inject_Z_plus, inject_Z_opp, inject_Z_mult.
  change (inject_Z 2) with 2%Q. field.
Qed.

(** X20.  In every format, so in single precision: a cast from a position
    whose coordinates are multiples of one half, as the centre of a cell is,
    along a grid axis with the unit direction, toward a wall cell [k] cells
    ahead with open cells before it, whose face the ray meets at the distance
    [d]: the hit has the distance [d] and, for surface offset, the fractional
    part of the coordinate of the position across the axis.  No operation of
    the cast rounds. *)
Theorem axis_cast_from_half_integers
  (grid : list string) (a : axis) (zx zy : Z) (s d : Q) (c : vec2i) (k : Z) (fuel : nat) :
  0 <= zx <= 2 ^ 22 -> 0 <= zy <= 2 ^ 22 ->
  to_vec2i (mk_vec2 (Fin (inject_Z zx / 2)) (Fin (inject_Z zy / 2))) = Some c ->
  s == 1 \/ s == - (1) ->
  1 <= k <= 2 ^ 21 ->
  (forall j, 0 <= j < k -> is_wall_i grid (ahead a c (j * step_sign s)) = Some false) ->
  is_wall_i grid (ahead a c (k * step_sign s)) = Some true ->
  coord a (mk_vec2 (inject_Z zx / 2) (inject_Z zy / 2))%Q + d * s
  == inject_Z (wall_face a c s k) ->
  (Z.to_nat k < fuel)%nat ->
  exists dist offset : Q,
    compute_wall_hit grid fuel
      (mk_vec2 (Fin (inject_Z zx / 2)) (Fin (inject_Z zy / 2))) (along a s)
    = Some {| hit_distance := Fin dist; tx := Fin offset |} /\
    dist == d /\
    offset == frac (across a (mk_vec2 (inject_Z zx / 2) (inject_Z zy / 2))%Q).
Proof.
  intros Hzx Hzy Hc Hs Hk Open Wall Hd Hfuel.
  destruct (to_vec2i_Some _ _ _ Hc) as (Ex & Ey). destruct c as [gx gy].
  cbn [vx vy] in Ex, Ey.
  unfold compute_wall_hit, wall_face in *.
  destruct a; cbn [along ahead coord across vx vy] in *.
  - (* along x *)
    destruct (initialize_dda_direction_unit zx gx s Hzx Ex Hs)
      as (q0 & q1 & z0 & -> & E1 & E0 & Hz0).
    rewrite (initialize_dda_direction_still zy gy Hzy Ey). cbn [bind].
    unfold cast_ray.
    rewrite (cast_ray_loop_still_y_steps grid _ _ (Z.to_nat k) fuel false _ _ z0);
      cbn [on_grid distance]; try reflexivity; try assumption; try lia;
      try (rewrite Z2Nat.id by lia; assumption).
    + cbn [bind]. rewrite Z2Nat.id by lia.
      destruct (axis_hit_exact zx zy gx k s d Hzx Hzy Ex Hs Hk Hd)
        as (dist & offset & -> & Dd & -> & Eo).
      exists dist, offset. auto.
    + now exists q0.
    + now exists q1.
  - (* along y *)
    rewrite (initialize_dda_direction_still zx gx Hzx Ex).
    destruct (initialize_dda_direction_unit zy gy s Hzy Ey Hs)
      as (q0 & q1 & z0 & -> & E1 & E0 & Hz0).
    cbn [bind]. unfold cast_ray.
    rewrite (cast_ray_loop_still_x_steps grid _ _ (Z.to_nat k) fuel);
      cbn [on_grid distance]; try reflexivity; try assumption; try lia;
      try (rewrite Z2Nat.id by lia; assumption).
    cbn [bind]. rewrite Z2Nat.id by lia.
    destruct (axis_hit_exact zy zx gy k s d Hzy Hzx Ey Hs Hk Hd)
      as (dist & offset & -> & Dd & -> & Eo).
    exists dist, offset. auto.
Qed.

(** ** The player *)

Section PlayerMoves.

Variable grid : list string.
Variables cosq sinq : Q -> Q.

Lemma move_spec (p : player) (v : vec2f) (b : bool) :
  is_wall grid (vadd (pos_ p) v) = Some b ->
  move grid p v =
  Some (if b then p
        else {| pos_ := vadd (pos_ p) v; forward_ := forward_ p; right_ := right_ p |}).
Proof.
  intros H. unfold move. rewrite H. now destruct b.
Qed.

Lemma move_keeps_out_of_walls (p p' : player) (v : vec2f) :
  is_wall grid (pos_ p) = Some false ->
  move grid p v = Some p' ->
  is_wall grid (pos_ p') = Some false.
Proof.
  intros Hp. unfold move.
  destruct (is_wall grid (vadd (pos_ p) v)) as [[|]|] eqn:E; cbn; intros [= <-];
    [exact Hp | exact E].
Qed.

Lemma perform_keeps_out_of_walls (p p' : player) (c : call) :
  is_wall grid (pos_ p) = Some false ->
  perform grid cosq sinq p c = Some p' ->
  is_wall grid (pos_ p') = Some false.
Proof.
  intros Hp. destruct c as [f | f | f]; cbn.
  - apply move_keeps_out_of_walls, Hp.
  - apply move_keeps_out_of_walls, Hp.
  - intros [= <-]. exact Hp.
Qed.

(** C5.  [walk(factor)] and [strafe(factor)] try the position
    [pos + forward * factor * run_speed] (for [strafe], [right] in the place
    of [forward]): when it is a wall the player is returned as it was, when it
    is not the player is at the candidate, with the directions it had.  In both
    cases a player is returned, and no error. *)
Theorem walk_strafe_reject_walls (p : player) (factor : float) :
  let ahead := vadd (pos_ p) (vscale (vscale (forward_ p) factor) run_speed) in
  let aside := vadd (pos_ p) (vscale (vscale (right_ p) factor) run_speed) in
  (is_wall grid ahead = Some true -> walk grid factor p = Some p) /\
  (is_wall grid ahead = Some false ->
     walk grid factor p =
     Some {| pos_ := ahead; forward_ := forward_ p; right_ := right_ p |}) /\
  (is_wall grid aside = Some true -> strafe grid factor p = Some p) /\
  (is_wall grid aside = Some false ->
     strafe grid factor p =
     Some {| pos_ := aside; forward_ := forward_ p; right_ := right_ p |}).
Proof.
  intros ahead aside. unfold walk, strafe.
  repeat split; intros H; apply (move_spec _ _ _ H).
Qed.

(** C4.  The player starts outside the walls of the maze; a player that is
    not in a wall is not in a wall after any sequence of calls of [walk],
    [strafe] and [turn]; and [turn] leaves the position as it is. *)
Theorem player_stays_out_of_walls :
  is_wall maze (pos_ initial_player) = Some false /\
  (forall (cs : list call) (p p' : player),
      is_wall grid (pos_ p) = Some false ->
      perform_all grid cosq sinq p cs = Some p' ->
      is_wall grid (pos_ p') = Some false) /\
  (forall (factor : float) (p : player), pos_ (turn cosq sinq factor p) = pos_ p).
Proof.
  split; [reflexivity |]. split; [| reflexivity].
  induction cs as [| c cs IH]; intros p p' Hp; cbn.
  - intros [= <-]. exact Hp.
  - destruct (perform grid cosq sinq p c) as [q |] eqn:E; cbn; [| discriminate].
    apply IH. exact (perform_keeps_out_of_walls _ _ _ Hp E).
Qed.

End PlayerMoves.

(** ** The layout of a column *)

(* the projected height of a hit in front of the player is not negative *)
Lemma projected_height_not_negative (H : Z) (d q : Q) :
  0 <= H -> (0 < d)%Q -> (Float.of_int H / Fin d)%f = Fin q -> (0 <= q)%Q.
Proof.
  intros HH Hd E. unfold Float.of_int in E.
  assert (P : (0 <= inject_Z H)%Q)
    by (change 0%Q with (inject_Z 0); now rewrite <- Zle_Qle).
  assert (Zd : Float.Qis_zero d = false) by (apply Qis_zero_false; lra).
  destruct (round_not_negative _ P) as [I | (h & Rh & Ph)]; rewrite ?I, ?Rh in E.
  - cbn [Float.div] in E. destruct (Float.Qsign_neg d); discriminate E.
  - cbn [Float.div] in E. rewrite Zd in E.
    assert (Q0 : (0 <= h / d)%Q)
      by (apply Qle_shift_div_l; [assumption | lra]).
    destruct (round_not_negative _ Q0) as [I | (c & Rc & Pc)]; rewrite ?I, ?Rc in E.
    + discriminate E.
    + injection E as <-. exact Pc.
Qed.

(** C6.  For a display height [H] that is not negative and a hit at a distance
    above 0, [draw_column] works with the projected height
    [static_cast<float>(H) / distance], the quotient of the two floats as the
    format rounds it; when it is a number [q] that an [int] can hold,
    whole_chars is the truncation of [q], less one when it is odd and the
    edges are smoothed, top = (H - whole_chars) / 2 - 1 and
    bottom = top + whole_chars + 2, the division being that of C++
    integers. *)
Theorem draw_column_layout (x H : Z) (d q : Q) (t : float) (is_blocky : bool) :
  0 <= H -> (0 < d)%Q ->
  (Float.of_int H / Fin d)%f = Fin q -> (q < inject_Z (2 ^ 31))%Q ->
  let hit := {| hit_distance := Fin d; tx := t |} in
  exists g : column_layout,
    layout H hit is_blocky = Some g /\
    draw_column x H hit is_blocky =
      (caps <- draw_caps x is_blocky g ;;
       Some (draw_blocks x H hit is_blocky g ++ caps)) /\
    exact_wall_height g = (Float.of_int H / hit_distance hit)%f /\
    num_whole_chars g = spec_whole_chars q (negb is_blocky) /\
    wall_top g = (H - num_whole_chars g) ÷ 2 - 1 /\
    wall_bottom g = wall_top g + num_whole_chars g + 2.
Proof.
  intros HH Hd E Hmax hit.
  pose proof (projected_height_not_negative H d q HH Hd E) as Hp.
  destruct (Qtrunc_bounds _ Hp) as (Ht0 & _ & _).
  pose proof (Qtrunc_lt_inject _ _ Hp Hmax) as Ht1.
  assert (T : Float.to_int (Fin q) = Some (Float.Qtrunc q))
    by (apply to_int_Fin; unfold Float.int_min, Float.int_max; lia).
  assert (L : layout H hit is_blocky =
              Some {| exact_wall_height := Fin q;
                      truncated_wall_height := Float.Qtrunc q;
                      num_whole_chars :=
                        Float.Qtrunc q - (if is_blocky then 0 else Z.rem (Float.Qtrunc q) 2);
                      wall_top :=
                        (H - (Float.Qtrunc q
                              - (if is_blocky then 0 else Z.rem (Float.Qtrunc q) 2))) ÷ 2 - 1;
                      wall_bottom :=
                        (H - (Float.Qtrunc q
                              - (if is_blocky then 0 else Z.rem (Float.Qtrunc q) 2))) ÷ 2 - 1
                        + (Float.Qtrunc q
                           - (if is_blocky then 0 else Z.rem (Float.Qtrunc q) 2)) + 2;
                      wall_start :=
                        (H - (Float.Qtrunc q
                              - (if is_blocky then 0 else Z.rem (Float.Qtrunc q) 2))) ÷ 2 - 1
                        + (if is_blocky then 0 else 1);
                      floor_start :=
                        (H - (Float.Qtrunc q
                              - (if is_blocky then 0 else Z.rem (Float.Qtrunc q) 2))) ÷ 2 - 1
                        + (Float.Qtrunc q
                           - (if is_blocky then 0 else Z.rem (Float.Qtrunc q) 2)) + 2
                        + (if is_blocky then 0 else 1) |}).
  { unfold layout, hit. cbn [hit_distance]. rewrite E, T. reflexivity. }
  eexists. split; [exact L |]. split.
  { unfold draw_column. now rewrite L. }
  cbn [exact_wall_height num_whole_chars wall_top wall_bottom hit hit_distance].
  split; [now rewrite E |].
  repeat split.
  unfold spec_whole_chars. rewrite rem_2_odd by assumption.
  destruct is_blocky; cbn [negb andb].
  - lia.
  - destruct (Z.odd _); lia.
Qed.

(** ** The rows a column is printed at *)

Lemma iota_view_bounds (lo hi r : Z) : In r (iota_view lo hi) -> lo <= r < hi.
Proof.
  unfold iota_view. rewrite in_map_iff. intros (i & <- & Hi).
  apply in_seq in Hi. lia.
Qed.

Lemma block_between_on_display (H lo hi r : Z) :
  In r (block_between H lo hi) -> 0 <= r < H.
Proof.
  unfold block_between. intros Hr. apply iota_view_bounds in Hr. lia.
Qed.

(* the ceiling, wall and floor rows are clamped to the display *)
Lemma draw_blocks_on_display (x H : Z) (hit : wall_hit) (is_blocky : bool)
  (g : column_layout) (w : cell_write) :
  In w (draw_blocks x H hit is_blocky g) -> 0 <= w_row w < H.
Proof.
  unfold draw_blocks. rewrite !in_app_iff, !in_map_iff.
  intros [(r & <- & Hr) | [(r & <- & Hr) | (r & <- & Hr)]];
    apply block_between_on_display in Hr; exact Hr.
Qed.

(* and hold no fractional block *)
Lemma draw_blocks_whole_glyphs (x H : Z) (hit : wall_hit) (is_blocky : bool)
  (g : column_layout) (w : cell_write) :
  In w (draw_blocks x H hit is_blocky g) -> partial_block (w_glyph w) = false.
Proof.
  unfold draw_blocks. rewrite !in_app_iff, !in_map_iff.
  intros [(r & <- & _) | [(r & <- & _) | (r & <- & _)]]; cbn [print w_glyph].
  - reflexivity.
  - unfold wall_char. destruct (_ || _); reflexivity.
  - reflexivity.
Qed.

(** ** Smoothed edges of a wall whose height is an even number of rows *)

(* rounding keeps the equality of rationals, where it gives a number *)
Lemma round_comp (p q a : Q) :
  p == q -> round p = Fin a -> exists b : Q, round q = Fin b /\ b == a.
Proof.
  intros E R.
  pose proof (round_monotone p q ltac:(lra)) as M1.
  pose proof (round_monotone q p ltac:(lra)) as M2.
  rewrite R in M1, M2.
  destruct (fle_between _ _ _ M1 M2) as (b & B & B1 & B2).
  exists b. split; [exact B | lra].
Qed.

(* the block of the fraction 0 is the space of the table, and the block of
   the fraction 1 is the block of the index that the format gives it *)
Lemma fractional_block_ends (f w : Q) (index : Z) :
  fractional_index Float.one = Some index ->
  f == 0 -> w == 1 ->
  fractional_index (Fin f) = Some 0 /\ fractional_index (Fin w) = Some index.
Proof.
  unfold fractional_index. intros I F W.
  destruct (Float.of_int (Z.of_nat (List.length chars)) - block_epsilon)%f
    as [c | | |]; try discriminate I.
  unfold Float.one in I. cbn [Float.mul] in *.
  split.
  - assert (E : f * c == inject_Z 0 / 2) by (rewrite F, Qmult_0_l; reflexivity).
    destruct (round_half _ 0 ltac:(cbn; lia) E) as (v & -> & Ev).
    rewrite (to_int_Fin v); rewrite (Qtrunc_comp v 0) by (rewrite Ev, E; reflexivity);
      [reflexivity | vm_compute; split; discriminate].
  - destruct (round (1 * c)) as [v | | |] eqn:R; try discriminate I.
    assert (E : 1 * c == w * c) by (rewrite W; reflexivity).
    destruct (round_comp _ _ _ E R) as (v' & -> & Ev).
    cbn [Float.to_int] in *. rewrite (Qtrunc_comp v' v Ev). exact I.
Qed.

(** X21.  In every format in which [fractional_block] reads the last entry of
    its table for the fraction 1, so in single precision: with smoothed edges
    and a projected height, the quotient of the floats, that is exactly the
    even integer [2 * m], there are [2 * m] whole characters and the fraction
    is 0; the ceiling, wall and floor rows hold no fractional block; when
    [wall_top] is on the display, the top cap is the space of the table and
    the bottom cap is its last entry, the seven-eighths block U+2587, printed
    inverted. *)
Theorem even_height_caps_rounded (x H m : Z) (d q : Q) (t : float) :
  (Float.of_int H / Fin d)%f = Fin q ->
  q == inject_Z (2 * m) ->
  Z.abs (2 * m) <= 2 ^ 22 ->
  fractional_index Float.one = Some 7 ->
  let hit := {| hit_distance := Fin d; tx := t |} in
  exists (g : column_layout) (f : Q),
    layout H hit false = Some g /\
    num_whole_chars g = 2 * m /\
    cap_fraction g = Fin f /\ f == 0 /\
    (forall w, In w (draw_blocks x H hit false g) -> partial_block (w_glyph w) = false) /\
    draw_column x H hit false =
      Some (draw_blocks x H hit false g ++
            if 0 <=? wall_top g
            then [print x " " false (wall_top g); print x "▇" true (wall_bottom g)]
            else []).
Proof.
  intros Hq He Hm I7 hit. subst hit.
  assert (T : Float.Qtrunc q = 2 * m).
  { rewrite (Qtrunc_comp _ _ He). apply Qtrunc_inject_Z. }
  assert (R : Z.rem (2 * m) 2 = 0) by (rewrite Z.mul_comm; apply Z.rem_mul; lia).
  assert (L : layout H {| hit_distance := Fin d; tx := t |} false =
              Some {| exact_wall_height := Fin q;
                      truncated_wall_height := 2 * m;
                      num_whole_chars := 2 * m;
                      wall_top := (H - 2 * m) ÷ 2 - 1;
                      wall_bottom := (H - 2 * m) ÷ 2 - 1 + 2 * m + 2;
                      wall_start := (H - 2 * m) ÷ 2 - 1 + 1;
                      floor_start := (H - 2 * m) ÷ 2 - 1 + 2 * m + 2 + 1 |}).
  { unfold layout. cbn [hit_distance]. rewrite Hq.
    rewrite to_int_Fin by (rewrite T; unfold Float.int_min, Float.int_max; lia).
    rewrite T. cbn [bind]. rewrite R, Z.sub_0_r. reflexivity. }
  destruct (of_int_small (2 * m) Hm) as (h & Rh & Eh).
  assert (Z0 : inject_Z 0 / 2 == 0) by reflexivity.
  assert (E0 : q - h == inject_Z 0 / 2) by (rewrite Z0, He, Eh; ring).
  destruct (round_half _ 0 ltac:(cbn; lia) E0) as (r & Rr & Er).
  assert (E1 : (1 # 2) * r == inject_Z 0 / 2) by (rewrite Er, E0, Z0; ring).
  destruct (round_half _ 0 ltac:(cbn; lia) E1) as (f & Rf & Ef).
  assert (F0 : f == 0) by (rewrite Ef, E1; exact Z0).
  assert (E2 : 1 - f == inject_Z 2 / 2) by (rewrite F0; reflexivity).
  destruct (round_half _ 2 ltac:(cbn; lia) E2) as (w & Rw & Ew).
  assert (W1 : w == 1) by (rewrite Ew, E2; reflexivity).
  destruct (fractional_block_ends f w 7 I7 F0 W1) as (B0 & B1).
  eexists. exists f. split; [exact L |].
  cbn [num_whole_chars wall_top wall_bottom].
  assert (C : cap_fraction {| exact_wall_height := Fin q;
                              truncated_wall_height := 2 * m;
                              num_whole_chars := 2 * m;
                              wall_top := (H - 2 * m) ÷ 2 - 1;
                              wall_bottom := (H - 2 * m) ÷ 2 - 1 + 2 * m + 2;
                              wall_start := (H - 2 * m) ÷ 2 - 1 + 1;
                              floor_start := (H - 2 * m) ÷ 2 - 1 + 2 * m + 2 + 1 |}
              = Fin f).
  { unfold cap_fraction. cbn [exact_wall_height num_whole_chars].
    rewrite Rh. cbn [Float.sub]. rewrite Rr. cbn [Float.mul]. exact Rf. }
  split; [reflexivity |]. split; [exact C |]. split; [exact F0 |].
  split; [intros u; apply draw_blocks_whole_glyphs |].
  unfold draw_column. rewrite L. cbn [bind].
  unfold draw_caps. cbn [negb andb wall_top wall_bottom].
  destruct (0 <=? _).
  - rewrite C. unfold fractional_block. rewrite B0. cbn [bind].
    unfold Float.one. cbn [Float.sub]. rewrite Rw, B1. reflexivity.
  - reflexivity.
Qed.

(** ** Moves without a turn *)

Section Moves.

Variable grid : list string.
Variables width height : Z.
Hypothesis closed : closed_map grid width height = true.
Hypothesis width_small : width <= 2 ^ 22.
Hypothesis height_small : height <= 2 ^ 22.

Variables cosq sinq : Q -> Q.

(* a coordinate inside the map, moved by at most one half, is rounded to a
   coordinate of the map *)
Lemma moved_coordinate (p m : Q) (size : Z) :
  size <= 2 ^ 22 ->
  (1 <= p)%Q -> (p < inject_Z (size - 1))%Q -> (Qabs m <= 1 # 2)%Q ->
  exists c : Q, (Fin p + Fin m)%f = Fin c /\ (0 <= c)%Q /\ (c < inject_Z size)%Q.
Proof.
  intros Hs P1 P2 Hm. apply Qabs_Qle_condition in Hm. destruct Hm as (M1 & M2).
  assert (S1 : inject_Z (size - 1) == inject_Z size - 1)
    by (unfold Zminus; rewrite inject_Z_plus; reflexivity).
  assert (S0 : 2 <= size).
  { assert (L : (inject_Z 1 < inject_Z (size - 1))%Q)
      by (change (inject_Z 1) with 1%Q; lra).
    rewrite <- Zlt_Qlt in L. lia. }
  assert (S2 : inject_Z (2 * size - 1) / 2 == inject_Z size - (1 # 2)).
  { unfold Zminus. rewrite inject_Z_plus, inject_Z_mult.
    change (inject_Z 2) with 2%Q. change (inject_Z (- (1))) with (- (1))%Q. field. }
  cbn [Float.add].
  destruct (round_between (p + m) 1 (2 * size - 1)) as (c & Rc & C1 & C2).
  - cbn. lia.
  - change (2 ^ 23) with (2 * 2 ^ 22). lia.
  - change (inject_Z 1 / 2)%Q with (1 # 2). lra.
  - lra.
  - exists c. split; [exact Rc |].
    change (inject_Z 1 / 2)%Q with (1 # 2) in C1. lra.
Qed.

(* a move of at most one half along each axis is defined and keeps the player
   in an open cell inside the map *)
Lemma move_placed (p : player) (mx my : Q) :
  placed grid width height p ->
  (Qabs mx <= 1 # 2)%Q -> (Qabs my <= 1 # 2)%Q ->
  exists p' : player,
    move grid p (mk_vec2 (Fin mx) (Fin my)) = Some p' /\
    placed grid width height p' /\
    forward_ p' = forward_ p /\ right_ p' = right_ p.
Proof.
  intros PL Hx Hy.
  pose proof PL as (px & py & fx & fy & rx & ry & Hp & Hf & Hr & In & Wp & B).
  destruct In as (I1 & I2 & I3 & I4).
  destruct (moved_coordinate px mx width width_small I1 I2 Hx) as (cx & Ex & X0 & X1).
  destruct (moved_coordinate py my height height_small I3 I4 Hy) as (cy & Ey & Y0 & Y1).
  assert (Wi : width <= Float.int_max) by (unfold Float.int_max; cbn in *; lia).
  assert (Hi : height <= Float.int_max) by (unfold Float.int_max; cbn in *; lia).
  pose proof (is_wall_Fin grid width height Wi Hi _ _ X0 X1 Y0 Y1) as Wc.
  destruct (Qtrunc_bounds _ X0) as (Gx & Lx & Ux).
  destruct (Qtrunc_bounds _ Y0) as (Gy & Ly & Uy).
  pose proof (Qtrunc_lt_inject _ _ X0 X1) as Bx.
  pose proof (Qtrunc_lt_inject _ _ Y0 Y1) as By.
  unfold move, vadd. rewrite Hp. cbn [vx vy]. rewrite Ex, Ey, Wc.
  destruct (closed_map_cell grid width height _ _ closed
              (conj Gx Bx) (conj Gy By)) as [Wall | (Open & Jx & Jy)].
  - rewrite Wall. cbn [bind negb]. exists p. auto.
  - rewrite Open. cbn [bind negb]. eexists. split; [reflexivity |].
    cbn [forward_ right_]. split; [| auto].
    exists cx, cy, fx, fy, rx, ry. cbn [pos_ forward_ right_].
    split; [reflexivity |]. split; [exact Hf |]. split; [exact Hr |].
    split.
    { assert (T1 : (1 <= inject_Z (Float.Qtrunc cx))%Q)
        by (change 1%Q with (inject_Z 1); rewrite <- Zle_Qle; lia).
      assert (T2 : (inject_Z (Float.Qtrunc cx + 1) <= inject_Z (width - 1))%Q)
        by (rewrite <- Zle_Qle; lia).
      assert (T3 : (1 <= inject_Z (Float.Qtrunc cy))%Q)
        by (change 1%Q with (inject_Z 1); rewrite <- Zle_Qle; lia).
      assert (T4 : (inject_Z (Float.Qtrunc cy + 1) <= inject_Z (height - 1))%Q)
        by (rewrite <- Zle_Qle; lia).
      unfold inside. repeat split; lra. }
    split; [rewrite Wc; exact Open | exact B].
Qed.

(* the step of [walk] and [strafe] along a component of at most 1 *)
Lemma step_component (a f : Q) :
  (Qabs a <= 1)%Q -> f == 1 \/ f == - (1) ->
  exists m : Q, (Fin a * Fin f * run_speed)%f = Fin m /\ (Qabs m <= 1 # 2)%Q.
Proof.
  intros Ha Hf. apply Qabs_Qle_condition in Ha. destruct Ha as (A1 & A2).
  assert (E1 : inject_Z (-2) / 2 == - (1)) by reflexivity.
  assert (E2 : inject_Z 2 / 2 == 1) by reflexivity.
  assert (E3 : inject_Z (-1) / 2 == - (1 # 2)) by reflexivity.
  assert (E4 : inject_Z 1 / 2 == 1 # 2) by reflexivity.
  cbn [Float.mul].
  destruct (round_between (a * f) (-2) 2) as (c & Rc & C1 & C2).
  - cbn. lia.
  - cbn. lia.
  - rewrite E1. destruct Hf as [-> | ->]; lra.
  - rewrite E2. destruct Hf as [-> | ->]; lra.
  - rewrite Rc. unfold run_speed. cbn [Float.mul].
    rewrite E1 in C1. rewrite E2 in C2.
    destruct (round_between (c * (1 # 2)) (-1) 1) as (m & Rm & M1 & M2).
    + cbn. lia.
    + cbn. lia.
    + rewrite E3. lra.
    + rewrite E4. lra.
    + exists m. split; [exact Rm |]. apply Qabs_Qle_condition.
      rewrite E3 in M1. rewrite E4 in M2. split; lra.
Qed.

Lemma walk_placed (p : player) (f : Q) :
  placed grid width height p -> f == 1 \/ f == - (1) ->
  exists p' : player,
    walk grid (Fin f) p = Some p' /\ placed grid width height p' /\
    forward_ p' = forward_ p /\ right_ p' = right_ p.
Proof.
  intros PL Hf.
  pose proof PL as (px & py & fx & fy & rx & ry & Hp & Hfw & Hr & In & Wp & Bfx & Bfy & _).
  destruct (step_component fx f Bfx Hf) as (mx & Ex & Mx).
  destruct (step_component fy f Bfy Hf) as (my & Ey & My).
  destruct (move_placed p mx my PL Mx My) as (p' & M & R).
  exists p'. split; [| exact R].
  unfold walk, vscale. rewrite Hfw. cbn [vx vy]. rewrite Ex, Ey. exact M.
Qed.

Lemma strafe_placed (p : player) (f : Q) :
  placed grid width height p -> f == 1 \/ f == - (1) ->
  exists p' : player,
    strafe grid (Fin f) p = Some p' /\ placed grid width height p' /\
    forward_ p' = forward_ p /\ right_ p' = right_ p.
Proof.
  intros PL Hf.
  pose proof PL as (px & py & fx & fy & rx & ry & Hp & Hfw & Hr & In & Wp & _ & _ & Brx & Bry).
  destruct (step_component rx f Brx Hf) as (mx & Ex & Mx).
  destruct (step_component ry f Bry Hf) as (my & Ey & My).
  destruct (move_placed p mx my PL Mx My) as (p' & M & R).
  exists p'. split; [| exact R].
  unfold strafe, vscale. rewrite Hr. cbn [vx vy]. rewrite Ex, Ey. exact M.
Qed.

Lemma on_key_placed (key : Z) (g : game) :
  placed grid width height (plyr g) -> ~ In key turn_keys ->
  exists o : outcome,
    on_key grid cosq sinq key g = Some o /\
    match o with
    | Running g' =>
        placed grid width height (plyr g') /\
        forward_ (plyr g') = forward_ (plyr g) /\ right_ (plyr g') = right_ (plyr g)
    | Exited => True
    end.
Proof.
  intros PL NT. unfold on_key, events. cbn [List.find fst snd]. cbv beta.
  destruct (Z.eqb_spec (key_of "a") key) as [A | _].
  { exfalso. apply NT. left. exact A. }
  destruct (Z.eqb_spec (key_of "d") key) as [D | _].
  { exfalso. apply NT. right. left. exact D. }
  destruct (key_of "w" =? key).
  { cbn [snd]; cbv beta.
    destruct (walk_placed (plyr g) 1 PL ltac:(left; reflexivity)) as (p' & -> & R).
    eexists. split; [reflexivity |]. exact R. }
  destruct (key_of "s" =? key).
  { cbn [snd]; cbv beta.
    destruct (walk_placed (plyr g) (-1) PL ltac:(right; reflexivity)) as (p' & -> & R).
    eexists. split; [reflexivity |]. exact R. }
  destruct (key_of "m" =? key).
  { cbn [snd]; cbv beta.
    destruct (strafe_placed (plyr g) 1 PL ltac:(left; reflexivity)) as (p' & -> & R).
    eexists. split; [reflexivity |]. exact R. }
  destruct (key_of "n" =? key).
  { cbn [snd]; cbv beta.
    destruct (strafe_placed (plyr g) (-1) PL ltac:(right; reflexivity)) as (p' & -> & R).
    eexists. split; [reflexivity |]. exact R. }
  destruct (key_of "h" =? key).
  { cbn [snd]; cbv beta. eexists. split; [reflexivity |]. cbn [plyr]. repeat split; exact PL. }
  destruct (key_of "p" =? key).
  { cbn [snd]; cbv beta. eexists. split; [reflexivity |]. cbn [plyr]. repeat split; exact PL. }
  destruct (escape_key =? key).
  { cbn [snd]; cbv beta. eexists. split; [reflexivity |]. exact I. }
  eexists. split; [reflexivity |]. repeat split; exact PL.
Qed.

(** X17.  In every format, so in single precision, the keys that do not turn
    the player never take it out of the map: in a closed map of at most 2^22
    columns and rows, from a player in an open cell inside the map whose
    vectors have components between -1 and 1, as the player of [main] starts,
    every sequence of keys without [a] and [d] is defined, so no wall test of
    a move reads outside the map, and leaves the player in an open cell
    inside the map, with the vectors it had. *)
Theorem moves_stay_in_the_map (keys : list Z) (g : game) :
  placed grid width height (plyr g) ->
  (forall key, In key keys -> ~ In key turn_keys) ->
  exists o : outcome,
    on_keys grid cosq sinq keys g = Some o /\
    match o with
    | Running g' =>
        placed grid width height (plyr g') /\
        forward_ (plyr g') = forward_ (plyr g) /\ right_ (plyr g') = right_ (plyr g)
    | Exited => True
    end.
Proof.
  revert g. induction keys as [| key keys IH]; intros g PL NT; cbn [on_keys].
  - eexists. split; [reflexivity |]. repeat split; exact PL.
  - destruct (on_key_placed key g PL (NT key (or_introl eq_refl)))
      as ([g' |] & -> & R); cbn [bind].
    + destruct R as (PL' & F' & R').
      destruct (IH g' PL' (fun k Hk => NT k (or_intror Hk))) as (o & -> & Ro).
      exists o. split; [reflexivity |].
      destruct o as [g'' |]; [| exact I].
      destruct Ro as (PL'' & F'' & R''). repeat split; [assumption | congruence | congruence].
    + eexists. split; [reflexivity | exact I].
Qed.

End Moves.

(** ** The scene on one column *)

Lemma mul_NaN (a : float) : (a * NaN)%f = NaN.
Proof. destruct a; reflexivity. Qed.

Lemma add_NaN (a : float) : (a + NaN)%f = NaN.
Proof. destruct a; reflexivity. Qed.

Lemma div_NaN (a : float) : (a / NaN)%f = NaN.
Proof. destruct a; reflexivity. Qed.

(* a cast along a direction that is not a number returns no distance *)
Lemma compute_wall_hit_NaN (grid : list string) (fuel : nat) (position : vec2f)
  (hit : wall_hit) :
  compute_wall_hit grid fuel position (mk_vec2 NaN NaN) = Some hit ->
  hit_distance hit = NaN.
Proof.
  unfold compute_wall_hit. cbn [vx vy].
  destruct (initialize_dda_direction (vx position) NaN) as [[x_start x_step] |];
    [| discriminate].
  destruct (initialize_dda_direction (vy position) NaN) as [[y_start y_step] |];
    [| discriminate].
  cbn [bind]. destruct (cast_ray grid fuel x_start y_start x_step y_step) as [[is_x h] |];
    [| discriminate].
  cbn [bind]. intros [= <-]. cbn [hit_distance].
  destruct is_x; apply div_NaN.
Qed.

(** X10.  On a display one column wide, [draw_scene] divides 0 by 0 for the
    screen coordinate of its column: the direction of the ray is not a number,
    neither is the distance of the hit, and the conversion of the projected
    height to [int] is undefined.  No scene is drawn, whatever the map, the
    player and the height of the display. *)
Theorem one_column_scene_is_not_drawn (grid : list string) (fuel : nat)
  (screen_height : Z) (p : player) (is_blocky : bool) :
  draw_scene grid fuel 1 screen_height p is_blocky = None.
Proof.
  unfold draw_scene. change (iota_view 0 1) with [0]. cbn [for_each].
  assert (E : scene_column grid fuel 1 screen_height p is_blocky 0 = None).
  { unfold scene_column, line_of_sight.
    change (1 - 1) with 0. destruct of_int_0 as (c & -> & Zc).
    cbn [Float.div]. rewrite (proj2 (Qis_zero_true c) Zc).
    change (Fin 2 * NaN - Float.one)%f with NaN.
    unfold vscale, vadd. cbn [vx vy]. rewrite !mul_NaN, !add_NaN.
    destruct (compute_wall_hit grid fuel (pos p) (mk_vec2 NaN NaN)) as [hit |] eqn:C;
      [| reflexivity].
    cbn [bind]. apply compute_wall_hit_NaN in C.
    unfold draw_column, layout. rewrite C, div_NaN. reflexivity. }
  rewrite E. reflexivity.
Qed.

(** ** Keys that are not in the table *)

(** X14.  A key that is not in the table of events, as the -1 that [getch]
    returns when no key is pressed, changes nothing: the game goes on as it
    is. *)
Theorem unknown_key_changes_nothing
  (grid : list string) (cosq sinq : Q -> Q) (key : Z) (g : game) :
  ~ In key (List.map fst (events grid cosq sinq)) ->
  on_key grid cosq sinq key g = Some (Running g).
Proof.
  intros N. unfold on_key.
  destruct (List.find (fun e => fst e =? key) (events grid cosq sinq)) as [e |] eqn:F;
    [| reflexivity].
  exfalso. apply find_some in F. destruct F as (I & E).
  apply N. apply Z.eqb_eq in E. rewrite <- E. now apply in_map.
Qed.

End EveryFormat.

(** * The arithmetic without rounding

    What follows is about [exact_format]: the values are the rationals that
    the operations of the program would give without rounding. *)

Section Exact.

#[local] Existing Instance exact_format.

(** ** Division without rounding *)

Lemma div_Fin (p q : Q) : ~ q == 0 -> (Fin p / Fin q)%f = Fin (p / q).
Proof.
  intros H. simpl. apply Qis_zero_false in H. now rewrite H.
Qed.

(** ** The table of fractional blocks *)

(* the product that [fractional_block] truncates, for a fraction in [0, 1] *)
Lemma block_index_range (q : Q) :
  (0 <= q)%Q -> (q <= 1)%Q ->
  0 <= Float.Qtrunc (q * (8 - (1 # 1000000))) < 8.
Proof.
  intros H0 H1.
  assert (Hr0 : (0 <= q * (8 - (1 # 1000000)))%Q) by lra.
  destruct (Qtrunc_bounds _ Hr0) as (Ht0 & _ & _).
  split; [assumption |].
  apply Qtrunc_lt_inject; [assumption |].
  change (inject_Z 8) with 8%Q. lra.
Qed.

Lemma fractional_index_Fin (q : Q) :
  (0 <= q)%Q -> (q <= 1)%Q ->
  fractional_index (Fin q) = Some (Float.Qtrunc (q * (8 - (1 # 1000000)))).
Proof.
  intros H0 H1. pose proof (block_index_range q H0 H1) as R.
  unfold fractional_index.
  change (Float.of_int (Z.of_nat (List.length chars)) - block_epsilon)%f
    with (Fin (8 - (1 # 1000000))).
  cbn [Float.mul round exact_format]. apply to_int_Fin.
  unfold Float.int_min, Float.int_max. lia.
Qed.

Lemma chars_lookup (index : Z) :
  0 <= index < 8 -> exists g, nth_error chars (Z.to_nat index) = Some g.
Proof.
  intros H. destruct (nth_error chars (Z.to_nat index)) as [g |] eqn:E.
  - now exists g.
  - apply nth_error_None in E. cbn [chars List.length] in E. lia.
Qed.

(** C8.  For every fraction between 0 and 1, both included, the index that
    [fractional_block] computes lies inside its table of 8 glyphs, so the read
    [chars[index]] is in bounds and returns a glyph. *)
Theorem fractional_block_index_in_table (q : Q) :
  (0 <= q)%Q -> (q <= 1)%Q ->
  exists (index : Z) (g : string),
    fractional_index (Fin q) = Some index /\
    0 <= index < Z.of_nat (List.length chars) /\
    fractional_block (Fin q) = Some g /\
    nth_error chars (Z.to_nat index) = Some g.
Proof.
  intros H0 H1.
  pose proof (block_index_range q H0 H1) as R.
  pose proof (fractional_index_Fin q H0 H1) as I.
  destruct (chars_lookup _ R) as (g & G).
  exists (Float.Qtrunc (q * (8 - (1 # 1000000)))), g.
  split; [exact I |]. split; [exact R |]. split; [| exact G].
  unfold fractional_block. rewrite I. cbn [bind].
  destruct (Z.ltb_spec (Float.Qtrunc (q * (8 - (1 # 1000000)))) 0); [lia | exact G].
Qed.

Lemma fractional_block_index_in_table_witness :
  exists (index : Z) (g : string),
    fractional_index (Fin 1) = Some index /\
    0 <= index < Z.of_nat (List.length chars) /\
    fractional_block (Fin 1) = Some g /\
    nth_error chars (Z.to_nat index) = Some g.
Proof.
  apply (fractional_block_index_in_table 1); unfold Qle; simpl; lia.
Defined.

(** ** The layout of a column *)

Lemma layout_Fin (H : Z) (d : Q) (t : float) (is_blocky : bool) :
  ~ d == 0 ->
  Float.int_min <= Float.Qtrunc (inject_Z H / d) <= Float.int_max ->
  layout H {| hit_distance := Fin d; tx := t |} is_blocky =
  let truncated := Float.Qtrunc (inject_Z H / d) in
  let num := truncated - (if is_blocky then 0 else Z.rem truncated 2) in
  let top := (H - num) ÷ 2 - 1 in
  Some {| exact_wall_height := Fin (inject_Z H / d);
          truncated_wall_height := truncated;
          num_whole_chars := num;
          wall_top := top;
          wall_bottom := top + num + 2;
          wall_start := top + (if is_blocky then 0 else 1);
          floor_start := top + num + 2 + (if is_blocky then 0 else 1) |}.
Proof.
  intros Hd Hr. unfold layout, Float.of_int. cbn [hit_distance].
  rewrite div_Fin by assumption. rewrite to_int_Fin by assumption.
  reflexivity.
Qed.

(** ** The rows of the two fractional blocks *)

(* When the top fractional block is on the display, so is the bottom one,
   but for a wall of two rows less than the display: then it is printed one
   row below the last. *)
Lemma cap_rows (H num : Z) :
  0 <= num ->
  let top := (H - num) ÷ 2 - 1 in
  let bottom := top + num + 2 in
  0 <= top ->
  0 <= top < H /\ 0 <= bottom <= H /\ (bottom = H <-> H - num = 2).
Proof.
  intros Hn top bottom Ht. subst top bottom.
  assert (Hq : 1 <= (H - num) ÷ 2) by lia.
  assert (Hp : 0 <= H - num).
  { destruct (Z.le_gt_cases 0 (H - num)); [assumption |].
    pose proof (Z.quot_le_upper_bound (H - num) 2 0). lia. }
  rewrite Z.quot_div_nonneg in * by lia.
  pose proof (Z.div_mod (H - num) 2 ltac:(lia)).
  pose proof (Z.mod_pos_bound (H - num) 2 ltac:(lia)).
  lia.
Qed.

Lemma fractional_block_defined (q : Q) :
  (0 <= q)%Q -> (q <= 1)%Q -> exists g, fractional_block (Fin q) = Some g.
Proof.
  intros H0 H1.
  pose proof (block_index_range q H0 H1) as R.
  destruct (chars_lookup _ R) as (g & G). exists g.
  unfold fractional_block. rewrite (fractional_index_Fin q H0 H1). cbn [bind].
  destruct (Z.ltb_spec (Float.Qtrunc (q * (8 - (1 # 1000000)))) 0); [lia | exact G].
Qed.

(* For a display height that is not negative and a hit at a distance above 0
   whose projected height fits an [int], [draw_column] is defined: the
   fraction of the caps is in [0, 1), both reads of the table are in bounds. *)
Lemma draw_column_defined (x H : Z) (d : Q) (t : float) (is_blocky : bool) :
  0 <= H -> (0 < d)%Q -> (inject_Z H / d < inject_Z (2 ^ 31))%Q ->
  exists ws : list cell_write,
    draw_column x H {| hit_distance := Fin d; tx := t |} is_blocky = Some ws.
Proof.
  intros HH Hd Hmax.
  assert (Hp : (0 <= inject_Z H / d)%Q).
  { apply Qle_shift_div_l; [assumption |].
    rewrite Qmult_0_l. change 0%Q with (inject_Z 0). now rewrite <- Zle_Qle. }
  destruct (Qtrunc_bounds _ Hp) as (Ht0 & Hlo & Hhi).
  pose proof (Qtrunc_lt_inject _ _ Hp Hmax) as Ht1.
  assert (Hr : Float.int_min <= Float.Qtrunc (inject_Z H / d) <= Float.int_max)
    by (unfold Float.int_min, Float.int_max; lia).
  assert (Hd0 : ~ d == 0) by lra.
  unfold draw_column. rewrite (layout_Fin H d t is_blocky Hd0 Hr). cbv zeta.
  cbn [bind]. unfold draw_caps. cbn [wall_top wall_bottom].
  destruct is_blocky; cbn [negb andb]; [eexists; reflexivity |].
  destruct (0 <=? _); [| eexists; reflexivity].
  unfold cap_fraction.
  cbn [exact_wall_height num_whole_chars Float.of_int Float.sub Float.mul round exact_format].
  set (e := (inject_Z H / d)%Q) in *.
  rewrite rem_2_odd by assumption.
  rewrite inject_Z_plus in Hhi. change (inject_Z 1) with 1%Q in Hhi.
  assert (F : (0 <= (1 # 2) * (e - inject_Z (Float.Qtrunc e -
                 (if Z.odd (Float.Qtrunc e) then 1 else 0))))%Q /\
              ((1 # 2) * (e - inject_Z (Float.Qtrunc e -
                 (if Z.odd (Float.Qtrunc e) then 1 else 0))) < 1)%Q).
  { unfold Zminus. rewrite inject_Z_plus, inject_Z_opp.
    destruct (Z.odd _).
    - change (inject_Z 1) with 1%Q. lra.
    - change (inject_Z 0) with 0%Q. lra. }
  destruct F as (F0 & F1).
  destruct (fractional_block_defined _ F0 ltac:(lra)) as (g1 & ->). cbn [bind].
  unfold Float.one. cbn [Float.sub round exact_format].
  destruct (fractional_block_defined
              (1 - (1 # 2) * (e - inject_Z (Float.Qtrunc e -
                 (if Z.odd (Float.Qtrunc e) then 1 else 0))))%Q
              ltac:(lra) ltac:(lra)) as (g2 & ->).
  cbn [bind]. eexists; reflexivity.
Qed.

Example bottom_cap_below_24_rows :
  exists ws : list cell_write,
    draw_column 0 24 {| hit_distance := Fin (17 # 16); tx := Fin (1 # 2) |} false
    = Some ws /\
    In (print 0 "▅" true 24) ws.
Proof.
  eexists. split; [vm_compute; reflexivity |].
  cbn. intuition.
Qed.

(** C9.  On a display of 4 rows, a hit at distance 2 with smoothed edges has
    2 whole characters, [wall_top = 0] and [wall_bottom = 4]: the test
    [wall_top >= 0] passes and the bottom fractional block is printed at row 4,
    which is not a row of the display. *)
Theorem draw_column_bottom_cap_off_display :
  draw_column 0 4 {| hit_distance := Fin 2; tx := Fin (1 # 2) |} false =
    Some [print 0 " " true 1; print 0 " " true 2; print 0 " " true 3;
          print 0 " " false 0; print 0 "▇" true 4]
  /\ ~ Forall (fun r => 0 <= r < 4)
        (rows [print 0 " " true 1; print 0 " " true 2; print 0 " " true 3;
               print 0 " " false 0; print 0 "▇" true 4]).
Proof.
  split.
  - vm_compute. reflexivity.
  - intros F. rewrite Forall_forall in F.
    specialize (F 4). cbn in F. lia.
Qed.

(** ** Smoothed edges of a wall whose height is an even number of rows *)

Lemma fractional_block_zero (f : Q) : f == 0 -> fractional_block (Fin f) = Some " "%string.
Proof.
  intros E. unfold fractional_block, fractional_index.
  change (Float.of_int (Z.of_nat (List.length chars)) - block_epsilon)%f
    with (Fin (8 - (1 # 1000000))).
  cbn [Float.mul round exact_format].
  assert (T : Float.Qtrunc (f * (8 - (1 # 1000000))) = 0).
  { rewrite (Qtrunc_comp _ 0) by (rewrite E; reflexivity). reflexivity. }
  rewrite to_int_Fin by (rewrite T; vm_compute; split; discriminate).
  rewrite T. reflexivity.
Qed.

Lemma fractional_block_one (f : Q) : f == 1 -> fractional_block (Fin f) = Some "▇"%string.
Proof.
  intros E. unfold fractional_block, fractional_index.
  change (Float.of_int (Z.of_nat (List.length chars)) - block_epsilon)%f
    with (Fin (8 - (1 # 1000000))).
  cbn [Float.mul round exact_format].
  assert (T : Float.Qtrunc (f * (8 - (1 # 1000000))) = 7).
  { rewrite (Qtrunc_comp _ (8 - (1 # 1000000))) by (rewrite E; ring). reflexivity. }
  rewrite to_int_Fin by (rewrite T; vm_compute; split; discriminate).
  rewrite T. reflexivity.
Qed.

(** C7, as the program has it.  With smoothed edges and a projected height
    that is exactly the even integer [2 * m], there are [2 * m] whole
    characters and the fraction is 0; the ceiling, wall and floor rows hold no
    fractional block; when [wall_top] is on the display, the top cap is the
    space of the table (entry 0) and the bottom cap is its last entry, the
    seven-eighths block U+2587, printed inverted. *)
Theorem smooth_even_height_caps (x H m : Z) (d : Q) (t : float) :
  ~ d == 0 ->
  inject_Z H / d == inject_Z (2 * m) ->
  Float.int_min <= 2 * m <= Float.int_max ->
  let hit := {| hit_distance := Fin d; tx := t |} in
  exists (g : column_layout) (f : Q),
    layout H hit false = Some g /\
    num_whole_chars g = 2 * m /\
    cap_fraction g = Fin f /\ f == 0 /\
    (forall w, In w (draw_blocks x H hit false g) -> partial_block (w_glyph w) = false) /\
    draw_column x H hit false =
      Some (draw_blocks x H hit false g ++
            if 0 <=? wall_top g
            then [print x " " false (wall_top g); print x "▇" true (wall_bottom g)]
            else []).
Proof.
  intros Hd He Hr hit. subst hit.
  assert (T : Float.Qtrunc (inject_Z H / d) = 2 * m).
  { rewrite (Qtrunc_comp _ _ He). apply Qtrunc_inject_Z. }
  assert (Hr' : Float.int_min <= Float.Qtrunc (inject_Z H / d) <= Float.int_max)
    by (rewrite T; exact Hr).
  pose proof (layout_Fin H d t false Hd Hr') as L. cbv zeta in L.
  rewrite T in L.
  assert (R : Z.rem (2 * m) 2 = 0) by (rewrite Z.mul_comm; apply Z.rem_mul; lia).
  rewrite R, Z.sub_0_r in L.
  eexists. exists ((1 # 2) * (inject_Z H / d - inject_Z (2 * m)))%Q.
  split; [exact L |]. cbn [num_whole_chars wall_top wall_bottom].
  assert (F0 : (1 # 2) * (inject_Z H / d - inject_Z (2 * m)) == 0)
    by (rewrite He; ring).
  split; [reflexivity |]. split; [reflexivity |]. split; [exact F0 |].
  split; [intros w; apply draw_blocks_whole_glyphs |].
  unfold draw_column. rewrite L. cbn [bind].
  unfold draw_caps. cbn [negb andb wall_top wall_bottom].
  destruct (0 <=? _).
  - unfold cap_fraction. cbn [exact_wall_height num_whole_chars Float.of_int Float.sub Float.mul round exact_format].
    rewrite (fractional_block_zero _ F0). cbn [bind].
    unfold Float.one. cbn [Float.sub round exact_format].
    rewrite fractional_block_one by (rewrite F0; ring).
    reflexivity.
  - reflexivity.
Qed.

Lemma smooth_even_height_caps_witness :
  exists (g : column_layout) (f : Q),
    layout 8 {| hit_distance := Fin 2; tx := Fin (1 # 2) |} false = Some g /\
    num_whole_chars g = 2 * 2 /\
    cap_fraction g = Fin f /\ f == 0 /\
    (forall w,
        In w (draw_blocks 0 8 {| hit_distance := Fin 2; tx := Fin (1 # 2) |} false g) ->
        partial_block (w_glyph w) = false) /\
    draw_column 0 8 {| hit_distance := Fin 2; tx := Fin (1 # 2) |} false =
      Some (draw_blocks 0 8 {| hit_distance := Fin 2; tx := Fin (1 # 2) |} false g ++
            if 0 <=? wall_top g
            then [print 0 " " false (wall_top g); print 0 "▇" true (wall_bottom g)]
            else []).
Proof.
  apply (smooth_even_height_caps 0 8 2 2 (Fin (1 # 2))).
  - discriminate.
  - reflexivity.
  - vm_compute. split; discriminate.
Defined.

(** C7, as the specification has it, fails on a display of 8 rows for a hit
    at distance 2: the projected height is 4, the smoothed column prints the
    fractional block U+2587 at row 7, and it is not the column printed with
    blocky edges. *)
Lemma smooth_even_height_counterexample :
  inject_Z 8 / 2 == inject_Z 4 /\
  exists out : list cell_write,
    draw_column 0 8 {| hit_distance := Fin 2; tx := Fin (1 # 2) |} false = Some out /\
    (exists w, In w out /\ partial_block (w_glyph w) = true) /\
    draw_column 0 8 {| hit_distance := Fin 2; tx := Fin (1 # 2) |} true <> Some out.
Proof.
  split; [reflexivity |].
  eexists. split; [vm_compute; reflexivity |]. split.
  - exists (print 0 "▇" true 7). split; [| reflexivity].
    cbn. intuition.
  - vm_compute. discriminate.
Qed.

(** ** The player *)

Section TurnBack.

Variables cosq sinq : Q -> Q.

Hypothesis cos_compat : forall a b, a == b -> cosq a == cosq b.
Hypothesis sin_compat : forall a b, a == b -> sinq a == sinq b.
Hypothesis cos_even : forall a, cosq (- a) == cosq a.
Hypothesis sin_odd : forall a, sinq (- a) == - sinq a.
Hypothesis cos2_sin2 : forall a, cosq a * cosq a + sinq a * sinq a == 1.

Lemma rotate_back (x y f : Q) :
  veq (rotate cosq sinq
         (rotate cosq sinq (mk_vec2 (Fin x) (Fin y)) (Fin f * turn_speed)%f)
         (- Fin f * turn_speed)%f)
      (mk_vec2 (Fin x) (Fin y)).
Proof.
  unfold rotate, veq, turn_speed.
  cbn [fcos fsin vx vy Float.mul Float.sub Float.add Float.neg feq round exact_format].
  assert (Ec : cosq (- f * (1 # 10)) == cosq (f * (1 # 10))).
  { rewrite <- cos_even. apply cos_compat. ring. }
  assert (Es : sinq (- f * (1 # 10)) == - sinq (f * (1 # 10))).
  { rewrite <- sin_odd. apply sin_compat. ring. }
  pose proof (cos2_sin2 (f * (1 # 10))) as P.
  rewrite Ec, Es.
  set (c := cosq (f * (1 # 10))) in *. set (s := sinq (f * (1 # 10))) in *.
  split.
  - transitivity (x * (c * c + s * s))%Q; [ring | rewrite P; ring].
  - transitivity (y * (c * c + s * s))%Q; [ring | rewrite P; ring].
Qed.

(** C10.  With exact arithmetic, and [std::cos] even, [std::sin] odd and
    cos^2 + sin^2 = 1, [turn(factor)] followed by [turn(-factor)] gives back
    the forward and right vectors of the player, and its position. *)
Theorem turn_back (position : vec2f) (fx fy rx ry factor : Q) :
  let p := {| pos_ := position;
              forward_ := mk_vec2 (Fin fx) (Fin fy);
              right_ := mk_vec2 (Fin rx) (Fin ry) |} in
  let p' := turn cosq sinq (- Fin factor)%f (turn cosq sinq (Fin factor) p) in
  veq (forward_ p') (forward_ p) /\
  veq (right_ p') (right_ p) /\
  pos_ p' = pos_ p.
Proof.
  intros p p'. unfold p', p, turn. cbn [forward_ right_ pos_].
  repeat split; try apply rotate_back.
Qed.

End TurnBack.

Lemma walk_strafe_reject_walls_witness :
  walk maze (Fin (-1))
    {| pos_ := mk_vec2 (Fin 5) (Fin 1);
       forward_ := mk_vec2 (Fin 0) (Fin 1);
       right_ := mk_vec2 (Fin (8 # 10)) (Fin 0) |} =
  Some {| pos_ := mk_vec2 (Fin 5) (Fin 1);
          forward_ := mk_vec2 (Fin 0) (Fin 1);
          right_ := mk_vec2 (Fin (8 # 10)) (Fin 0) |}.
Proof.
  apply (proj1 (walk_strafe_reject_walls maze
                  {| pos_ := mk_vec2 (Fin 5) (Fin 1);
                     forward_ := mk_vec2 (Fin 0) (Fin 1);
                     right_ := mk_vec2 (Fin (8 # 10)) (Fin 0) |} (Fin (-1)))).
  vm_compute. reflexivity.
Defined.

(** *** A rational rotation, to run the player with *)

Lemma circle_den_nonzero (a : Q) : ~ 1 + a * a == 0.
Proof. nra. Qed.

Lemma circle_cos_compat (a b : Q) : a == b -> circle_cos a == circle_cos b.
Proof. intros E. unfold circle_cos. now rewrite E. Qed.

Lemma circle_sin_compat (a b : Q) : a == b -> circle_sin a == circle_sin b.
Proof. intros E. unfold circle_sin. now rewrite E. Qed.

Lemma circle_cos_even (a : Q) : circle_cos (- a) == circle_cos a.
Proof.
  unfold circle_cos. setoid_replace (- a * - a)%Q with (a * a)%Q by ring.
  reflexivity.
Qed.

Lemma circle_sin_odd (a : Q) : circle_sin (- a) == - circle_sin a.
Proof.
  unfold circle_sin. setoid_replace (- a * - a)%Q with (a * a)%Q by ring.
  field. apply circle_den_nonzero.
Qed.

Lemma circle_cos2_sin2 (a : Q) :
  circle_cos a * circle_cos a + circle_sin a * circle_sin a == 1.
Proof.
  unfold circle_cos, circle_sin. field. apply circle_den_nonzero.
Qed.

(* The same over the real numbers: there the three identities are those of
   the cosine and the sine, and a rotation by the opposite angle undoes a
   rotation. *)
Lemma rotate_real_back (v : vec2 R) (a : R) :
  rotate_real (rotate_real v a) (- a) = v.
Proof.
  destruct v as [x y]. unfold rotate_real. cbn [vx vy].
  rewrite cos_neg, sin_neg.
  pose proof (sin2_cos2 a) as P. unfold Rsqr in P.
  f_equal.
  - replace ((x * cos a - y * sin a) * cos a - (x * sin a + y * cos a) * - sin a)%R
      with (x * (sin a * sin a + cos a * cos a))%R by ring.
    rewrite P. ring.
  - replace ((x * cos a - y * sin a) * - sin a + (x * sin a + y * cos a) * cos a)%R
      with (y * (sin a * sin a + cos a * cos a))%R by ring.
    rewrite P. ring.
Qed.

Lemma turn_back_witness :
  veq (forward_ (turn circle_cos circle_sin (- Fin 1)%f
                   (turn circle_cos circle_sin (Fin 1) initial_player)))
      (forward_ initial_player) /\
  veq (right_ (turn circle_cos circle_sin (- Fin 1)%f
                 (turn circle_cos circle_sin (Fin 1) initial_player)))
      (right_ initial_player) /\
  pos_ (turn circle_cos circle_sin (- Fin 1)%f
          (turn circle_cos circle_sin (Fin 1) initial_player)) =
  pos_ initial_player.
Proof.
  exact (turn_back circle_cos circle_sin
           circle_cos_compat circle_sin_compat circle_cos_even circle_sin_odd
           circle_cos2_sin2 (mk_vec2 (Fin 5) (Fin 5)) 0 1 (8 # 10) 0 1).
Defined.

Lemma player_stays_out_of_walls_witness :
  exists p' : player,
    perform_all maze circle_cos circle_sin initial_player
      [Walk (Fin 1); Turn (Fin 1); Strafe (Fin (-1)); Walk (Fin (-1)); Walk (Fin 1)]
    = Some p' /\
    is_wall maze (pos_ p') = Some false.
Proof.
  destruct (perform_all maze circle_cos circle_sin initial_player
      [Walk (Fin 1); Turn (Fin 1); Strafe (Fin (-1)); Walk (Fin (-1)); Walk (Fin 1)])
    as [p' |] eqn:E.
  - exists p'. split; [reflexivity |].
    apply (proj1 (proj2 (player_stays_out_of_walls maze circle_cos circle_sin))
             [Walk (Fin 1); Turn (Fin 1); Strafe (Fin (-1)); Walk (Fin (-1)); Walk (Fin 1)]
             initial_player p'); [reflexivity | exact E].
  - vm_compute in E. discriminate E.
Defined.

(** ** The ray caster *)

(** *** Start and step of one axis *)

Lemma initialize_dda_direction_nonzero (p d : Q) (g : Z) :
  Float.to_int (Fin p) = Some g -> ~ d == 0 ->
  initialize_dda_direction (Fin p) (Fin d) =
  Some ({| on_grid := g; distance := Fin (Qabs (1 / d) * edge_offset p d g) |},
        {| on_grid := step_sign d; distance := Fin (Qabs (1 / d)) |}).
Proof.
  intros Hg Hd. unfold initialize_dda_direction. rewrite Hg. cbn [bind].
  rewrite ltb_zero. unfold Float.one. rewrite div_Fin by assumption.
  unfold edge_offset, step_sign, Float.of_int.
  destruct (Float.Qsign_neg d); reflexivity.
Qed.

Lemma initialize_dda_direction_zero (p d : Q) (g : Z) :
  Float.to_int (Fin p) = Some g -> d == 0 ->
  initialize_dda_direction (Fin p) (Fin d) =
  Some ({| on_grid := g; distance := PInf |}, {| on_grid := 1; distance := PInf |}).
Proof.
  intros Hg Hd. unfold initialize_dda_direction. rewrite Hg. cbn [bind].
  rewrite ltb_zero.
  assert (Hs : Float.Qsign_neg d = false) by (apply Qsign_neg_false; lra).
  rewrite Hs. unfold Float.one, Float.of_int.
  cbn [Float.div Float.add Float.sub round exact_format].
  apply Qis_zero_true in Hd. rewrite Hd.
  change (Float.Qis_zero 1) with false. cbn [Float.inf Float.Qsign_neg Float.abs].
  change (Float.abs (Float.inf (Float.Qsign_neg 1))) with PInf.
  cbn [distance Float.mul round exact_format]. unfold Float.inf_times.
  apply to_int_Some in Hg. destruct Hg as (q & [= <-] & Hq).
  pose proof (Qtrunc_succ_gt p) as G. rewrite Hq, inject_Z_plus in G.
  change (inject_Z 1) with 1%Q in G.
  assert (Z0 : Float.Qis_zero (inject_Z g + 1 - p) = false)
    by (apply Qis_zero_false; lra).
  assert (S0 : Float.Qsign_neg (inject_Z g + 1 - p) = false)
    by (apply Qsign_neg_false; lra).
  rewrite Z0, S0. reflexivity.
Qed.

(** *** The loop of [cast_ray] *)

Section CastRay.

Variable grid : list string.
Variables x_step y_step : dda_coord.

(* What the loop returns: the axis of the last step and the grid coordinate
   reached on it, at least one step away when the loop started off a wall; the
   axis of the last step is never one whose direction component is 0. *)
Lemma cast_ray_loop_result (still_x still_y : bool) :
  still_x && still_y = false ->
  forall (fuel : nat) (is_x_step : bool) (x y : dda_coord) (b : bool) (h : float),
    axis_state still_x x x_step ->
    axis_state still_y y y_step ->
    cast_ray_loop grid fuel is_x_step x y x_step y_step = Some (b, h) ->
    (is_wall_i grid (mk_vec2 (on_grid x) (on_grid y)) = Some true /\
     b = is_x_step /\ h = Float.of_int (if b then on_grid x else on_grid y))
    \/ (b = true /\ still_x = false /\
        exists k, 1 <= k /\ h = Float.of_int (on_grid x + k * on_grid x_step))
    \/ (b = false /\ still_y = false /\
        exists k, 1 <= k /\ h = Float.of_int (on_grid y + k * on_grid y_step)).
Proof.
  intros Hstill. induction fuel as [| fuel IH]; intros is_x_step x y b h Ax Ay;
    cbn [cast_ray_loop].
  - discriminate.
  - destruct (is_wall_i grid _) as [[|] |] eqn:W; cbn [bind]; try discriminate.
    + intros [= <- <-]. left. auto.
    + destruct (distance x <? distance y)%f eqn:C; intros R.
      * (* a step in x: the distance of x is finite *)
        assert (Sx : still_x = false).
        { destruct still_x; [| reflexivity]. cbn in Ax. rewrite Ax in C.
          discriminate C. }
        rewrite Sx in Ax. destruct Ax as ((qx & Qx) & (qs & Qs)).
        assert (Ax' : axis_state still_x (dda_add x x_step) x_step).
        { rewrite Sx. split; [| now exists qs].
          exists (qx + qs)%Q. cbn. now rewrite Qx, Qs. }
        specialize (IH _ _ _ _ _ Ax' Ay R). cbn [dda_add on_grid] in IH.
        destruct IH as [(_ & -> & ->) | [(-> & _ & k & Hk & ->) | (-> & Sy & k & Hk & ->)]].
        -- right; left. repeat split; [assumption |].
           exists 1. split; [lia |]. f_equal. lia.
        -- right; left. repeat split; [assumption |].
           exists (k + 1). split; [lia |]. f_equal. lia.
        -- right; right. repeat split; [assumption |]. now exists k.
      * (* a step in y *)
        assert (Sy : still_y = false).
        { destruct still_y; [| reflexivity]. cbn in Ay. rewrite Ay in C.
          destruct still_x; [discriminate Hstill |].
          destruct Ax as ((qx & Qx) & _). rewrite Qx in C. discriminate C. }
        rewrite Sy in Ay. destruct Ay as ((qy & Qy) & (qs & Qs)).
        assert (Ay' : axis_state still_y (dda_add y y_step) y_step).
        { rewrite Sy. split; [| now exists qs].
          exists (qy + qs)%Q. cbn. now rewrite Qy, Qs. }
        specialize (IH _ _ _ _ _ Ax Ay' R). cbn [dda_add on_grid] in IH.
        destruct IH as [(_ & -> & ->) | [(-> & Sx & k & Hk & ->) | (-> & _ & k & Hk & ->)]].
        -- right; right. repeat split; [assumption |].
           exists 1. split; [lia |]. f_equal. lia.
        -- right; left. repeat split; [assumption |]. now exists k.
        -- right; right. repeat split; [assumption |].
           exists (k + 1). split; [lia |]. f_equal. lia.
Qed.

End CastRay.

(** *** The distance and the surface offset of a hit *)

Lemma initialize_dda_direction_state (p d : Q) (g : Z) :
  Float.to_int (Fin p) = Some g ->
  exists start step : dda_coord,
    initialize_dda_direction (Fin p) (Fin d) = Some (start, step) /\
    on_grid start = g /\ on_grid step = step_sign d /\
    axis_state (Float.Qis_zero d) start step.
Proof.
  intros Hg. destruct (Float.Qis_zero d) eqn:Z.
  - apply Qis_zero_true in Z.
    rewrite (initialize_dda_direction_zero p d g Hg Z).
    do 2 eexists. split; [reflexivity |]. repeat split.
    unfold step_sign.
    assert (S : Float.Qsign_neg d = false) by (apply Qsign_neg_false; lra).
    now rewrite S.
  - apply Qis_zero_false in Z.
    rewrite (initialize_dda_direction_nonzero p d g Hg Z).
    do 2 eexists. split; [reflexivity |]. repeat split; eexists; reflexivity.
Qed.

Lemma step_sign_unit (d : Q) : step_sign d = 1 \/ step_sign d = -1.
Proof. unfold step_sign. destruct (Float.Qsign_neg d); auto. Qed.

Lemma Qdiv_sign_pos (n d : Q) : (0 < n)%Q -> (0 < d)%Q -> (0 < n / d)%Q.
Proof.
  intros Hn Hd. apply Qlt_shift_div_l; [assumption | lra].
Qed.

Lemma Qdiv_sign_neg (n d : Q) : (n <= 0)%Q -> (d < 0)%Q -> (0 <= n / d)%Q.
Proof.
  intros Hn Hd.
  setoid_replace (n / d)%Q with ((- n) / (- d))%Q by (field; lra).
  apply Qle_shift_div_l; lra.
Qed.

Lemma Qdiv_sign_neg_strict (n d : Q) : (n < 0)%Q -> (d < 0)%Q -> (0 < n / d)%Q.
Proof.
  intros Hn Hd.
  setoid_replace (n / d)%Q with ((- n) / (- d))%Q by (field; lra).
  apply Qlt_shift_div_l; lra.
Qed.

(* The ray parameter at the face of the cell [k] steps ahead of the cell [g]
   of the position [p]: not negative, and 0 only for a position on a grid line
   with a direction that is negative. *)
Lemma hit_distance_sign (p d : Q) (g k : Z) :
  ~ d == 0 -> (0 <= p)%Q -> g = Float.Qtrunc p -> 1 <= k ->
  let dist := ((inject_Z (g + k * step_sign d) - p
                + inject_Z (Z.shiftr (1 - step_sign d) 1)) / d)%Q in
  (0 <= dist)%Q /\ (((d < 0)%Q -> ~ on_grid_line p) -> (0 < dist)%Q).
Proof.
  intros Hd Hp -> Hk dist. subst dist.
  destruct (Qtrunc_bounds p Hp) as (_ & Hlo & Hhi).
  assert (Ek : (1 <= inject_Z k)%Q)
    by (change 1%Q with (inject_Z 1); now rewrite <- Zle_Qle).
  rewrite inject_Z_plus in Hhi. change (inject_Z 1) with 1%Q in Hhi.
  unfold step_sign. destruct (Float.Qsign_neg d) eqn:S.
  - apply Qsign_neg_true in S.
    change (Z.shiftr (1 - -1) 1) with 1.
    rewrite inject_Z_plus, inject_Z_mult.
    change (inject_Z (-1)) with (-1)%Q. change (inject_Z 1) with 1%Q.
    split.
    + apply Qdiv_sign_neg; lra.
    + intros Hline. apply Qdiv_sign_neg_strict; [| assumption].
      assert (Hne : ~ inject_Z (Float.Qtrunc p) == p).
      { unfold on_grid_line in Hline. rewrite Qtrunc_nonneg by assumption.
        now apply Hline. }
      lra.
  - apply Qsign_neg_false in S.
    change (Z.shiftr (1 - 1) 1) with 0.
    rewrite inject_Z_plus, inject_Z_mult.
    change (inject_Z 1) with 1%Q. change (inject_Z 0) with 0%Q.
    assert (P : (0 < (inject_Z (Float.Qtrunc p) + inject_Z k * 1 - p + 0) / d)%Q)
      by (apply Qdiv_sign_pos; lra).
    split; [lra | intros _; exact P].
Qed.

Lemma frac_range (q : Q) : (0 <= frac q)%Q /\ (frac q < 1)%Q.
Proof.
  unfold frac. pose proof (Qfloor_le q). pose proof (Qlt_floor q) as L.
  rewrite inject_Z_plus in L. change (inject_Z 1) with 1%Q in L. lra.
Qed.

Section ClosedMap.

Variable grid : list string.
Variables width height : Z.
Hypothesis closed : closed_map grid width height = true.

(* A cast from an open cell inside a closed map, along a direction that is
   not the null vector: with fuel for [width + height] tests of the loop it
   returns a hit, at a distance that is finite and not negative, and above 0
   unless the position is on a grid line that the direction points back at;
   the surface offset is in [0, 1). *)
Lemma compute_wall_hit_closed (px py dx dy : Q) (fuel : nat) :
  inside width height px py ->
  is_wall grid (mk_vec2 (Fin px) (Fin py)) = Some false ->
  ~ (dx == 0 /\ dy == 0) ->
  (Z.to_nat (width + height) <= fuel)%nat ->
  exists dist t : Q,
    compute_wall_hit grid fuel (mk_vec2 (Fin px) (Fin py)) (mk_vec2 (Fin dx) (Fin dy))
    = Some {| hit_distance := Fin dist; tx := Fin t |} /\
    (0 <= dist)%Q /\
    (((dx < 0)%Q -> ~ on_grid_line px) -> ((dy < 0)%Q -> ~ on_grid_line py) ->
     (0 < dist)%Q) /\
    (0 <= t)%Q /\ (t < 1)%Q.
Proof.
  intros In W Hdir Hfuel.
  destruct (inside_cell grid width height px py In W) as (Ex & Ey & Gx & Gy & Wc).
  destruct In as (X1 & _ & Y1 & _).
  destruct (initialize_dda_direction_state px dx _ Ex)
    as (x_start & x_step & Ix & Sx & Tx & Ax).
  destruct (initialize_dda_direction_state py dy _ Ey)
    as (y_start & y_step & Iy & Sy & Ty & Ay).
  assert (Still : Float.Qis_zero dx && Float.Qis_zero dy = false).
  { destruct (Float.Qis_zero dx) eqn:Zx, (Float.Qis_zero dy) eqn:Zy; try reflexivity.
    exfalso. apply Hdir. split; now apply Qis_zero_true. }
  destruct (cast_ray_loop_terminates grid width height closed x_step y_step
              ltac:(rewrite Tx; apply step_sign_unit)
              ltac:(rewrite Ty; apply step_sign_unit)
              fuel false x_start y_start) as ([b h] & R).
  { rewrite Sx. lia. }
  { rewrite Sy. lia. }
  { rewrite Sx, Sy. unfold cells_left.
    destruct (on_grid x_step =? 1), (on_grid y_step =? 1); lia. }
  unfold compute_wall_hit. cbn [vx vy]. rewrite Ix, Iy. cbn [bind].
  unfold cast_ray. rewrite R. cbn [bind].
  destruct (cast_ray_loop_result grid x_step y_step _ _ Still _ _ _ _ _ _ Ax Ay R)
    as [(Wt & _) | [(-> & Zx & k & Hk & ->) | (-> & Zy & k & Hk & ->)]].
  - rewrite Sx, Sy in Wt. congruence.
  - apply Qis_zero_false in Zx. rewrite Sx, Tx.
    destruct (hit_distance_sign px dx _ k Zx ltac:(lra) eq_refl Hk) as (D0 & D1).
    unfold Float.of_int; cbn [round exact_format]. cbn [Float.sub Float.add round exact_format].
    rewrite div_Fin by assumption. cbn [Float.mul Float.add Float.floor Float.sub round exact_format].
    do 2 eexists. split; [reflexivity |].
    split; [exact D0 |]. split; [intros Lx _; exact (D1 Lx) |].
    apply frac_range.
  - apply Qis_zero_false in Zy. rewrite Sy, Ty.
    destruct (hit_distance_sign py dy _ k Zy ltac:(lra) eq_refl Hk) as (D0 & D1).
    unfold Float.of_int; cbn [round exact_format]. cbn [Float.sub Float.add round exact_format].
    rewrite div_Fin by assumption. cbn [Float.mul Float.add Float.floor Float.sub round exact_format].
    do 2 eexists. split; [reflexivity |].
    split; [exact D0 |]. split; [intros _ Ly; exact (D1 Ly) |].
    apply frac_range.
Qed.

End ClosedMap.



(** *** A ray along a grid axis *)

Section AlongAxis.

Variable grid : list string.
Variables x_step y_step : dda_coord.

(* the x component of the direction is 0: every step is a step in y *)
Lemma cast_ray_loop_along_y (k : nat) :
  forall (fuel : nat) (x y : dda_coord),
    distance x = PInf ->
    (forall j, 0 <= j < Z.of_nat k ->
       is_wall_i grid (mk_vec2 (on_grid x) (on_grid y + j * on_grid y_step)) = Some false) ->
    is_wall_i grid (mk_vec2 (on_grid x) (on_grid y + Z.of_nat k * on_grid y_step))
    = Some true ->
    (k < fuel)%nat ->
    cast_ray_loop grid fuel false x y x_step y_step =
    Some (false, Float.of_int (on_grid y + Z.of_nat k * on_grid y_step)).
Proof.
  induction k as [| k IH]; intros fuel x y Dx Open Wall Hfuel;
    (destruct fuel as [| fuel]; [lia |]); cbn [cast_ray_loop].
  - rewrite Z.mul_0_l, Z.add_0_r in Wall. rewrite Wall. cbn [bind].
    now rewrite Z.mul_0_l, Z.add_0_r.
  - pose proof (Open 0 ltac:(lia)) as W0.
    rewrite Z.mul_0_l, Z.add_0_r in W0. rewrite W0. cbn [bind].
    rewrite Dx. cbn [Float.ltb].
    rewrite (IH fuel x (dda_add y y_step) Dx); cbn [dda_add on_grid].
    + do 2 f_equal. f_equal. lia.
    + intros j Hj. rewrite <- (Open (j + 1)) by lia. do 2 f_equal. lia.
    + rewrite <- Wall. do 2 f_equal. lia.
    + lia.
Qed.

(* the y component of the direction is 0: every step is a step in x *)
Lemma cast_ray_loop_along_x (k : nat) :
  forall (fuel : nat) (x y : dda_coord),
    distance y = PInf ->
    (exists q, distance x = Fin q) -> (exists q, distance x_step = Fin q) ->
    (forall j, 0 <= j < Z.of_nat k ->
       is_wall_i grid (mk_vec2 (on_grid x + j * on_grid x_step) (on_grid y)) = Some false) ->
    is_wall_i grid (mk_vec2 (on_grid x + Z.of_nat k * on_grid x_step) (on_grid y))
    = Some true ->
    (k < fuel)%nat ->
    cast_ray_loop grid fuel true x y x_step y_step =
    Some (true, Float.of_int (on_grid x + Z.of_nat k * on_grid x_step)).
Proof.
  induction k as [| k IH]; intros fuel x y Dy (qx & Dx) (qs & Ds) Open Wall Hfuel;
    (destruct fuel as [| fuel]; [lia |]); cbn [cast_ray_loop].
  - rewrite Z.mul_0_l, Z.add_0_r in Wall. rewrite Wall. cbn [bind].
    now rewrite Z.mul_0_l, Z.add_0_r.
  - pose proof (Open 0 ltac:(lia)) as W0.
    rewrite Z.mul_0_l, Z.add_0_r in W0. rewrite W0. cbn [bind].
    rewrite Dx, Dy. cbn [Float.ltb].
    rewrite (IH fuel (dda_add x x_step) y Dy); cbn [dda_add on_grid distance].
    + do 2 f_equal. f_equal. lia.
    + rewrite Dx, Ds. now exists (qx + qs)%Q.
    + now exists qs.
    + intros j Hj. rewrite <- (Open (j + 1)) by lia. do 2 f_equal. lia.
    + rewrite <- Wall. do 2 f_equal. lia.
    + lia.
Qed.

(* the same, from the first test of the loop, which clears [is_x_step] *)
Lemma cast_ray_along_x (k : nat) (fuel : nat) (x y : dda_coord) :
  distance y = PInf ->
  (exists q, distance x = Fin q) -> (exists q, distance x_step = Fin q) ->
  (forall j, 0 <= j < Z.of_nat (S k) ->
     is_wall_i grid (mk_vec2 (on_grid x + j * on_grid x_step) (on_grid y)) = Some false) ->
  is_wall_i grid (mk_vec2 (on_grid x + Z.of_nat (S k) * on_grid x_step) (on_grid y))
  = Some true ->
  (S k < fuel)%nat ->
  cast_ray grid fuel x y x_step y_step =
  Some (true, Float.of_int (on_grid x + Z.of_nat (S k) * on_grid x_step)).
Proof.
  intros Dy (qx & Dx) (qs & Ds) Open Wall Hfuel.
  destruct fuel as [| fuel]; [lia |]. unfold cast_ray. cbn [cast_ray_loop].
  pose proof (Open 0 ltac:(lia)) as W0.
  rewrite Z.mul_0_l, Z.add_0_r in W0. rewrite W0. cbn [bind].
  rewrite Dx, Dy. cbn [Float.ltb].
  rewrite (cast_ray_loop_along_x k fuel (dda_add x x_step) y Dy);
    cbn [dda_add on_grid distance].
  - do 2 f_equal. f_equal. lia.
  - rewrite Dx, Ds. now exists (qx + qs)%Q.
  - now exists qs.
  - intros j Hj. rewrite <- (Open (j + 1)) by lia. do 2 f_equal. lia.
  - rewrite <- Wall. do 2 f_equal. lia.
  - lia.
Qed.

End AlongAxis.

Lemma frac_plus_null (p q : Q) : frac (p + q * 0) == frac p.
Proof.
  unfold frac.
  assert (E : Qfloor (p + q * 0) = Qfloor p) by (apply Qfloor_comp; ring).
  rewrite E. ring.
Qed.

(** C2.  A cast from a position in a cell, along a grid axis, toward a wall
    cell [k] cells ahead with open cells before it, whose face the ray meets
    at the distance [d]: the hit has the distance [d] and, for surface offset,
    the fractional part of the coordinate of the position across the axis. *)
Theorem axis_aligned_cast
  (grid : list string) (a : axis) (px py s d : Q) (c : vec2i) (k : Z) (fuel : nat) :
  to_vec2i (mk_vec2 (Fin px) (Fin py)) = Some c ->
  ~ s == 0 ->
  1 <= k ->
  (forall j, 0 <= j < k -> is_wall_i grid (ahead a c (j * step_sign s)) = Some false) ->
  is_wall_i grid (ahead a c (k * step_sign s)) = Some true ->
  coord a (mk_vec2 px py) + d * s == inject_Z (wall_face a c s k) ->
  (Z.to_nat k < fuel)%nat ->
  exists dist offset : Q,
    compute_wall_hit grid fuel (mk_vec2 (Fin px) (Fin py)) (along a s)
    = Some {| hit_distance := Fin dist; tx := Fin offset |} /\
    dist == d /\ offset == frac (across a (mk_vec2 px py)).
Proof.
  intros Hc Hs Hk Open Wall Hd Hfuel.
  destruct (to_vec2i_Some _ _ _ Hc) as (Ex & Ey). destruct c as [gx gy].
  cbn [vx vy] in Ex, Ey.
  assert (Z0 : (0 : Q) == 0) by reflexivity.
  unfold compute_wall_hit, wall_face in *.
  destruct a; cbn [along ahead coord across vx vy] in *.
  - (* along x *)
    rewrite (initialize_dda_direction_nonzero px s gx Ex Hs).
    rewrite (initialize_dda_direction_zero py 0 gy Ey Z0). cbn [bind].
    destruct (Z.to_nat k) as [| k'] eqn:Ek; [lia |].
    assert (Kk : k = Z.of_nat (S k')) by lia. rewrite Kk in *.
    rewrite (cast_ray_along_x grid _ _ k' fuel); cbn [on_grid distance]; try assumption;
      try (eexists; reflexivity).
    cbn [bind]. unfold Float.of_int; cbn [round exact_format]. cbn [Float.sub Float.add round exact_format].
    rewrite div_Fin by assumption.
    cbn [Float.mul Float.add Float.floor Float.sub round exact_format].
    do 2 eexists. split; [reflexivity |]. split.
    + apply face_distance; assumption.
    + apply frac_plus_null.
  - (* along y *)
    rewrite (initialize_dda_direction_zero px 0 gx Ex Z0).
    rewrite (initialize_dda_direction_nonzero py s gy Ey Hs). cbn [bind].
    unfold cast_ray.
    rewrite (cast_ray_loop_along_y grid _ _ (Z.to_nat k) fuel); cbn [on_grid distance];
      try reflexivity; try assumption;
      try (rewrite Z2Nat.id by lia; assumption).
    cbn [bind]. unfold Float.of_int; cbn [round exact_format]. cbn [Float.sub Float.add round exact_format].
    rewrite div_Fin by assumption.
    cbn [Float.mul Float.add Float.floor Float.sub round exact_format].
    rewrite Z2Nat.id by lia.
    do 2 eexists. split; [reflexivity |]. split.
    + apply face_distance; assumption.
    + apply frac_plus_null.
Qed.

Lemma axis_aligned_cast_witness :
  exists dist offset : Q,
    compute_wall_hit maze 3 (mk_vec2 (Fin (11 # 2)) (Fin 17)) (along AxisY 1)
    = Some {| hit_distance := Fin dist; tx := Fin offset |} /\
    dist == 2 /\ offset == frac (across AxisY (mk_vec2 (11 # 2) 17%Q)).
Proof.
  apply (axis_aligned_cast maze AxisY (11 # 2) 17 1 2 (mk_vec2 5 17) 2 3).
  - reflexivity.
  - discriminate.
  - lia.
  - intros j Hj. assert (J : j = 0 \/ j = 1) by lia.
    destruct J as [-> | ->]; reflexivity.
  - reflexivity.
  - reflexivity.
  - vm_compute. lia.
Defined.

(** ** Moves inside a closed map *)

Section MovesDefined.

Variable grid : list string.
Variables width height : Z.
Hypothesis closed : closed_map grid width height = true.
Hypothesis width_int : width <= Float.int_max.
Hypothesis height_int : height <= Float.int_max.

(* the wall test reads inside the array for every point of the map *)
Lemma is_wall_defined (qx qy : Q) :
  (0 <= qx)%Q -> (qx < inject_Z width)%Q ->
  (0 <= qy)%Q -> (qy < inject_Z height)%Q ->
  exists wall : bool, is_wall grid (mk_vec2 (Fin qx) (Fin qy)) = Some wall.
Proof.
  intros X0 X1 Y0 Y1.
  destruct (Qtrunc_bounds qx X0) as (Gx & _ & _).
  destruct (Qtrunc_bounds qy Y0) as (Gy & _ & _).
  pose proof (Qtrunc_lt_inject qx width X0 X1) as Lx.
  pose proof (Qtrunc_lt_inject qy height Y0 Y1) as Ly.
  unfold is_wall, to_vec2i. cbn [vx vy].
  rewrite !to_int_Fin by (unfold Float.int_min; lia). cbn [bind].
  destruct (closed_map_cell grid width height (Float.Qtrunc qx) (Float.Qtrunc qy)
              closed ltac:(lia) ltac:(lia)) as [W | (W & _)];
    rewrite W; eexists; reflexivity.
Qed.

(* so a move to a point of the map returns a player *)
Lemma move_defined (p : player) (px py dx dy : Q) :
  pos_ p = mk_vec2 (Fin px) (Fin py) ->
  (0 <= px + dx)%Q -> (px + dx < inject_Z width)%Q ->
  (0 <= py + dy)%Q -> (py + dy < inject_Z height)%Q ->
  exists p' : player, move grid p (mk_vec2 (Fin dx) (Fin dy)) = Some p'.
Proof.
  intros Hp X0 X1 Y0 Y1. unfold move, vadd. rewrite Hp. cbn [vx vy Float.add round exact_format].
  destruct (is_wall_defined _ _ X0 X1 Y0 Y1) as (wall & ->). cbn [bind].
  eexists; reflexivity.
Qed.

End MovesDefined.

(** ** The first frame *)

(* The player starts at (5, 5) and looks along y: the ray of the middle
   column meets the border, 14 cells away, at a corner of its cell, and with
   blocky edges the column is 8 rows of ceiling, 3 rows of wall drawn with the
   edge glyph and 9 rows of floor. *)
Example first_cast :
  exists dist offset : Q,
    compute_wall_hit maze 41 (pos initial_player)
      (line_of_sight initial_player (Fin (1 # 2)))
    = Some {| hit_distance := Fin dist; tx := Fin offset |} /\
    dist == 14 /\ offset == 0.
Proof. do 2 eexists. split; [vm_compute; reflexivity |]. split; reflexivity. Qed.

Example first_column :
  draw_column 0 20 {| hit_distance := Fin 14; tx := Fin 0 |} true
  = Some (List.map (print 0 space_glyph false) (iota_view 0 8)
          ++ List.map (print 0 edge_glyph true) (iota_view 8 11)
          ++ List.map (print 0 floor_glyph false) (iota_view 11 20)).
Proof. vm_compute. reflexivity. Qed.

(** * Further properties *)

(** ** The rows of a column *)

Lemma iota_view_nil (lo hi : Z) : hi <= lo -> iota_view lo hi = [].
Proof.
  intros H. unfold iota_view. replace (Z.to_nat (hi - lo)) with 0%nat by lia.
  reflexivity.
Qed.

Lemma iota_view_cons (lo hi : Z) :
  lo < hi -> iota_view lo hi = lo :: iota_view (lo + 1) hi.
Proof.
  intros H. unfold iota_view.
  replace (Z.to_nat (hi - lo)) with (S (Z.to_nat (hi - (lo + 1)))) by lia.
  cbn [List.seq List.map]. f_equal; [lia |].
  rewrite <- seq_shift, map_map. apply map_ext. intros i. lia.
Qed.

Lemma iota_view_app (a b c : Z) :
  a <= b -> b <= c -> iota_view a b ++ iota_view b c = iota_view a c.
Proof.
  intros Hab Hbc.
  remember (Z.to_nat (b - a)) as n eqn:En. revert a Hab En.
  induction n as [| n IH]; intros a Hab En.
  - assert (a = b) by lia. subst a. now rewrite iota_view_nil by lia.
  - rewrite (iota_view_cons a b), (iota_view_cons a c) by lia.
    cbn [app]. f_equal. apply IH; lia.
Qed.

Lemma iota_view_NoDup (lo hi : Z) : NoDup (iota_view lo hi).
Proof.
  unfold iota_view. apply Injective_map_NoDup; [| apply seq_NoDup].
  intros i j E. lia.
Qed.

(** X1.  The rows [block_between(min, max)] are the rows from [min] to
    [max], [max] excluded, that are on the display, each once. *)
Theorem block_between_rows (H lo hi : Z) :
  NoDup (block_between H lo hi) /\
  (forall r, In r (block_between H lo hi) <-> (lo <= r < hi /\ 0 <= r < H)).
Proof.
  split; [apply iota_view_NoDup |].
  intros r. unfold block_between. split.
  - intros Hr. apply iota_view_bounds in Hr. lia.
  - intros Hr. apply iota_view_In. lia.
Qed.

(* the value clamped to the display *)
Lemma block_between_clamped (H lo hi : Z) :
  0 <= H ->
  block_between H lo hi = iota_view (Z.min H (Z.max 0 lo)) (Z.min H (Z.max 0 hi)).
Proof.
  intros HH. unfold block_between.
  destruct (Z.lt_ge_cases (Z.min H (Z.max 0 lo)) (Z.min H (Z.max 0 hi))) as [Hlt | Hge].
  - f_equal; lia.
  - rewrite !iota_view_nil by lia. reflexivity.
Qed.

Lemma rows_print (x : Z) (c : string) (invert : bool) (l : list Z) :
  rows (List.map (print x c invert) l) = l.
Proof.
  unfold rows. rewrite map_map. cbn [print w_row]. apply map_id.
Qed.

(* the rows that [draw_column] prints at, in the order it prints them *)
Lemma draw_column_rows (x H : Z) (hit : wall_hit) (is_blocky : bool)
  (ws : list cell_write) :
  draw_column x H hit is_blocky = Some ws ->
  exists g : column_layout,
    layout H hit is_blocky = Some g /\
    rows ws =
      block_between H 0 (wall_top g)
      ++ block_between H (wall_start g) (wall_bottom g)
      ++ block_between H (floor_start g) H
      ++ (if negb is_blocky && (0 <=? wall_top g)
          then [wall_top g; wall_bottom g] else []).
Proof.
  unfold draw_column. destruct (layout H hit is_blocky) as [g |]; [| discriminate].
  cbn [bind]. destruct (draw_caps x is_blocky g) as [caps |] eqn:C; [| discriminate].
  cbn [bind]. intros [= <-]. exists g. split; [reflexivity |].
  unfold draw_blocks, rows. rewrite !map_app. fold (rows caps).
  change (List.map w_row) with rows. rewrite !rows_print, <- !app_assoc.
  do 3 f_equal.
  unfold draw_caps in C. destruct (negb is_blocky && (0 <=? wall_top g)).
  - destruct (fractional_block _); [| discriminate C]. cbn [bind] in C.
    destruct (fractional_block _); [| discriminate C]. cbn [bind] in C.
    injection C as <-. reflexivity.
  - injection C as <-. reflexivity.
Qed.

Lemma quot_2_negative (m : Z) : m < 0 -> m <= m ÷ 2 <= 0.
Proof.
  intros Hm. pose proof (Z.quot_rem' m 2) as E.
  pose proof (Z.rem_bound_pos_neg m 2 ltac:(lia) ltac:(lia)). lia.
Qed.

Lemma quot_2_small (m : Z) : 0 <= m <= 1 -> m ÷ 2 = 0.
Proof.
  intros Hm. apply Z.quot_small. lia.
Qed.

(* the layout of a hit in front of the player *)
Lemma layout_positive (H : Z) (d : Q) (t : float) (is_blocky : bool) (g : column_layout) :
  0 <= H -> (0 < d)%Q -> (inject_Z H / d < inject_Z (2 ^ 31))%Q ->
  layout H {| hit_distance := Fin d; tx := t |} is_blocky = Some g ->
  0 <= num_whole_chars g /\
  wall_top g = (H - num_whole_chars g) ÷ 2 - 1 /\
  wall_bottom g = wall_top g + num_whole_chars g + 2 /\
  wall_start g = wall_top g + (if is_blocky then 0 else 1) /\
  floor_start g = wall_bottom g + (if is_blocky then 0 else 1).
Proof.
  intros HH Hd Hmax L.
  assert (Hp : (0 <= inject_Z H / d)%Q).
  { apply Qle_shift_div_l; [assumption |].
    rewrite Qmult_0_l. change 0%Q with (inject_Z 0). now rewrite <- Zle_Qle. }
  destruct (Qtrunc_bounds _ Hp) as (Ht0 & _ & _).
  pose proof (Qtrunc_lt_inject _ _ Hp Hmax) as Ht1.
  rewrite layout_Fin in L;
    [| lra | unfold Float.int_min, Float.int_max; lia].
  cbv zeta in L. injection L as <-.
  cbn [num_whole_chars wall_top wall_bottom wall_start floor_start].
  rewrite rem_2_odd by assumption.
  repeat split. destruct is_blocky; [lia |]. destruct (Z.odd _) eqn:O; [| lia].
  assert (Float.Qtrunc (inject_Z H / d) <> 0) by (intros E; rewrite E in O; discriminate O).
  lia.
Qed.

(** X2.  With blocky edges, for a display height that is not negative and a
    hit at a distance above 0, [draw_column] prints at every row of the
    display once, from the top down: the ceiling, the wall and the floor leave
    no row out and share none. *)
Theorem blocky_column_covers_display (x H : Z) (d : Q) (t : float) :
  0 <= H -> (0 < d)%Q -> (inject_Z H / d < inject_Z (2 ^ 31))%Q ->
  exists ws : list cell_write,
    draw_column x H {| hit_distance := Fin d; tx := t |} true = Some ws /\
    rows ws = iota_view 0 H.
Proof.
  intros HH Hd Hmax.
  destruct (draw_column_defined x H d t true HH Hd Hmax) as (ws & E).
  exists ws. split; [exact E |].
  destruct (draw_column_rows _ _ _ _ _ E) as (g & L & ->).
  destruct (layout_positive H d t true g HH Hd Hmax L) as (Hn & Ht & Hb & Hs & Hf).
  cbn [negb andb]. rewrite app_nil_r, Hs, Hf, !Z.add_0_r.
  rewrite !block_between_clamped by lia.
  rewrite !iota_view_app by lia.
  f_equal; lia.
Qed.

Lemma blocky_column_covers_display_witness :
  exists ws : list cell_write,
    draw_column 0 20 {| hit_distance := Fin (3 # 2); tx := Fin 0 |} true = Some ws /\
    rows ws = iota_view 0 20.
Proof.
  apply (blocky_column_covers_display 0 20 (3 # 2) (Fin 0)).
  - lia.
  - reflexivity.
  - reflexivity.
Defined.

(** X3.  With smoothed edges, for a display height that is not negative and a
    hit at a distance above 0, when the display is not exactly two rows
    higher than the whole characters of the wall, [draw_column] prints at
    every row of the display once. *)
Theorem smooth_column_covers_display (x H : Z) (d : Q) (t : float) (g : column_layout) :
  0 <= H -> (0 < d)%Q -> (inject_Z H / d < inject_Z (2 ^ 31))%Q ->
  layout H {| hit_distance := Fin d; tx := t |} false = Some g ->
  H - num_whole_chars g <> 2 ->
  exists ws : list cell_write,
    draw_column x H {| hit_distance := Fin d; tx := t |} false = Some ws /\
    Permutation (rows ws) (iota_view 0 H).
Proof.
  intros HH Hd Hmax L Hne.
  destruct (draw_column_defined x H d t false HH Hd Hmax) as (ws & E).
  exists ws. split; [exact E |].
  destruct (draw_column_rows _ _ _ _ _ E) as (g' & L' & ->).
  rewrite L in L'. injection L' as <-.
  destruct (layout_positive H d t false g HH Hd Hmax L) as (Hn & Ht & Hb & Hs & Hf).
  cbn [negb andb]. rewrite Hs, Hf.
  destruct (Z.leb_spec 0 (wall_top g)) as [Top | Top].
  - (* the caps are on the display *)
    pose proof (cap_rows H (num_whole_chars g) Hn) as R. cbv zeta in R.
    rewrite <- Ht in R. specialize (R Top). rewrite <- Hb in R.
    destruct R as (R1 & R2 & R3).
    assert (Hlt : wall_bottom g < H) by lia.
    rewrite !block_between_clamped by lia.
    replace (Z.min H (Z.max 0 0)) with 0 by lia.
    replace (Z.min H (Z.max 0 (wall_top g))) with (wall_top g) by lia.
    replace (Z.min H (Z.max 0 (wall_top g + 1))) with (wall_top g + 1) by lia.
    replace (Z.min H (Z.max 0 (wall_bottom g))) with (wall_bottom g) by lia.
    replace (Z.min H (Z.max 0 (wall_bottom g + 1))) with (wall_bottom g + 1) by lia.
    replace (Z.min H (Z.max 0 H)) with H by lia.
    rewrite <- (iota_view_app 0 (wall_top g) H) by lia.
    rewrite (iota_view_cons (wall_top g) H) by lia.
    rewrite <- (iota_view_app (wall_top g + 1) (wall_bottom g) H) by lia.
    rewrite (iota_view_cons (wall_bottom g) H) by lia.
    apply Permutation_app_head.
    set (l2 := iota_view (wall_top g + 1) (wall_bottom g)).
    set (l3 := iota_view (wall_bottom g + 1) H).
    rewrite app_assoc.
    etransitivity; [apply Permutation_app_comm |]. cbn [app].
    apply perm_skip. apply Permutation_middle.
  - (* the wall is higher than the display *)
    assert (Hb' : H <= wall_bottom g).
    { destruct (Z.lt_ge_cases (H - num_whole_chars g) 0) as [Neg | Pos].
      - pose proof (quot_2_negative _ Neg). lia.
      - assert (H - num_whole_chars g <= 1).
        { destruct (Z.le_gt_cases (H - num_whole_chars g) 1); [assumption |].
          pose proof (Z.quot_le_lower_bound (H - num_whole_chars g) 2 1). lia. }
        rewrite (quot_2_small (H - num_whole_chars g)) in Ht by lia. lia. }
    rewrite app_nil_r. rewrite !block_between_clamped by lia.
    replace (Z.min H (Z.max 0 0)) with 0 by lia.
    replace (Z.min H (Z.max 0 (wall_top g))) with 0 by lia.
    replace (Z.min H (Z.max 0 (wall_top g + 1))) with 0 by lia.
    replace (Z.min H (Z.max 0 (wall_bottom g))) with H by lia.
    replace (Z.min H (Z.max 0 (wall_bottom g + 1))) with H by lia.
    replace (Z.min H (Z.max 0 H)) with H by lia.
    rewrite !iota_view_app by lia. reflexivity.
Qed.

Lemma smooth_column_covers_display_witness :
  exists ws : list cell_write,
    draw_column 0 20 {| hit_distance := Fin (3 # 2); tx := Fin 0 |} false = Some ws /\
    Permutation (rows ws) (iota_view 0 20).
Proof.
  apply (smooth_column_covers_display 0 20 (3 # 2) (Fin 0)
           {| exact_wall_height := Fin (inject_Z 20 / (3 # 2));
              truncated_wall_height := 13; num_whole_chars := 12;
              wall_top := 3; wall_bottom := 17; wall_start := 4; floor_start := 18 |}).
  - lia.
  - reflexivity.
  - reflexivity.
  - reflexivity.
  - cbn. lia.
Defined.

(** ** A player on the face of a wall *)

(* a hit at the distance 0 has no projected height that an [int] can hold *)
Lemma draw_column_zero_distance (x H : Z) (d : Q) (t : float) (is_blocky : bool) :
  d == 0 -> draw_column x H {| hit_distance := Fin d; tx := t |} is_blocky = None.
Proof.
  intros Hd. apply Qis_zero_true in Hd.
  unfold draw_column, layout, Float.of_int. cbn [hit_distance Float.div round exact_format].
  rewrite Hd. destruct (Float.Qis_zero (inject_Z H)); [reflexivity |].
  destruct (Float.Qsign_neg (inject_Z H)); reflexivity.
Qed.

Lemma Qabs_inv_pos (d : Q) : ~ d == 0 -> (0 < Qabs (1 / d))%Q.
Proof.
  intros Hd.
  assert (N : ~ 1 / d == 0).
  { intros E. apply Hd. 
    assert (E' : d * (1 / d) == 1) by (field; assumption).
    rewrite E in E'. lra. }
  pose proof (Qabs_nonneg (1 / d)) as P.
  destruct (Qeq_dec (Qabs (1 / d)) 0) as [Z0 | NZ]; [| lra].
  exfalso. apply N. 
  pose proof (Qabs_Qle_condition (1 / d) 0) as C.
  destruct C as [C _]. specialize (C ltac:(lra)). lra.
Qed.

(* the traversal starts at distances that are not negative *)
Lemma start_distance_not_negative (p d q : Q) (g : Z) (start step : dda_coord) :
  Float.to_int (Fin p) = Some g -> (0 <= p)%Q -> ~ d == 0 ->
  initialize_dda_direction (Fin p) (Fin d) = Some (start, step) ->
  distance start = Fin q -> (0 <= q)%Q.
Proof.
  intros Hg Hp Hd I Dq.
  rewrite (initialize_dda_direction_nonzero p d g Hg Hd) in I.
  assert (E : Fin (Qabs (1 / d) * edge_offset p d g) = distance start).
  { change (distance {| on_grid := g;
                        distance := Fin (Qabs (1 / d) * edge_offset p d g) |}
            = distance start).
    congruence. }
  rewrite Dq in E.
  assert (E' : (Qabs (1 / d) * edge_offset p d g)%Q = q) by congruence.
  rewrite <- E'.
  pose proof (Qabs_inv_pos d Hd) as A.
  apply to_int_Some in Hg. destruct Hg as (q' & Hq' & Eq).
  assert (q' = p) by congruence. subst q'.
  destruct (Qtrunc_bounds p Hp) as (_ & Lo & Hi).
  rewrite Eq in Lo, Hi. rewrite inject_Z_plus in Hi.
  change (inject_Z 1) with 1%Q in Hi.
  assert (Off : (0 <= edge_offset p d g)%Q)
    by (unfold edge_offset; destruct (Float.Qsign_neg d); lra).
  apply Qmult_le_0_compat; lra.
Qed.

(** X4.  A player who stands on the grid line between its open cell and the
    wall cell at y - 1, and casts a ray with a negative y component: the first
    step of the traversal is the step in y, it reaches the wall, and the hit is
    at the distance 0.  The projected height of [draw_column] is then a
    division by 0, and its conversion to [int] is undefined: the column is not
    drawn. *)
Theorem cast_from_a_face_is_not_drawn
  (grid : list string) (px py dx dy : Q) (gx gy : Z) (fuel : nat)
  (i H : Z) (is_blocky : bool) :
  to_vec2i (mk_vec2 (Fin px) (Fin py)) = Some (mk_vec2 gx gy) ->
  (0 <= px)%Q -> py == inject_Z gy -> (dy < 0)%Q ->
  is_wall_i grid (mk_vec2 gx gy) = Some false ->
  is_wall_i grid (mk_vec2 gx (gy - 1)) = Some true ->
  (2 <= fuel)%nat ->
  exists (dist : Q) (offset : float),
    compute_wall_hit grid fuel (mk_vec2 (Fin px) (Fin py)) (mk_vec2 (Fin dx) (Fin dy))
    = Some {| hit_distance := Fin dist; tx := offset |} /\
    dist == 0 /\
    draw_column i H {| hit_distance := Fin dist; tx := offset |} is_blocky = None.
Proof.
  intros Hc Hpx Hpy Hdy Open Wall Hfuel.
  destruct (to_vec2i_Some _ _ _ Hc) as (Ex & Ey). cbn [vx vy] in Ex, Ey.
  assert (Ny : ~ dy == 0) by lra.
  assert (Sy : Float.Qsign_neg dy = true) by (now apply Qsign_neg_true).
  destruct (initialize_dda_direction_state px dx gx Ex)
    as (x_start & x_step & Ix & Gx & Tx & Ax).
  unfold compute_wall_hit. cbn [vx vy]. rewrite Ix.
  rewrite (initialize_dda_direction_nonzero py dy gy Ey Ny). cbn [bind].
  unfold step_sign, edge_offset. rewrite Sy.
  destruct fuel as [| [| fuel]]; try lia.
  unfold cast_ray. cbn [cast_ray_loop on_grid distance].
  rewrite Gx, Open. cbn [bind].
  assert (C : (distance x_start <? Fin (Qabs (1 / dy) * (py - inject_Z gy)))%f = false).
  { destruct (Float.Qis_zero dx) eqn:Zx; cbn in Ax.
    - rewrite Ax. reflexivity.
    - destruct Ax as ((qx & Qx) & _). rewrite Qx. apply ltb_Fin_false.
      setoid_replace (Qabs (1 / dy) * (py - inject_Z gy))%Q with 0%Q
        by (rewrite Hpy; ring).
      apply Qis_zero_false in Zx.
      exact (start_distance_not_negative px dx qx gx _ _ Ex Hpx Zx Ix Qx). }
  rewrite C. cbn [dda_add on_grid].
  replace (gy + -1) with (gy - 1) by lia. rewrite Wall. cbn [bind].
  unfold Float.of_int; cbn [round exact_format]. cbn [Float.sub Float.add round exact_format].
  rewrite div_Fin by assumption.
  change (Z.shiftr (1 - -1) 1) with 1.
  do 2 eexists. split; [reflexivity |].
  assert (D0 : (inject_Z (gy - 1) - py + inject_Z 1) / dy == 0).
  { unfold Zminus. rewrite inject_Z_plus, Hpy.
    change (inject_Z (- (1))) with (- (1))%Q. change (inject_Z 1) with 1%Q.
    field. assumption. }
  split; [exact D0 |]. apply draw_column_zero_distance. exact D0.
Qed.

Lemma cast_from_a_face_is_not_drawn_witness :
  exists (dist : Q) (offset : float),
    compute_wall_hit maze 2 (mk_vec2 (Fin 5) (Fin 1)) (mk_vec2 (Fin (3 # 5)) (Fin (- 4 # 5)))
    = Some {| hit_distance := Fin dist; tx := offset |} /\
    dist == 0 /\
    draw_column 7 24 {| hit_distance := Fin dist; tx := offset |} false = None.
Proof.
  apply (cast_from_a_face_is_not_drawn maze 5 1 (3 # 5) (- 4 # 5) 5 1 2 7 24 false).
  - reflexivity.
  - discriminate.
  - reflexivity.
  - reflexivity.
  - reflexivity.
  - reflexivity.
  - lia.
Defined.

(** ** The traversal follows the ray *)

Section Axis.

Variables p d : Q.
Hypothesis p_not_negative : (0 <= p)%Q.
Hypothesis d_not_null : ~ d == 0.

Lemma Qabs_inv_times : Qabs (1 / d) * d == inject_Z (step_sign d).
Proof.
  assert (E : (1 / d) * d == 1) by (field; assumption).
  unfold step_sign. destruct (Float.Qsign_neg d) eqn:S.
  - apply Qsign_neg_true in S.
    assert (N : (1 / d <= 0)%Q) by nra.
    rewrite (Qabs_neg _ N). change (inject_Z (-1)) with (- (1))%Q. lra.
  - apply Qsign_neg_false in S.
    assert (P : (0 <= 1 / d)%Q) by nra.
    rewrite (Qabs_pos _ P). change (inject_Z 1) with 1%Q. lra.
Qed.

Lemma crossing_times (k : Z) :
  crossing p d k * d ==
  inject_Z (step_sign d) * (edge_offset p d (Float.Qtrunc p) + inject_Z k).
Proof.
  unfold crossing. rewrite <- Qabs_inv_times. ring.
Qed.

Lemma crossing_succ (k : Z) : crossing p d (k + 1) == crossing p d k + Qabs (1 / d).
Proof.
  unfold crossing. rewrite inject_Z_plus. change (inject_Z 1) with 1%Q. ring.
Qed.


Lemma edge_offset_range :
  (0 <= edge_offset p d (Float.Qtrunc p))%Q /\ (edge_offset p d (Float.Qtrunc p) <= 1)%Q.
Proof.
  destruct (Qtrunc_bounds p p_not_negative) as (_ & Lo & Hi).
  rewrite inject_Z_plus in Hi. change (inject_Z 1) with 1%Q in Hi.
  unfold edge_offset. destruct (Float.Qsign_neg d); lra.
Qed.

Lemma crossing_first : (crossing p d (-1) <= 0)%Q /\ (0 <= crossing p d 0)%Q.
Proof.
  pose proof (Qabs_inv_pos d d_not_null) as A.
  destruct edge_offset_range as (O0 & O1).
  unfold crossing. change (inject_Z (-1)) with (- (1))%Q. change (inject_Z 0) with 0%Q.
  split.
  - setoid_replace (Qabs (1 / d) * (edge_offset p d (Float.Qtrunc p) + - (1)))%Q
      with (- (Qabs (1 / d) * (1 - edge_offset p d (Float.Qtrunc p))))%Q by ring.
    assert (0 <= Qabs (1 / d) * (1 - edge_offset p d (Float.Qtrunc p)))%Q
      by (apply Qmult_le_0_compat; lra).
    lra.
  - apply Qmult_le_0_compat; lra.
Qed.

(* between two crossings the ray is in the cell between the two grid lines *)
Lemma between_crossings (k : Z) (t : Q) :
  (crossing p d (k - 1) <= t)%Q -> (t <= crossing p d k)%Q ->
  (inject_Z (Float.Qtrunc p + k * step_sign d) <= ray_at p d t)%Q /\
  (ray_at p d t <= inject_Z (Float.Qtrunc p + k * step_sign d) + 1)%Q.
Proof.
  intros Lo Hi. unfold ray_at.
  pose proof (crossing_times (k - 1)) as E1. pose proof (crossing_times k) as E2.
  assert (Ek : inject_Z (k - 1) == inject_Z k - 1)
    by (unfold Zminus; rewrite inject_Z_plus; reflexivity).
  rewrite Ek in E1.
  rewrite inject_Z_plus, inject_Z_mult.
  unfold step_sign, edge_offset in *. destruct (Float.Qsign_neg d) eqn:S.
  - apply Qsign_neg_true in S. change (inject_Z (-1)) with (- (1))%Q in *.
    assert (M1 : (t * - d <= crossing p d k * - d)%Q)
      by (apply Qmult_le_compat_r; lra).
    assert (M2 : (crossing p d (k - 1) * - d <= t * - d)%Q)
      by (apply Qmult_le_compat_r; lra).
    lra.
  - apply Qsign_neg_false in S. change (inject_Z 1) with 1%Q in *.
    assert (M1 : (t * d <= crossing p d k * d)%Q)
      by (apply Qmult_le_compat_r; lra).
    assert (M2 : (crossing p d (k - 1) * d <= t * d)%Q)
      by (apply Qmult_le_compat_r; lra).
    lra.
Qed.

(* the distance that [compute_wall_hit] derives from the grid coordinate of
   the hit is the distance accumulated before the last step *)
Lemma hit_distance_crossing (k : Z) :
  (inject_Z (Float.Qtrunc p + k * step_sign d) - p
   + inject_Z (Z.shiftr (1 - step_sign d) 1)) / d
  == crossing p d (k - 1).
Proof.
  apply (Qmult_inj_r _ _ d d_not_null).
  rewrite crossing_times.
  setoid_replace ((inject_Z (Float.Qtrunc p + k * step_sign d) - p
                   + inject_Z (Z.shiftr (1 - step_sign d) 1)) / d * d)%Q
    with (inject_Z (Float.Qtrunc p + k * step_sign d) - p
          + inject_Z (Z.shiftr (1 - step_sign d) 1))%Q by (field; assumption).
  unfold Zminus. rewrite !inject_Z_plus, inject_Z_mult.
  change (inject_Z (- (1))) with (- (1))%Q.
  unfold step_sign, edge_offset. destruct (Float.Qsign_neg d).
  - change (Z.shiftr (1 + - -1) 1) with 1. change (inject_Z (-1)) with (- (1))%Q.
    change (inject_Z 1) with 1%Q. ring.
  - change (Z.shiftr (1 + - (1)) 1) with 0. change (inject_Z 1) with 1%Q.
    change (inject_Z 0) with 0%Q. ring.
Qed.

End Axis.

Section NearestWall.

Variable grid : list string.
Variables px py dx dy : Q.
Hypothesis px_not_negative : (0 <= px)%Q.
Hypothesis py_not_negative : (0 <= py)%Q.
Hypothesis dx_not_null : ~ dx == 0.
Hypothesis dy_not_null : ~ dy == 0.

Variables x_step y_step : dda_coord.
Hypothesis x_step_grid : on_grid x_step = step_sign dx.
Hypothesis y_step_grid : on_grid y_step = step_sign dy.
Hypothesis x_step_distance : distance x_step = Fin (Qabs (1 / dx)).
Hypothesis y_step_distance : distance y_step = Fin (Qabs (1 / dy)).

Lemma follows_ray_in_cell (is_x_step : bool) (x y : dda_coord) (kx ky : Z) (e t : Q) :
  follows_ray grid px py dx dy is_x_step x y kx ky e ->
  (e <= t)%Q -> (t <= crossing px dx kx)%Q -> (t <= crossing py dy ky)%Q ->
  in_cell (cell_after px py dx dy kx ky) (ray_at px dx t) (ray_at py dy t).
Proof.
  intros (_ & _ & _ & _ & _ & _ & X1 & _ & Y1 & _) Le Tx Ty.
  destruct (between_crossings px dx dx_not_null kx t
              ltac:(lra) Tx) as (A & B).
  destruct (between_crossings py dy dy_not_null ky t
              ltac:(lra) Ty) as (C & D).
  unfold in_cell, cell_after. cbn [vx vy]. auto.
Qed.

(* the loop keeps the state on the ray, up to the wall it stops at *)
Lemma cast_ray_loop_follows_ray :
  forall (fuel : nat) (is_x_step : bool) (x y : dda_coord) (kx ky : Z) (e : Q)
         (b : bool) (h : float),
    follows_ray grid px py dx dy is_x_step x y kx ky e ->
    cast_ray_loop grid fuel is_x_step x y x_step y_step = Some (b, h) ->
    exists (x' y' : dda_coord) (kx' ky' : Z) (e' : Q),
      follows_ray grid px py dx dy b x' y' kx' ky' e' /\
      is_wall_i grid (cell_after px py dx dy kx' ky') = Some true /\
      h = Float.of_int (if b then vx (cell_after px py dx dy kx' ky') else vy (cell_after px py dx dy kx' ky')).
Proof.
  induction fuel as [| fuel IH]; intros is_x_step x y kx ky e b h F; cbn [cast_ray_loop].
  - discriminate.
  - pose proof F as (Kx & Ky & Cell & (qx & Dx & Ex) & (qy & Dy & Ey) & E0 &
                     X1 & X2 & Y1 & Y2 & Before & Last).
    rewrite Cell.
    destruct (is_wall_i grid (cell_after px py dx dy kx ky)) as [[|] |] eqn:W;
      cbn [bind]; try discriminate.
    + intros [= <- <-]. exists x, y, kx, ky, e. split; [exact F |]. split; [exact W |].
      rewrite <- Cell. reflexivity.
    + rewrite Dx, Dy.
      assert (Cx : mk_vec2 (on_grid x + on_grid x_step) (on_grid y)
                   = cell_after px py dx dy (kx + 1) ky).
      { unfold cell_after in *. injection Cell as -> ->. rewrite x_step_grid.
        f_equal. lia. }
      assert (Cy : mk_vec2 (on_grid x) (on_grid y + on_grid y_step)
                   = cell_after px py dx dy kx (ky + 1)).
      { unfold cell_after in *. injection Cell as -> ->. rewrite y_step_grid.
        f_equal. lia. }
      pose proof (crossing_succ px dx kx) as Sx.
      pose proof (crossing_succ py dy ky) as Sy.
      pose proof (Qabs_inv_pos dx dx_not_null) as Ax.
      pose proof (Qabs_inv_pos dy dy_not_null) as Ay.
      destruct (Fin qx <? Fin qy)%f eqn:C.
      * (* a step in x: the ray leaves the cell across the next line of x *)
        apply ltb_Fin in C.
        apply (IH _ _ _ (kx + 1) ky (crossing px dx kx)).
        unfold follows_ray. cbn [dda_add on_grid distance].
        replace (kx + 1 - 1) with kx by lia.
        split; [lia |]. split; [lia |]. split; [exact Cx |].
        split. { exists (qx + Qabs (1 / dx))%Q. rewrite Dx, x_step_distance.
                 split; [reflexivity | lra]. }
        split. { exists qy. auto. }
        split; [lra |]. split; [lra |]. split; [lra |]. split; [lra |].
        split; [lra |]. split.
        -- intros t T0 T1. destruct (Qlt_le_dec t e) as [Old | New].
           ++ exact (Before t T0 Old).
           ++ exists (cell_after px py dx dy kx ky). split; [exact W |].
              apply (follows_ray_in_cell _ _ _ _ _ _ _ F); lra.
        -- right; left. split; [reflexivity |]. split; [lia | reflexivity].
      * (* a step in y *)
        apply ltb_Fin_false in C.
        apply (IH _ _ _ kx (ky + 1) (crossing py dy ky)).
        unfold follows_ray. cbn [dda_add on_grid distance].
        replace (ky + 1 - 1) with ky by lia.
        split; [lia |]. split; [lia |]. split; [exact Cy |].
        split. { exists qx. auto. }
        split. { exists (qy + Qabs (1 / dy))%Q. rewrite Dy, y_step_distance.
                 split; [reflexivity | lra]. }
        split; [lra |]. split; [lra |]. split; [lra |]. split; [lra |].
        split; [lra |]. split.
        -- intros t T0 T1. destruct (Qlt_le_dec t e) as [Old | New].
           ++ exact (Before t T0 Old).
           ++ exists (cell_after px py dx dy kx ky). split; [exact W |].
              apply (follows_ray_in_cell _ _ _ _ _ _ _ F); lra.
        -- right; right. split; [reflexivity |]. split; [lia | reflexivity].
Qed.

End NearestWall.

(** ** The cell of a hit *)


Section StillAxis.

Variable grid : list string.
Variables x_step y_step : dda_coord.



End StillAxis.


Section HitCell.

Variable grid : list string.
Variables width height : Z.
Hypothesis closed : closed_map grid width height = true.


End HitCell.




Lemma ray_at_crossing (p d : Q) (k : Z) :
  ~ d == 0 ->
  exists n : Z, ray_at p d (crossing p d k) == inject_Z n.
Proof.
  intros Hd. unfold ray_at. pose proof (crossing_times p d Hd k) as E.
  unfold step_sign, edge_offset in E. destruct (Float.Qsign_neg d).
  - exists (Float.Qtrunc p - k). unfold Zminus.
    rewrite inject_Z_plus, inject_Z_opp. change (inject_Z (-1)) with (- (1))%Q in E. lra.
  - exists (Float.Qtrunc p + 1 + k).
    rewrite !inject_Z_plus. change (inject_Z 1) with 1%Q in *. lra.
Qed.

Lemma on_grid_line_integer (v : Q) (n : Z) : v == inject_Z n -> on_grid_line v.
Proof.
  intros E. unfold on_grid_line. rewrite (Qfloor_comp _ _ E), Qfloor_Z. now symmetry.
Qed.

(** X5.  With exact arithmetic, in a closed map, from a position in an open
    cell and for a direction whose two components are not 0, the hit that
    [compute_wall_hit] returns is the first wall on the ray: every point of
    the ray before the hit distance is in an open cell, the point at the hit
    distance is on a wall cell, on a grid line of the axis of the last step,
    and the surface offset is the fractional part of its coordinate along that
    line.  In single precision the sums of the step distances are rounded, and
    a ray that grazes a corner can pass it on the other side
    ([cast_passes_a_grazed_corner]). *)
Theorem cast_hits_the_nearest_wall
  (grid : list string) (width height : Z) (px py dx dy : Q) (fuel : nat) :
  closed_map grid width height = true ->
  inside width height px py ->
  is_wall grid (mk_vec2 (Fin px) (Fin py)) = Some false ->
  ~ dx == 0 -> ~ dy == 0 ->
  (Z.to_nat (width + height) <= fuel)%nat ->
  exists (dist : Q) (offset : float) (c : vec2i),
    compute_wall_hit grid fuel (mk_vec2 (Fin px) (Fin py)) (mk_vec2 (Fin dx) (Fin dy))
    = Some {| hit_distance := Fin dist; tx := offset |} /\
    open_before grid px py dx dy dist /\
    is_wall_i grid c = Some true /\
    in_cell c (ray_at px dx dist) (ray_at py dy dist) /\
    ((on_grid_line (ray_at px dx dist) /\ offset = Fin (frac (ray_at py dy dist))) \/
     (on_grid_line (ray_at py dy dist) /\ offset = Fin (frac (ray_at px dx dist)))).
Proof.
  intros Closed In W Hx Hy Hfuel.
  destruct (inside_cell grid width height px py In W) as (Ex & Ey & Gx & Gy & Wc).
  destruct In as (X1 & _ & Y1 & _).
  assert (Px : (0 <= px)%Q) by lra. assert (Py : (0 <= py)%Q) by lra.
  set (x_start := {| on_grid := Float.Qtrunc px;
                     distance := Fin (Qabs (1 / dx) * edge_offset px dx (Float.Qtrunc px)) |}).
  set (y_start := {| on_grid := Float.Qtrunc py;
                     distance := Fin (Qabs (1 / dy) * edge_offset py dy (Float.Qtrunc py)) |}).
  set (x_step := {| on_grid := step_sign dx; distance := Fin (Qabs (1 / dx)) |}).
  set (y_step := {| on_grid := step_sign dy; distance := Fin (Qabs (1 / dy)) |}).
  destruct (cast_ray_loop_terminates grid width height Closed x_step y_step
              (step_sign_unit dx) (step_sign_unit dy) fuel false x_start y_start)
    as ([b h] & R).
  { cbn [x_start on_grid]. lia. }
  { cbn [y_start on_grid]. lia. }
  { cbn [x_start y_start x_step y_step on_grid]. unfold cells_left.
    destruct (step_sign dx =? 1), (step_sign dy =? 1); lia. }
  (* the start of the loop is on the ray *)
  assert (F0 : follows_ray grid px py dx dy false x_start y_start 0 0 0).
  { destruct (crossing_first px dx Px Hx) as (A1 & A2).
    destruct (crossing_first py dy Py Hy) as (B1 & B2).
    unfold follows_ray. change (0 - 1) with (-1).
    split; [lia |]. split; [lia |].
    split. { unfold cell_after. cbn [x_start y_start on_grid]. f_equal; lia. }
    split. { eexists. split; [reflexivity |]. unfold crossing.
             change (inject_Z 0) with 0%Q. ring. }
    split. { eexists. split; [reflexivity |]. unfold crossing.
             change (inject_Z 0) with 0%Q. ring. }
    split; [lra |]. split; [lra |]. split; [lra |]. split; [lra |]. split; [lra |].
    split; [| left; auto].
    intros t T0 T1. lra. }
  destruct (cast_ray_loop_follows_ray grid px py dx dy Hx Hy x_step y_step
              eq_refl eq_refl eq_refl eq_refl fuel false x_start y_start 0 0 0 b h F0 R)
    as (x' & y' & kx & ky & e & F & Wall & Hh).
  unfold compute_wall_hit. cbn [vx vy].
  rewrite (initialize_dda_direction_nonzero px dx _ Ex Hx).
  rewrite (initialize_dda_direction_nonzero py dy _ Ey Hy). cbn [bind].
  fold x_start y_start x_step y_step. unfold cast_ray. rewrite R. cbn [bind].
  pose proof F as (Kx & Ky & _ & _ & _ & E0 & Fx1 & Fx2 & Fy1 & Fy2 & Before & Last).
  destruct Last as [(-> & ->) | [(-> & K1 & Ee) | (-> & K1 & Ee)]].
  - (* the loop did not stop at the start cell, which is open *)
    exfalso. unfold cell_after in Wall.
    replace (Float.Qtrunc px + 0 * step_sign dx) with (Float.Qtrunc px) in Wall by lia.
    replace (Float.Qtrunc py + 0 * step_sign dy) with (Float.Qtrunc py) in Wall by lia.
    congruence.
  - (* the last step was a step in x *)
    rewrite Hh. unfold cell_after. cbn [vx vy x_step on_grid].
    unfold Float.of_int; cbn [round exact_format]. cbn [Float.sub Float.add round exact_format].
    rewrite div_Fin by assumption. cbn [Float.mul Float.add Float.floor Float.sub round exact_format].
    pose proof (hit_distance_crossing px dx Hx kx) as D.
    set (dist := ((inject_Z (Float.Qtrunc px + kx * step_sign dx) - px
                   + inject_Z (Z.shiftr (1 - step_sign dx) 1)) / dx)%Q) in *.
    exists dist, (Fin (frac (ray_at py dy dist))), (cell_after px py dx dy kx ky).
    split; [reflexivity |].
    split. { intros t T0 T1. apply Before; lra. }
    split; [exact Wall |].
    split. { apply (follows_ray_in_cell grid px py dx dy Hx Hy _ _ _ _ _ _ _ F); lra. }
    left. split; [| reflexivity].
    destruct (ray_at_crossing px dx (kx - 1) Hx) as (n & Hn).
    apply (on_grid_line_integer _ n). unfold ray_at in *. rewrite D. exact Hn.
  - (* the last step was a step in y *)
    rewrite Hh. unfold cell_after. cbn [vx vy y_step on_grid].
    unfold Float.of_int; cbn [round exact_format]. cbn [Float.sub Float.add round exact_format].
    rewrite div_Fin by assumption. cbn [Float.mul Float.add Float.floor Float.sub round exact_format].
    pose proof (hit_distance_crossing py dy Hy ky) as D.
    set (dist := ((inject_Z (Float.Qtrunc py + ky * step_sign dy) - py
                   + inject_Z (Z.shiftr (1 - step_sign dy) 1)) / dy)%Q) in *.
    exists dist, (Fin (frac (ray_at px dx dist))), (cell_after px py dx dy kx ky).
    split; [reflexivity |].
    split. { intros t T0 T1. apply Before; lra. }
    split; [exact Wall |].
    split. { apply (follows_ray_in_cell grid px py dx dy Hx Hy _ _ _ _ _ _ _ F); lra. }
    right. split; [| reflexivity].
    destruct (ray_at_crossing py dy (ky - 1) Hy) as (n & Hn).
    apply (on_grid_line_integer _ n). unfold ray_at in *. rewrite D. exact Hn.
Qed.

Lemma cast_hits_the_nearest_wall_witness :
  exists (dist : Q) (offset : float) (c : vec2i),
    compute_wall_hit maze 41 (mk_vec2 (Fin (11 # 2)) (Fin (21 # 4)))
      (mk_vec2 (Fin (3 # 5)) (Fin (- 4 # 5)))
    = Some {| hit_distance := Fin dist; tx := offset |} /\
    open_before maze (11 # 2) (21 # 4) (3 # 5) (- 4 # 5) dist /\
    is_wall_i maze c = Some true /\
    in_cell c (ray_at (11 # 2) (3 # 5) dist) (ray_at (21 # 4) (- 4 # 5) dist) /\
    ((on_grid_line (ray_at (11 # 2) (3 # 5) dist) /\
      offset = Fin (frac (ray_at (21 # 4) (- 4 # 5) dist))) \/
     (on_grid_line (ray_at (21 # 4) (- 4 # 5) dist) /\
      offset = Fin (frac (ray_at (11 # 2) (3 # 5) dist)))).
Proof.
  apply (cast_hits_the_nearest_wall maze maze_width maze_height).
  - vm_compute. reflexivity.
  - vm_compute. intuition discriminate.
  - vm_compute. reflexivity.
  - discriminate.
  - discriminate.
  - vm_compute. lia.
Defined.

(** ** The frame of the player *)

Section Frame.

Variables cosq sinq : Q -> Q.
Hypothesis cos2_sin2 : forall a, cosq a * cosq a + sinq a * sinq a == 1.

Lemma rotate_Fin (x y angle : Q) :
  rotate cosq sinq (mk_vec2 (Fin x) (Fin y)) (Fin angle) =
  mk_vec2 (Fin (x * cosq angle - y * sinq angle)) (Fin (x * sinq angle + y * cosq angle)).
Proof. reflexivity. Qed.

(* a rotation keeps the scalar product of two vectors *)
Lemma rotated_dot (ax ay bx by_ angle : Q) :
  dot (ax * cosq angle - ay * sinq angle) (ax * sinq angle + ay * cosq angle)
      (bx * cosq angle - by_ * sinq angle) (bx * sinq angle + by_ * cosq angle)
  == dot ax ay bx by_.
Proof.
  unfold dot. pose proof (cos2_sin2 angle) as P.
  set (c := cosq angle) in *. set (s := sinq angle) in *.
  transitivity ((ax * bx + ay * by_) * (c * c + s * s))%Q; [ring |].
  rewrite P. ring.
Qed.

(** X6.  [turn] keeps the frame of the player: the lengths of the forward and
    of the right vector and their scalar product are the same after the call,
    so a unit forward vector stays one and the right vector stays across it. *)
Theorem turn_keeps_frame (position : vec2f) (fx fy rx ry factor : Q) :
  let p := {| pos_ := position;
              forward_ := mk_vec2 (Fin fx) (Fin fy);
              right_ := mk_vec2 (Fin rx) (Fin ry) |} in
  exists fx' fy' rx' ry' : Q,
    forward_ (turn cosq sinq (Fin factor) p) = mk_vec2 (Fin fx') (Fin fy') /\
    right_ (turn cosq sinq (Fin factor) p) = mk_vec2 (Fin rx') (Fin ry') /\
    dot fx' fy' fx' fy' == dot fx fy fx fy /\
    dot rx' ry' rx' ry' == dot rx ry rx ry /\
    dot fx' fy' rx' ry' == dot fx fy rx ry.
Proof.
  intros p. unfold p, turn, turn_speed. cbn [forward_ right_ Float.mul round exact_format].
  rewrite !rotate_Fin. do 4 eexists.
  split; [reflexivity |]. split; [reflexivity |].
  repeat split; apply rotated_dot.
Qed.

End Frame.

Lemma turn_keeps_frame_witness :
  exists fx' fy' rx' ry' : Q,
    forward_ (turn circle_cos circle_sin (Fin 1) initial_player)
    = mk_vec2 (Fin fx') (Fin fy') /\
    right_ (turn circle_cos circle_sin (Fin 1) initial_player)
    = mk_vec2 (Fin rx') (Fin ry') /\
    dot fx' fy' fx' fy' == dot 0 1 0 1 /\
    dot rx' ry' rx' ry' == dot (8 # 10) 0 (8 # 10) 0 /\
    dot fx' fy' rx' ry' == dot 0 1 (8 # 10) 0.
Proof.
  exact (turn_keeps_frame circle_cos circle_sin circle_cos2_sin2
           (mk_vec2 (Fin 5) (Fin 5)) 0 1 (8 # 10) 0 1).
Defined.

Lemma line_of_sight_Fin (position : vec2f) (fx fy rx ry x : Q) :
  line_of_sight {| pos_ := position;
                   forward_ := mk_vec2 (Fin fx) (Fin fy);
                   right_ := mk_vec2 (Fin rx) (Fin ry) |} (Fin x) =
  mk_vec2 (Fin (fx + rx * (2 * x - 1))) (Fin (fy + ry * (2 * x - 1))).
Proof. reflexivity. Qed.

(* the square of the length of a line of sight, in a frame with a unit
   forward vector and a right vector across it *)
Lemma line_of_sight_length (fx fy rx ry inc : Q) :
  dot fx fy fx fy == 1 -> dot fx fy rx ry == 0 ->
  dot (fx + rx * inc) (fy + ry * inc) (fx + rx * inc) (fy + ry * inc)
  == 1 + dot rx ry rx ry * (inc * inc).
Proof.
  unfold dot. intros F O.
  transitivity ((fx * fx + fy * fy) + 2 * inc * (fx * rx + fy * ry)
                + (rx * rx + ry * ry) * (inc * inc))%Q; [ring |].
  rewrite F, O. ring.
Qed.

(** X7.  In a frame with a unit forward vector and a right vector across it
    that is not null, the line of sight of a screen coordinate is a unit
    vector at 0.5, the centre of the screen, and nowhere else. *)
Theorem line_of_sight_unit_at_centre (position : vec2f) (fx fy rx ry x : Q) :
  dot fx fy fx fy == 1 -> dot fx fy rx ry == 0 -> ~ dot rx ry rx ry == 0 ->
  exists a b : Q,
    line_of_sight {| pos_ := position;
                     forward_ := mk_vec2 (Fin fx) (Fin fy);
                     right_ := mk_vec2 (Fin rx) (Fin ry) |} (Fin x)
    = mk_vec2 (Fin a) (Fin b) /\
    (dot a b a b == 1 <-> x == (1 # 2)).
Proof.
  intros F O R. rewrite line_of_sight_Fin. do 2 eexists. split; [reflexivity |].
  rewrite (line_of_sight_length fx fy rx ry (2 * x - 1) F O).
  split.
  - intros E.
    assert (P : dot rx ry rx ry * ((2 * x - 1) * (2 * x - 1)) == 0) by lra.
    apply Qmult_integral in P. destruct P as [P | P]; [contradiction |].
    apply Qmult_integral in P. destruct P; lra.
  - intros E. rewrite E. ring.
Qed.

Lemma line_of_sight_unit_at_centre_witness :
  exists a b : Q,
    line_of_sight initial_player (Fin (1 # 2)) = mk_vec2 (Fin a) (Fin b) /\
    (dot a b a b == 1 <-> (1 # 2) == (1 # 2)).
Proof.
  apply (line_of_sight_unit_at_centre (mk_vec2 (Fin 5) (Fin 5)) 0 1 (8 # 10) 0 (1 # 2)).
  - reflexivity.
  - reflexivity.
  - discriminate.
Defined.

(** ** The event loop *)

Section EventLoop.

Variable grid : list string.
Variables width height : Z.
Hypothesis closed : closed_map grid width height = true.
Hypothesis width_int : width <= Float.int_max.
Hypothesis height_int : height <= Float.int_max.

Variables cosq sinq : Q -> Q.
Hypothesis cos2_sin2 : forall a, cosq a * cosq a + sinq a * sinq a == 1.

(* a move of at most one cell along each axis is defined and keeps the player
   in an open cell inside the map *)
Lemma move_well_placed (p : player) (mx my : Q) :
  well_placed grid width height p ->
  (-1 <= mx)%Q -> (mx <= 1)%Q -> (-1 <= my)%Q -> (my <= 1)%Q ->
  exists p' : player,
    move grid p (mk_vec2 (Fin mx) (Fin my)) = Some p' /\
    well_placed grid width height p'.
Proof.
  intros WP X0 X1 Y0 Y1.
  pose proof WP as (px & py & fx & fy & rx & ry & Hp & Hf & Hr & In & Wp & F & R & O).
  destruct In as (I1 & I2 & I3 & I4).
  assert (Ew : inject_Z (width - 1) == inject_Z width - 1)
    by (unfold Zminus; rewrite inject_Z_plus; reflexivity).
  assert (Eh : inject_Z (height - 1) == inject_Z height - 1)
    by (unfold Zminus; rewrite inject_Z_plus; reflexivity).
  assert (Cx0 : (0 <= px + mx)%Q) by lra. assert (Cx1 : (px + mx < inject_Z width)%Q) by lra.
  assert (Cy0 : (0 <= py + my)%Q) by lra. assert (Cy1 : (py + my < inject_Z height)%Q) by lra.
  pose proof (is_wall_Fin grid width height width_int height_int _ _ Cx0 Cx1 Cy0 Cy1) as Wc.
  destruct (Qtrunc_bounds _ Cx0) as (Gx & Lx & Ux).
  destruct (Qtrunc_bounds _ Cy0) as (Gy & Ly & Uy).
  pose proof (Qtrunc_lt_inject _ _ Cx0 Cx1) as Bx.
  pose proof (Qtrunc_lt_inject _ _ Cy0 Cy1) as By.
  unfold move, vadd. rewrite Hp. cbn [vx vy Float.add round exact_format]. rewrite Wc.
  destruct (closed_map_cell grid width height _ _ closed
              (conj Gx Bx) (conj Gy By)) as [Wall | (Open & Jx & Jy)].
  - rewrite Wall. cbn [bind negb]. exists p. split; [reflexivity | exact WP].
  - rewrite Open. cbn [bind negb]. eexists. split; [reflexivity |].
    exists (px + mx)%Q, (py + my)%Q, fx, fy, rx, ry. cbn [pos_ forward_ right_].
    split; [reflexivity |]. split; [exact Hf |]. split; [exact Hr |].
    split.
    { assert (T1 : (1 <= inject_Z (Float.Qtrunc (px + mx)))%Q)
        by (change 1%Q with (inject_Z 1); rewrite <- Zle_Qle; lia).
      assert (T2 : (inject_Z (Float.Qtrunc (px + mx) + 1) <= inject_Z (width - 1))%Q)
        by (rewrite <- Zle_Qle; lia).
      assert (T3 : (1 <= inject_Z (Float.Qtrunc (py + my)))%Q)
        by (change 1%Q with (inject_Z 1); rewrite <- Zle_Qle; lia).
      assert (T4 : (inject_Z (Float.Qtrunc (py + my) + 1) <= inject_Z (height - 1))%Q)
        by (rewrite <- Zle_Qle; lia).
      unfold inside. repeat split; lra. }
    split; [rewrite Wc; exact Open |]. auto.
Qed.

Lemma unit_component (a b n : Q) :
  dot a b a b == n -> (n <= 1)%Q -> (-1 <= a)%Q /\ (a <= 1)%Q /\ (-1 <= b)%Q /\ (b <= 1)%Q.
Proof.
  unfold dot. intros E N. repeat split; nra.
Qed.

Lemma half_step (a f : Q) :
  (-1 <= a)%Q -> (a <= 1)%Q -> (-1 <= f)%Q -> (f <= 1)%Q ->
  (-1 <= a * f * (1 # 2))%Q /\ (a * f * (1 # 2) <= 1)%Q.
Proof.
  intros. assert (-1 <= a * f)%Q by nra. assert (a * f <= 1)%Q by nra. lra.
Qed.

Lemma walk_well_placed (p : player) (f : Q) :
  well_placed grid width height p -> (-1 <= f)%Q -> (f <= 1)%Q ->
  exists p' : player,
    walk grid (Fin f) p = Some p' /\ well_placed grid width height p'.
Proof.
  intros WP F0 F1.
  pose proof WP as (px & py & fx & fy & rx & ry & Hp & Hf & Hr & In & Wp & F & R & O).
  unfold walk, vscale, run_speed. rewrite Hf. cbn [vx vy Float.mul round exact_format].
  destruct (unit_component fx fy 1 F ltac:(lra)) as (A & B & C & D).
  destruct (half_step fx f A B F0 F1). destruct (half_step fy f C D F0 F1).
  apply move_well_placed; assumption.
Qed.

Lemma strafe_well_placed (p : player) (f : Q) :
  well_placed grid width height p -> (-1 <= f)%Q -> (f <= 1)%Q ->
  exists p' : player,
    strafe grid (Fin f) p = Some p' /\ well_placed grid width height p'.
Proof.
  intros WP F0 F1.
  pose proof WP as (px & py & fx & fy & rx & ry & Hp & Hf & Hr & In & Wp & F & R & O).
  unfold strafe, vscale, run_speed. rewrite Hr. cbn [vx vy Float.mul round exact_format].
  destruct (unit_component rx ry (16 # 25) R ltac:(lra)) as (A & B & C & D).
  destruct (half_step rx f A B F0 F1). destruct (half_step ry f C D F0 F1).
  apply move_well_placed; assumption.
Qed.

Lemma turn_well_placed (p : player) (f : Q) :
  well_placed grid width height p ->
  well_placed grid width height (turn cosq sinq (Fin f) p).
Proof.
  intros (px & py & fx & fy & rx & ry & Hp & Hf & Hr & In & Wp & F & R & O).
  unfold turn, turn_speed. rewrite Hf, Hr. cbn [Float.mul round exact_format]. rewrite !rotate_Fin.
  do 6 eexists. cbn [pos_ forward_ right_].
  split; [exact Hp |]. split; [reflexivity |]. split; [reflexivity |].
  split; [exact In |]. split; [exact Wp |].
  rewrite !(rotated_dot cosq sinq cos2_sin2). auto.
Qed.

Lemma on_key_well_placed (key : Z) (g : game) :
  well_placed grid width height (plyr g) ->
  exists o : outcome,
    on_key grid cosq sinq key g = Some o /\
    match o with
    | Running g' => well_placed grid width height (plyr g')
    | Exited => True
    end.
Proof.
  intros WP. unfold on_key, events. cbn [List.find fst snd]. cbv beta.
  destruct (key_of "a" =? key).
  { cbn [snd]; cbv beta. eexists. split; [reflexivity |]. cbn [plyr]. now apply turn_well_placed. }
  destruct (key_of "d" =? key).
  { cbn [snd]; cbv beta. eexists. split; [reflexivity |]. cbn [plyr]. now apply turn_well_placed. }
  destruct (key_of "w" =? key).
  { cbn [snd]; cbv beta. destruct (walk_well_placed (plyr g) 1 WP ltac:(lra) ltac:(lra)) as (p' & -> & WP').
    eexists. split; [reflexivity |]. exact WP'. }
  destruct (key_of "s" =? key).
  { cbn [snd]; cbv beta. destruct (walk_well_placed (plyr g) (-1) WP ltac:(lra) ltac:(lra)) as (p' & -> & WP').
    eexists. split; [reflexivity |]. exact WP'. }
  destruct (key_of "m" =? key).
  { cbn [snd]; cbv beta. destruct (strafe_well_placed (plyr g) 1 WP ltac:(lra) ltac:(lra)) as (p' & -> & WP').
    eexists. split; [reflexivity |]. exact WP'. }
  destruct (key_of "n" =? key).
  { cbn [snd]; cbv beta. destruct (strafe_well_placed (plyr g) (-1) WP ltac:(lra) ltac:(lra)) as (p' & -> & WP').
    eexists. split; [reflexivity |]. exact WP'. }
  destruct (key_of "h" =? key).
  { cbn [snd]; cbv beta. eexists. split; [reflexivity |]. exact WP. }
  destruct (key_of "p" =? key).
  { cbn [snd]; cbv beta. eexists. split; [reflexivity |]. exact WP. }
  destruct (escape_key =? key).
  { cbn [snd]; cbv beta. eexists. split; [reflexivity |]. exact I. }
  eexists. split; [reflexivity |]. exact WP.
Qed.

(** X8.  With exact arithmetic and cos^2 + sin^2 = 1, in a closed map,
    whatever keys are pressed, the events of [main] are defined, so the wall
    test of a move never reads outside the map, and they keep the player in an
    open cell inside the map, with a unit forward vector and a right vector of
    length 0.8 across it.  In single precision the rotations are rounded and
    the lengths of the vectors drift; what holds there of the keys that do not
    turn the player is [moves_stay_in_the_map]. *)
Theorem event_loop_keeps_player_placed (keys : list Z) (g : game) :
  well_placed grid width height (plyr g) ->
  exists o : outcome,
    on_keys grid cosq sinq keys g = Some o /\
    match o with
    | Running g' => well_placed grid width height (plyr g')
    | Exited => True
    end.
Proof.
  revert g. induction keys as [| key keys IH]; intros g WP; cbn [on_keys].
  - eexists. split; [reflexivity | exact WP].
  - destruct (on_key_well_placed key g WP) as ([g' |] & -> & WP'); cbn [bind].
    + apply IH. exact WP'.
    + eexists. split; [reflexivity | exact I].
Qed.

(** X9.  In a closed map, for a player so placed and a display of at least
    two columns, the ray of every column is not the null vector, and its cast
    ends with a hit at a distance that is not negative. *)
Theorem scene_rays_hit (p : player) (screen_width i : Z) (fuel : nat) :
  well_placed grid width height p ->
  2 <= screen_width ->
  (Z.to_nat (width + height) <= fuel)%nat ->
  exists (a b dist : Q) (offset : float),
    line_of_sight p (Float.of_int i / Float.of_int (screen_width - 1))%f
    = mk_vec2 (Fin a) (Fin b) /\
    ~ (a == 0 /\ b == 0) /\
    compute_wall_hit grid fuel (pos p) (mk_vec2 (Fin a) (Fin b))
    = Some {| hit_distance := Fin dist; tx := offset |} /\
    (0 <= dist)%Q.
Proof.
  intros (px & py & fx & fy & rx & ry & Hp & Hf & Hr & In & Wp & F & R & O) Hw Hfuel.
  assert (Nw : ~ inject_Z (screen_width - 1) == 0).
  { change 0%Q with (inject_Z 0). rewrite inject_Z_injective. lia. }
  unfold Float.of_int; cbn [round exact_format]. rewrite div_Fin by assumption.
  destruct p as [position forward right]. cbn [pos_ forward_ right_ pos] in *.
  subst position forward right. rewrite line_of_sight_Fin.
  set (inc := (2 * (inject_Z i / inject_Z (screen_width - 1)) - 1)%Q).
  assert (Nn : ~ (fx + rx * inc == 0 /\ fy + ry * inc == 0)).
  { intros (A & B).
    pose proof (line_of_sight_length fx fy rx ry inc F O) as L.
    unfold dot in L at 1. rewrite A, B, R in L. nra. }
  destruct (compute_wall_hit_closed grid width height closed px py _ _ fuel
              In Wp Nn Hfuel) as (dist & t & E & D0 & _).
  exists (fx + rx * inc)%Q, (fy + ry * inc)%Q, dist, (Fin t). auto.
Qed.

End EventLoop.

Lemma initial_player_well_placed : well_placed maze maze_width maze_height initial_player.
Proof.
  exists 5%Q, 5%Q, 0%Q, 1%Q, (8 # 10), 0%Q.
  split; [reflexivity |]. split; [reflexivity |]. split; [reflexivity |].
  split; [vm_compute; intuition discriminate |].
  split; [reflexivity |]. split; [reflexivity |]. split; reflexivity.
Qed.

Lemma event_loop_keeps_player_placed_witness :
  exists o : outcome,
    on_keys maze circle_cos circle_sin
      [key_of "w"; key_of "a"; key_of "m"; -1; key_of "h"; key_of "s"; key_of "s"]
      initial_game
    = Some o /\
    match o with
    | Running g' => well_placed maze maze_width maze_height (plyr g')
    | Exited => True
    end.
Proof.
  apply (event_loop_keeps_player_placed maze maze_width maze_height maze_closed).
  - vm_compute. discriminate.
  - vm_compute. discriminate.
  - exact circle_cos2_sin2.
  - exact initial_player_well_placed.
Defined.

Lemma scene_rays_hit_witness :
  exists (a b dist : Q) (offset : float),
    line_of_sight initial_player (Float.of_int 17 / Float.of_int (80 - 1))%f
    = mk_vec2 (Fin a) (Fin b) /\
    ~ (a == 0 /\ b == 0) /\
    compute_wall_hit maze 41 (pos initial_player) (mk_vec2 (Fin a) (Fin b))
    = Some {| hit_distance := Fin dist; tx := offset |} /\
    (0 <= dist)%Q.
Proof.
  apply (scene_rays_hit maze maze_width maze_height maze_closed).
  - exact initial_player_well_placed.
  - lia.
  - vm_compute. lia.
Defined.

(** ** The scene *)

(** X11.  On a display of at least two columns, the ray of the first column
    is [forward - right] and the ray of the last column is [forward + right]:
    the columns span the field of view from edge to edge. *)
Theorem scene_edge_rays (position : vec2f) (fx fy rx ry : Q) (screen_width : Z) :
  2 <= screen_width ->
  let p := {| pos_ := position;
              forward_ := mk_vec2 (Fin fx) (Fin fy);
              right_ := mk_vec2 (Fin rx) (Fin ry) |} in
  veq (line_of_sight p (Float.of_int 0 / Float.of_int (screen_width - 1))%f)
      (vsub (forward_ p) (right_ p)) /\
  veq (line_of_sight p
         (Float.of_int (screen_width - 1) / Float.of_int (screen_width - 1))%f)
      (vadd (forward_ p) (right_ p)).
Proof.
  intros Hw p.
  assert (Nw : ~ inject_Z (screen_width - 1) == 0).
  { change 0%Q with (inject_Z 0). rewrite inject_Z_injective. lia. }
  unfold Float.of_int; cbn [round exact_format]. rewrite !div_Fin by assumption.
  unfold p. rewrite !line_of_sight_Fin.
  unfold veq, vsub, vadd. cbn [forward_ right_ vx vy Float.sub Float.add feq round exact_format].
  change (inject_Z 0) with 0%Q.
  repeat split; field; assumption.
Qed.

Lemma scene_edge_rays_witness :
  veq (line_of_sight initial_player (Float.of_int 0 / Float.of_int (80 - 1))%f)
      (vsub (forward_ initial_player) (right_ initial_player)) /\
  veq (line_of_sight initial_player (Float.of_int (80 - 1) / Float.of_int (80 - 1))%f)
      (vadd (forward_ initial_player) (right_ initial_player)).
Proof.
  apply (scene_edge_rays (mk_vec2 (Fin 5) (Fin 5)) 0 1 (8 # 10) 0 80). lia.
Defined.

(** ** The map *)

(* the lines of the map are printed from the row [i - 1] up *)
Lemma print_lines_nth (lines : list string) :
  forall (i : Z) (k : nat) (line : string),
    nth_error lines k = Some line ->
    nth_error (print_lines i lines) k
    = Some {| t_col := 0; t_row := i - 1 - Z.of_nat k; t_text := line |}.
Proof.
  induction lines as [| l lines IH]; intros i k line; destruct k as [| k];
    cbn [nth_error print_lines]; try discriminate.
  - intros [= ->]. do 2 f_equal. lia.
  - intros E. rewrite (IH (i - 1) k line E). do 2 f_equal. lia.
Qed.

Section Map.

Variable grid : list string.
Variable atan2f : float -> float -> float.

(* [std::atan2] returns an angle between minus pi and pi *)
Hypothesis atan2_range :
  forall y x : Q, exists r : Q,
    atan2f (Fin y) (Fin x) = Fin r /\
    (- (13176795 # 4194304) <= r)%Q /\ (r <= (13176795 # 4194304))%Q.

Lemma dir_index_range (position : vec2f) (fx fy rx ry : Q) :
  exists index : Z,
    dir_index atan2f {| pos_ := position;
                        forward_ := mk_vec2 (Fin fx) (Fin fy);
                        right_ := mk_vec2 (Fin rx) (Fin ry) |} = Some index /\
    0 <= index < 8.
Proof.
  unfold dir_index. rewrite line_of_sight_Fin. unfold to_radians. cbn [vx vy].
  destruct (atan2_range (fy + ry * (2 * (1 # 2) - 1)) (fx + rx * (2 * (1 # 2) - 1)))
    as (r & -> & R0 & R1).
  unfold pi. cbn [Float.add Float.mul round exact_format].
  rewrite !div_Fin by discriminate. cbn [Float.add Float.mul round exact_format].
  set (v := (((13176795 # 4194304) / 16
              + ((13176795 # 4194304) + r) / ((13176795 # 4194304) * 2)) * 8)%Q).
  assert (V : v == (13176795 # 8388608) + 4 + r * (16777216 # 13176795)).
  { unfold v. field. }
  assert (S : (0 <= r * (16777216 # 13176795) + 4)%Q /\
              (r * (16777216 # 13176795) <= 4)%Q) by (split; lra).
  assert (V0 : (0 <= v)%Q) by lra.
  destruct (Qtrunc_bounds v V0) as (T0 & _ & Thi).
  assert (T1 : 1 <= Float.Qtrunc v).
  { assert (L : (inject_Z 1 < inject_Z (Float.Qtrunc v + 1))%Q)
      by (change (inject_Z 1) with 1%Q; lra).
    rewrite <- Zlt_Qlt in L. lia. }
  assert (T2 : Float.Qtrunc v < 10).
  { apply Qtrunc_lt_inject; [assumption |]. change (inject_Z 10) with 10%Q. lra. }
  rewrite to_int_Fin by (unfold Float.int_min, Float.int_max; lia).
  cbn [bind]. eexists. split; [reflexivity |].
  pose proof (Z.rem_bound_pos (7 + Float.Qtrunc v) 8 ltac:(lia) ltac:(lia)). lia.
Qed.

(** X12.  For a player with a finite position in a cell and finite vectors,
    [draw_map] is defined: the arrow it prints is read inside the table of 8
    arrows, and is printed at the column of the cell of the player, in the row
    where the line of the map of that cell is printed, so over the character
    that the wall test reads for the player. *)
Theorem map_arrow_on_player_cell (px py fx fy rx ry : Q) (c : vec2i) (row : string) :
  let p := {| pos_ := mk_vec2 (Fin px) (Fin py);
              forward_ := mk_vec2 (Fin fx) (Fin fy);
              right_ := mk_vec2 (Fin rx) (Fin ry) |} in
  to_vec2i (pos p) = Some c ->
  0 <= vy c ->
  nth_error grid (Z.to_nat (vy c)) = Some row ->
  exists (lines : list text_write) (arrow : string) (index : nat),
    draw_map grid atan2f p
    = Some (lines, print (vx c) arrow false (maze_height - vy c - 1)) /\
    nth_error dir_chars index = Some arrow /\
    nth_error lines (Z.to_nat (vy c))
    = Some {| t_col := 0; t_row := maze_height - vy c - 1; t_text := row |}.
Proof.
  intros p Hc Hy Hrow.
  destruct (dir_index_range (mk_vec2 (Fin px) (Fin py)) fx fy rx ry) as (index & I & R).
  fold p in I. unfold draw_map. rewrite Hc, I. cbn [bind].
  destruct (Z.ltb_spec index 0) as [Neg | _]; [lia |].
  destruct (nth_error dir_chars (Z.to_nat index)) as [arrow |] eqn:A.
  - cbn [bind]. exists (print_lines maze_height grid), arrow, (Z.to_nat index).
    split; [reflexivity |]. split; [exact A |].
    rewrite (print_lines_nth grid maze_height _ row Hrow).
    do 2 f_equal. lia.
  - apply nth_error_None in A. cbn [dir_chars List.length] in A. lia.
Qed.

End Map.

Lemma atan2_null_range (y x : Q) :
  exists r : Q,
    (fun _ _ : float => Fin 0) (Fin y) (Fin x) = Fin r /\
    (- (13176795 # 4194304) <= r)%Q /\ (r <= (13176795 # 4194304))%Q.
Proof. exists 0%Q. split; [reflexivity |]. split; discriminate. Qed.

Lemma map_arrow_on_player_cell_witness :
  exists (lines : list text_write) (arrow : string) (index : nat),
    draw_map maze (fun _ _ => Fin 0)
      {| pos_ := mk_vec2 (Fin 5) (Fin 5);
         forward_ := mk_vec2 (Fin 0) (Fin 1);
         right_ := mk_vec2 (Fin (8 # 10)) (Fin 0) |}
    = Some (lines, print (vx (mk_vec2 5 5)) arrow false
                     (maze_height - vy (mk_vec2 5 5) - 1)) /\
    nth_error dir_chars index = Some arrow /\
    nth_error lines (Z.to_nat (vy (mk_vec2 5 5)))
    = Some {| t_col := 0; t_row := maze_height - vy (mk_vec2 5 5) - 1;
              t_text := "+      +++++   +++ ++" |}.
Proof.
  refine (map_arrow_on_player_cell maze (fun _ _ => Fin 0) atan2_null_range
            5 5 0 1 (8 # 10) 0 (mk_vec2 5 5) "+      +++++   +++ ++" _ _ _).
  - reflexivity.
  - cbn. lia.
  - reflexivity.
Defined.

(** ** The end of a row of the map *)

Lemma get_at_length (s : string) : String.get (String.length s) s = None.
Proof.
  induction s as [| c s IH]; [reflexivity | exact IH].
Qed.

(** X13.  One column past the last character of a row of the map, the wall
    test reads the terminator of the string and answers that the cell is not
    a wall; one column further it reads outside the string. *)
Theorem cell_past_row_end_is_open (grid : list string) (y : Z) (row : string) :
  row_at grid y = Some row ->
  is_wall_i grid (mk_vec2 (Z.of_nat (String.length row)) y) = Some false /\
  is_wall_i grid (mk_vec2 (Z.of_nat (String.length row) + 1) y) = None.
Proof.
  intros R. unfold is_wall_i. cbn [vx vy]. rewrite R. cbn [bind]. unfold wchar_at.
  split.
  - destruct (Z.ltb_spec (Z.of_nat (String.length row)) 0); [lia |].
    rewrite Nat2Z.id, get_at_length, Z.eqb_refl. reflexivity.
  - destruct (Z.ltb_spec (Z.of_nat (String.length row) + 1) 0); [lia |].
    replace (Z.to_nat (Z.of_nat (String.length row) + 1)) with (S (String.length row))
      by lia.
    assert (G : String.get (S (String.length row)) row = None).
    { clear. induction row as [| c s IH]; [reflexivity | exact IH]. }
    rewrite G.
    destruct (Z.eqb_spec (Z.of_nat (String.length row) + 1) (Z.of_nat (String.length row)));
      [lia | reflexivity].
Qed.

Lemma cell_past_row_end_is_open_witness :
  is_wall_i maze (mk_vec2 (Z.of_nat (String.length "+                   +")) 1)
  = Some false /\
  is_wall_i maze (mk_vec2 (Z.of_nat (String.length "+                   +") + 1) 1)
  = None.
Proof.
  apply (cell_past_row_end_is_open maze 1 "+                   +"). reflexivity.
Defined.

(** ** Keys, blocks and steps *)

Lemma unknown_key_changes_nothing_witness :
  on_key maze circle_cos circle_sin (-1) initial_game = Some (Running initial_game).
Proof.
  apply (unknown_key_changes_nothing maze circle_cos circle_sin (-1) initial_game).
  cbn. intuition discriminate.
Defined.

(** X15.  The blocks of [fractional_block] grow with the fraction: for two
    fractions between 0 and 1, the larger one reads the table at the same
    entry or further. *)
Theorem fractional_block_grows (x y : Q) :
  (0 <= x)%Q -> (x <= y)%Q -> (y <= 1)%Q ->
  exists i j : Z,
    fractional_index (Fin x) = Some i /\ fractional_index (Fin y) = Some j /\ i <= j.
Proof.
  intros X0 XY Y1.
  rewrite (fractional_index_Fin x X0 ltac:(lra)).
  rewrite (fractional_index_Fin y ltac:(lra) Y1).
  do 2 eexists. split; [reflexivity |]. split; [reflexivity |].
  rewrite !Qtrunc_nonneg by lra. apply Qfloor_resp_le. lra.
Qed.

Lemma fractional_block_grows_witness :
  exists i j : Z,
    fractional_index (Fin (1 # 4)) = Some i /\
    fractional_index (Fin (3 # 4)) = Some j /\ i <= j.
Proof.
  apply (fractional_block_grows (1 # 4) (3 # 4)); discriminate.
Defined.

End Exact.

(** * Single precision

    What follows is about [binary32], the arithmetic of the program. *)

Section SinglePrecision.

#[local] Existing Instance binary32.

Lemma draw_column_layout_witness :
  exists g : column_layout,
    layout 24 {| hit_distance := Fin (13421773 # 8388608); tx := Fin 0 |} true = Some g /\
    draw_column 3 24 {| hit_distance := Fin (13421773 # 8388608); tx := Fin 0 |} true =
      (caps <- draw_caps 3 true g ;;
       Some (draw_blocks 3 24
               {| hit_distance := Fin (13421773 # 8388608); tx := Fin 0 |} true g
             ++ caps)) /\
    exact_wall_height g =
      (Float.of_int 24
       / hit_distance {| hit_distance := Fin (13421773 # 8388608); tx := Fin 0 |})%f /\
    num_whole_chars g = spec_whole_chars 15 (negb true) /\
    wall_top g = (24 - num_whole_chars g) ÷ 2 - 1 /\
    wall_bottom g = wall_top g + num_whole_chars g + 2.
Proof.
  apply (draw_column_layout (laws := binary32_rounding)
           3 24 (13421773 # 8388608) 15 (Fin 0) true).
  - lia.
  - reflexivity.
  - vm_compute. reflexivity.
  - reflexivity.
Defined.

Lemma initial_player_placed : placed maze maze_width maze_height initial_player.
Proof.
  exists 5%Q, 5%Q, 0%Q, 1%Q, (13421773 # 16777216), 0%Q.
  split; [reflexivity |]. split; [reflexivity |]. split; [vm_compute; reflexivity |].
  split; [vm_compute; intuition discriminate |].
  split; [reflexivity |]. repeat split; discriminate.
Qed.

Lemma moves_stay_in_the_map_witness :
  exists o : outcome,
    on_keys maze cos_series sin_series
      [key_of "w"; key_of "m"; -1; key_of "h"; key_of "s"; key_of "s"; key_of "n"]
      initial_game
    = Some o /\
    match o with
    | Running g' =>
        placed maze maze_width maze_height (plyr g') /\
        forward_ (plyr g') = forward_ (plyr initial_game) /\
        right_ (plyr g') = right_ (plyr initial_game)
    | Exited => True
    end.
Proof.
  apply (moves_stay_in_the_map (laws := binary32_rounding)
           maze maze_width maze_height maze_closed).
  - vm_compute. discriminate.
  - vm_compute. discriminate.
  - exact initial_player_placed.
  - intros key Hk Ht. cbn in Hk, Ht.
    repeat (destruct Hk as [<- | Hk]; [destruct Ht as [Ht | [Ht | []]]; discriminate Ht |]).
    exact Hk.
Defined.

(** ** The rounding of the program *)

(* the literals of the program that are not values of [float] or [double],
   and the factor of [fractional_block] *)
Example literals_in_single_precision :
  round (1 # 10) = Fin (13421773 # 134217728) /\
  round (8 # 10) = Fin (13421773 # 16777216) /\
  round (1 # 1000000) = Fin (8796093 # 8796093022208) /\
  round_double (9 # 10) = Fin (8106479329266893 # 9007199254740992) /\
  (Float.of_int 8 - block_epsilon)%f = Fin (8388607 # 1048576).
Proof. repeat split; vm_compute; reflexivity. Qed.

(* On every pair of the sample floats, zero, subnormal and normal numbers,
   infinities and not-a-number, the four operations give the values that
   those of the Standard Library's specification of IEEE 754 give. *)
Example operations_as_in_SpecFloat :
  forallb (fun x => forallb (agrees_with_spec x) spec_samples) spec_samples = true.
Proof. vm_compute. reflexivity. Qed.

(* the cosine and the sine of the angle of [turn], 0.1f, as floats *)
Example turn_angle_in_single_precision :
  fcos cos_series (Fin 1 * turn_speed)%f = Fin (2086675 # 2097152) /\
  fsin sin_series (Fin 1 * turn_speed)%f = Fin (13399415 # 134217728) /\
  fsin sin_series (Fin (-1) * turn_speed)%f = Fin (- 13399415 # 134217728).
Proof. repeat split; vm_compute; reflexivity. Qed.

(* The columns of the counterexamples of the claims on [draw_column] are
   printed in single precision as they are with exact arithmetic: the bottom
   cap below a display of 4 rows, and the block U+2587 for a wall of 4 rows on
   a display of 8. *)
Example caps_in_single_precision :
  draw_column 0 4 {| hit_distance := Fin 2; tx := Fin (1 # 2) |} false =
    Some [print 0 " " true 1; print 0 " " true 2; print 0 " " true 3;
          print 0 " " false 0; print 0 "▇" true 4] /\
  draw_column 0 8 {| hit_distance := Fin 2; tx := Fin (1 # 2) |} false =
    Some [print 0 " " false 0; print 0 " " true 2; print 0 " " true 3;
          print 0 " " true 4; print 0 " " true 5; print 0 " " true 6;
          print 0 " " false 1; print 0 "▇" true 7].
Proof. split; vm_compute; reflexivity. Qed.

(** ** Steps that are not taken back *)

(** X16.  A step that is taken cannot always be taken back.  In single
    precision, with the cosine and the sine of the angle of [turn] rounded to
    the nearest floats, the keys w, six times, m, five times, and a, three
    times, bring the player of [main] to the position (7.0000005, 8).  From
    there [walk(1)] moves the player, and [walk(-1)] leaves it where it is:
    the position that it tries is not the one the player came from, it is in
    the wall cell (7, 7). *)
Theorem walk_is_not_always_taken_back :
  exists (g : game) (p' : player),
    on_keys maze cos_series sin_series
      (List.map key_of ["w"; "w"; "w"; "w"; "w"; "w"; "m"; "m"; "m"; "m"; "m";
                        "a"; "a"; "a"]%char)
      initial_game
    = Some (Running g) /\
    pos_ (plyr g) = mk_vec2 (Fin (14680065 # 2097152)) (Fin 8) /\
    walk maze (Fin 1) (plyr g) = Some p' /\
    pos_ p' <> pos_ (plyr g) /\
    to_vec2i (vadd (pos_ p') (vscale (vscale (forward_ p') (Fin (-1))) run_speed))
    = Some (mk_vec2 7 7) /\
    is_wall_i maze (mk_vec2 7 7) = Some true /\
    walk maze (Fin (-1)) p' = Some p'.
Proof.
  do 2 eexists. split; [vm_compute; reflexivity |].
  split; [reflexivity |]. split; [vm_compute; reflexivity |].
  split; [intros E; discriminate E |].
  split; [vm_compute; reflexivity |]. split; vm_compute; reflexivity.
Qed.

(** ** A ray that grazes a corner *)

(** X18.  In single precision the cast can pass a corner that the ray grazes
    on its other side.  From (6.625, 6.5) along (-1.625, 6.4999995) the ray
    enters the wall cell (4, 12) at the distance 1, just below the corner
    (5, 13) of the cell: with exact arithmetic the hit is there.  In single
    precision the sums of the step distances are rounded, the traversal takes
    the step in y before the step in x, and the hit that it returns is on the
    border of the map, at the distance 1.923, after points of the ray that are
    inside the wall cell. *)
Theorem cast_passes_a_grazed_corner :
  exists (dist : Q) (offset : float) (t : Q),
    compute_wall_hit maze 41
      (mk_vec2 (Fin (53 # 8)) (Fin (13 # 2)))
      (mk_vec2 (Fin (- 13 # 8)) (Fin (13631487 # 2097152)))
    = Some {| hit_distance := Fin dist; tx := offset |} /\
    (0 <= t)%Q /\ (t < dist)%Q /\
    is_wall_i maze (mk_vec2 4 12) = Some true /\
    (4 < ray_at (53 # 8) (- 13 # 8) t)%Q /\ (ray_at (53 # 8) (- 13 # 8) t < 5)%Q /\
    (12 < ray_at (13 # 2) (13631487 # 2097152) t)%Q /\
    (ray_at (13 # 2) (13631487 # 2097152) t < 13)%Q /\
    exists (dist' : Q) (offset' : float),
      compute_wall_hit (fmt := exact_format) maze 41
        (mk_vec2 (Fin (53 # 8)) (Fin (13 # 2)))
        (mk_vec2 (Fin (- 13 # 8)) (Fin (13631487 # 2097152)))
      = Some {| hit_distance := Fin dist'; tx := offset' |} /\
      dist' == 1.
Proof.
  eexists. eexists. exists (33554433 # 33554432).
  split; [vm_compute; reflexivity |].
  split; [discriminate |]. split; [reflexivity |]. split; [reflexivity |].
  split; [reflexivity |]. split; [reflexivity |]. split; [reflexivity |].
  split; [reflexivity |].
  do 2 eexists. split; [vm_compute; reflexivity | reflexivity].
Qed.

(** ** A ray along a grid axis *)

Lemma axis_cast_from_half_integers_witness :
  exists dist offset : Q,
    compute_wall_hit maze 41
      (mk_vec2 (Fin (inject_Z 11 / 2)) (Fin (inject_Z 11 / 2))) (along AxisX (- (1)))
    = Some {| hit_distance := Fin dist; tx := Fin offset |} /\
    dist == 9 # 2 /\
    offset == frac (across AxisX (mk_vec2 (inject_Z 11 / 2) (inject_Z 11 / 2))%Q).
Proof.
  apply (axis_cast_from_half_integers (laws := binary32_rounding)
           maze AxisX 11 11 (- (1)) (9 # 2) (mk_vec2 5 5) 5 41).
  - lia.
  - lia.
  - reflexivity.
  - right. reflexivity.
  - lia.
  - intros j Hj.
    assert (J : j = 0 \/ j = 1 \/ j = 2 \/ j = 3 \/ j = 4) by lia.
    destruct J as [-> | [-> | [-> | [-> | ->]]]]; reflexivity.
  - reflexivity.
  - reflexivity.
  - cbn. lia.
Defined.

(** ** Smoothed edges of a wall whose height is an even number of rows *)

Lemma even_height_caps_rounded_witness :
  exists (g : column_layout) (f : Q),
    layout 8 {| hit_distance := Fin 2; tx := Fin (1 # 2) |} false = Some g /\
    num_whole_chars g = 2 * 2 /\
    cap_fraction g = Fin f /\ f == 0 /\
    (forall w,
        In w (draw_blocks 0 8 {| hit_distance := Fin 2; tx := Fin (1 # 2) |} false g) ->
        partial_block (w_glyph w) = false) /\
    draw_column 0 8 {| hit_distance := Fin 2; tx := Fin (1 # 2) |} false =
      Some (draw_blocks 0 8 {| hit_distance := Fin 2; tx := Fin (1 # 2) |} false g ++
            if 0 <=? wall_top g
            then [print 0 " " false (wall_top g); print 0 "▇" true (wall_bottom g)]
            else []).
Proof.
  apply (even_height_caps_rounded (laws := binary32_rounding)
           0 8 2 2 4 (Fin (1 # 2))).
  - vm_compute. reflexivity.
  - reflexivity.
  - cbn. lia.
  - vm_compute. reflexivity.
Defined.

(** ** The table of fractional blocks *)

(* the factor of [fractional_block], 8 - 1e-6f, is 8 - 2 ^ -20 *)
Example block_factor_in_single_precision :
  (Float.of_int (Z.of_nat (List.length chars)) - block_epsilon)%f
  = Fin (8388607 # 1048576).
Proof. vm_compute. reflexivity. Qed.

(* a fraction between 0 and 1 times the factor is rounded below 8 *)
Lemma block_product_in_single_precision (x : Q) :
  (0 <= x)%Q -> (x <= 1)%Q ->
  exists a : Q,
    (Fin x * Fin (8388607 # 1048576))%f = Fin a /\ (0 <= a)%Q /\ (a < 8)%Q.
Proof.
  intros X0 X1. cbn [Float.mul].
  pose proof (round_monotone (Rounding := binary32_rounding)
                0 (x * (8388607 # 1048576)) ltac:(nra)) as M0.
  pose proof (round_monotone (Rounding := binary32_rounding)
                (x * (8388607 # 1048576)) (8388607 # 1048576) ltac:(nra)) as M1.
  assert (R0 : round 0 = Fin 0) by (vm_compute; reflexivity).
  assert (R1 : round (8388607 # 1048576) = Fin (8388607 # 1048576))
    by (vm_compute; reflexivity).
  rewrite R0 in M0. rewrite R1 in M1.
  destruct (fle_between _ _ _ M0 M1) as (a & -> & A0 & A1).
  exists a. split; [reflexivity |]. split; [exact A0 |].
  apply Qle_lt_trans with (8388607 # 1048576); [exact A1 | reflexivity].
Qed.

(** X19.  In single precision, for every fraction between 0 and 1, both
    included, the index that [fractional_block] computes lies inside its table
    of 8 glyphs and the read [chars[index]] returns a glyph; and the index
    grows with the fraction. *)
Theorem fractional_block_in_single_precision (x y : Q) :
  (0 <= x)%Q -> (x <= y)%Q -> (y <= 1)%Q ->
  exists (i j : Z) (g : string),
    fractional_index (Fin x) = Some i /\
    fractional_index (Fin y) = Some j /\
    0 <= i /\ i <= j /\ j < Z.of_nat (List.length chars) /\
    fractional_block (Fin x) = Some g /\
    nth_error chars (Z.to_nat i) = Some g.
Proof.
  intros X0 XY Y1.
  destruct (block_product_in_single_precision x X0 ltac:(lra)) as (a & Ea & A0 & A8).
  destruct (block_product_in_single_precision y ltac:(lra) Y1) as (b & Eb & B0 & B8).
  assert (AB : (a <= b)%Q).
  { pose proof (round_monotone (Rounding := binary32_rounding)
                  (x * (8388607 # 1048576)) (y * (8388607 # 1048576)) ltac:(nra)) as M.
    cbn [Float.mul] in Ea, Eb. rewrite Ea, Eb in M. exact M. }
  destruct (Qtrunc_bounds a A0) as (Ia & _ & _).
  pose proof (Qtrunc_lt_inject a 8 A0 A8) as Ja.
  pose proof (Qtrunc_lt_inject b 8 B0 B8) as Jb.
  assert (Iab : Float.Qtrunc a <= Float.Qtrunc b).
  { rewrite !Qtrunc_nonneg by assumption. now apply Qfloor_resp_le. }
  assert (Fx : fractional_index (Fin x) = Some (Float.Qtrunc a)).
  { unfold fractional_index. rewrite block_factor_in_single_precision, Ea.
    apply to_int_Fin. unfold Float.int_min, Float.int_max. lia. }
  assert (Fy : fractional_index (Fin y) = Some (Float.Qtrunc b)).
  { unfold fractional_index. rewrite block_factor_in_single_precision, Eb.
    apply to_int_Fin. unfold Float.int_min, Float.int_max. lia. }
  destruct (chars_lookup (Float.Qtrunc a) ltac:(lia)) as (g & G).
  exists (Float.Qtrunc a), (Float.Qtrunc b), g.
  split; [exact Fx |]. split; [exact Fy |].
  split; [exact Ia |]. split; [exact Iab |].
  split; [cbn [chars List.length]; lia |].
  split; [| exact G].
  unfold fractional_block. rewrite Fx. cbn [bind].
  destruct (Z.ltb_spec (Float.Qtrunc a) 0); [lia | exact G].
Qed.

Lemma fractional_block_in_single_precision_witness :
  exists (i j : Z) (g : string),
    fractional_index (Fin (1 # 2)) = Some i /\
    fractional_index (Fin 1) = Some j /\
    0 <= i /\ i <= j /\ j < Z.of_nat (List.length chars) /\
    fractional_block (Fin (1 # 2)) = Some g /\
    nth_error chars (Z.to_nat i) = Some g.
Proof.
  apply (fractional_block_in_single_precision (1 # 2) 1); unfold Qle; simpl; lia.
Defined.

(** ** The scene on one column *)

Lemma one_column_scene_is_not_drawn_witness :
  draw_scene maze 41 1 24 initial_player false = None.
Proof.
  apply (one_column_scene_is_not_drawn (laws := binary32_rounding)).
Defined.

End SinglePrecision.
